(** * X9: a fixed-capacity ring buffer of message slots

    Shallow embedding of [x9.c].  An inbox is a record holding the two
    64-bit counters, the immutable attributes and the slot array; every
    atomic operation of the C code is one action of a small state monad
    over the inbox, and every public function is the sequence of actions
    the C function performs.  64-bit unsigned arithmetic is [Z] with the
    wrap-around written out. *)

From Stdlib Require Import ZArith Lia String.
From Stdlib.Strings Require Import Byte.
From stdpp Require Import base list gmap.

Local Open Scope Z_scope.

(** ** Machine integers *)

Definition UINT64_MAX : Z := 0xFFFFFFFFFFFFFFFF.

(** Reduction of a mathematical integer to [uint64_t]. *)
Definition wrap64 (z : Z) : Z := z mod 2 ^ 64.

Definition is_uint64 (z : Z) : Prop := 0 <= z < 2 ^ 64.

(** [sizeof(x9_msg_header)]: three atomic booleans and five bytes of pad. *)
Definition sizeof_x9_msg_header : Z := 8.

(** ** Internal types *)

(** [x9_msg_header]: the three flags in front of every payload. *)
Record x9_msg_header : Type := {
  slot_has_data : bool;
  msg_written : bool;
  shared : bool
}.

(** One cell of [inbox->msgs]: the header followed by the payload bytes.
    The C code addresses a cell as [msgs + idx * (msg_sz + sizeof header)];
    here the cell is the element [idx] of a list. *)
Record x9_slot : Type := {
  header : x9_msg_header;
  payload : list byte
}.

Record x9_inbox : Type := {
  read_idx : Z;
  write_idx : Z;
  sz : Z;
  msg_sz : Z;
  constant : Z;
  msgs : list x9_slot;
  name : string
}.

(** ** Lemire's remainder, as written in [x9_load_idx] and
    [x9_increment_idx]: a 64-bit multiplication that wraps, then the high
    64 bits of a 128-bit product. *)
Definition x9_idx_of (constant sz counter : Z) : Z :=
  let low_bits := wrap64 (constant * counter) in
  Z.shiftr (low_bits * sz) 64.

(** The value stored in [inbox->constant] by [x9_create_inbox]. *)
Definition x9_constant (sz : Z) : Z := wrap64 (UINT64_MAX / sz + 1).

(** ** Atomic actions

    An action runs on the inbox and yields its result, the inbox after it
    and the history of inbox states it published: one entry per atomic
    store, successful compare-and-swap, fetch-and-add or [memcpy] into a
    slot, oldest first.  Loads publish nothing. *)
Definition act (A : Type) : Type := x9_inbox -> A * x9_inbox * list x9_inbox.

Definition ret {A} (a : A) : act A := fun s => (a, s, []).

Definition bind {A B} (m : act A) (f : A -> act B) : act B := fun s =>
  let '(a, s1, h1) := m s in
  let '(b, s2, h2) := f a s1 in
  (b, s2, h1 ++ h2).

Declare Scope act_scope.
Delimit Scope act_scope with act.
Bind Scope act_scope with act.

Notation "x <- m ;; k" := (bind m (fun x => k))
  (at level 100, m at next level, k at level 200, right associativity) : act_scope.
Notation "m ;; k" := (bind m (fun _ => k))
  (at level 100, k at level 200, right associativity) : act_scope.

Local Open Scope act_scope.

Definition result {A} (r : A * x9_inbox * list x9_inbox) : A := r.1.1.
Definition final {A} (r : A * x9_inbox * list x9_inbox) : x9_inbox := r.1.2.
Definition history {A} (r : A * x9_inbox * list x9_inbox) : list x9_inbox := r.2.

(** Reading an attribute that is immutable after construction. *)
Definition inbox_field {A} (f : x9_inbox -> A) : act A := fun s => (f s, s, []).

Definition set_read_idx (v : Z) (s : x9_inbox) : x9_inbox :=
  {| read_idx := v; write_idx := write_idx s; sz := sz s; msg_sz := msg_sz s;
     constant := constant s; msgs := msgs s; name := name s |}.

Definition set_write_idx (v : Z) (s : x9_inbox) : x9_inbox :=
  {| read_idx := read_idx s; write_idx := v; sz := sz s; msg_sz := msg_sz s;
     constant := constant s; msgs := msgs s; name := name s |}.

Definition update_slot (f : x9_slot -> x9_slot) (p : nat) (s : x9_inbox) : x9_inbox :=
  {| read_idx := read_idx s; write_idx := write_idx s; sz := sz s;
     msg_sz := msg_sz s; constant := constant s;
     msgs := alter f p (msgs s); name := name s |}.

Definition atomic_load_read_idx : act Z := fun s => (read_idx s, s, []).
Definition atomic_load_write_idx : act Z := fun s => (write_idx s, s, []).

(** [atomic_fetch_add_explicit] on a [uint64_t]: returns the old value and
    stores the sum, reduced modulo 2^64. *)
Definition atomic_fetch_add_read_idx (n : Z) : act Z := fun s =>
  let s' := set_read_idx (wrap64 (read_idx s + n)) s in (read_idx s, s', [s']).

Definition atomic_fetch_add_write_idx (n : Z) : act Z := fun s =>
  let s' := set_write_idx (wrap64 (write_idx s + n)) s in (write_idx s, s', [s']).

(** The three flags of a header. *)
Inductive x9_flag : Type := Slot_has_data | Msg_written | Shared.

Definition get_flag (f : x9_flag) (h : x9_msg_header) : bool :=
  match f with
  | Slot_has_data => slot_has_data h
  | Msg_written => msg_written h
  | Shared => shared h
  end.

Definition set_flag (f : x9_flag) (v : bool) (h : x9_msg_header) : x9_msg_header :=
  match f with
  | Slot_has_data =>
      {| slot_has_data := v; msg_written := msg_written h; shared := shared h |}
  | Msg_written =>
      {| slot_has_data := slot_has_data h; msg_written := v; shared := shared h |}
  | Shared =>
      {| slot_has_data := slot_has_data h; msg_written := msg_written h; shared := v |}
  end.

Definition set_slot_flag (f : x9_flag) (v : bool) (c : x9_slot) : x9_slot :=
  {| header := set_flag f v (header c); payload := payload c |}.

(** A zeroed cell, as [calloc] leaves it. *)
Definition zero_header : x9_msg_header :=
  {| slot_has_data := false; msg_written := false; shared := false |}.

Definition zero_slot (n : nat) : x9_slot :=
  {| header := zero_header; payload := replicate n x00 |}.

(** The cell a header pointer designates.  A pointer past the array does
    not occur: the index is always below [sz] (lemma [x9_idx_of_bound]); the
    model reads such a cell as zeroed and ignores stores to it. *)
Definition slot_at (s : x9_inbox) (p : nat) : x9_slot :=
  default (zero_slot 0) (msgs s !! p).

Definition atomic_load_flag (f : x9_flag) (p : nat) : act bool :=
  fun s => (get_flag f (header (slot_at s p)), s, []).

Definition atomic_store_flag (f : x9_flag) (p : nat) (v : bool) : act unit :=
  fun s => let s' := update_slot (set_slot_flag f v) p s in (tt, s', [s']).

(** [atomic_compare_exchange_strong_explicit (flag, &expected, desired)]:
    succeeds exactly when the flag holds [expected].  The value written back
    into [expected] on failure is never used by the callers. *)
Definition atomic_compare_exchange_strong
    (f : x9_flag) (p : nat) (expected desired : bool) : act bool :=
  fun s =>
    if Bool.eqb (get_flag f (header (slot_at s p))) expected
    then let s' := update_slot (set_slot_flag f desired) p s in (true, s', [s'])
    else (false, s, []).

(** The weak variant may also fail although the flag holds [expected];
    [spurious] says whether this attempt does. *)
Definition atomic_compare_exchange_weak
    (spurious : bool) (f : x9_flag) (p : nat) (expected desired : bool) : act bool :=
  fun s =>
    if spurious then (false, s, [])
    else atomic_compare_exchange_strong f p expected desired s.

(** [memcpy (dst, src, n)] on byte buffers: the first [n] bytes of [dst] are
    replaced by the first [n] bytes of [src].  The C call is defined only
    when both buffers hold at least [n] bytes. *)
Definition memcpy (dst src : list byte) (n : Z) : list byte :=
  take (Z.to_nat n) src ++ drop (Z.to_nat n) dst.

(** [memcpy ((char* )header + sizeof (x9_msg_header), msg, msg_sz)] *)
Definition memcpy_to_slot (p : nat) (msg : list byte) (n : Z) : act unit :=
  fun s =>
    let s' := update_slot
                (fun c => {| header := header c; payload := memcpy (payload c) msg n |})
                p s in
    (tt, s', [s']).

(** [memcpy (outparam, (char* )header + sizeof (x9_msg_header), msg_sz)]:
    the result is the new content of the caller's buffer. *)
Definition memcpy_from_slot (outparam : list byte) (p : nat) (n : Z) : act (list byte) :=
  fun s => (memcpy outparam (payload (slot_at s p)) n, s, []).

(** ** Internal functions *)

(** The parameter [read_idx] of the C function is called [is_read_idx]
    here, the field keeps the name. *)
Definition x9_load_idx (is_read_idx : bool) : act Z :=
  counter <- (if is_read_idx then atomic_load_read_idx else atomic_load_write_idx);;
  k <- inbox_field constant;;
  n <- inbox_field sz;;
  let low_bits := wrap64 (k * counter) in
  ret (Z.shiftr (low_bits * n) 64).

Definition x9_increment_idx (is_read_idx : bool) : act Z :=
  counter <- (if is_read_idx then atomic_fetch_add_read_idx 1
             else atomic_fetch_add_write_idx 1);;
  k <- inbox_field constant;;
  n <- inbox_field sz;;
  let low_bits := wrap64 (k * counter) in
  ret (Z.shiftr (low_bits * n) 64).

(** A header pointer is represented by the index of its cell.  The C code
    computes the byte offset [idx * (msg_sz + sizeof (x9_msg_header))]; the
    cells are distinct as long as that stride does not wrap, which holds for
    every message size that fits in memory. *)
Definition x9_header_ptr (idx : Z) : act nat := ret (Z.to_nat idx).

(** ** Inbox construction *)

(** Outcome of the three allocations of [x9_create_inbox], in program
    order: [true] when the allocation returns a non-null pointer. *)
Record allocator : Type := {
  alloc_inbox : bool;
  alloc_name : bool;
  alloc_msgs : bool
}.

(** The size test is [!((sz > 0) && !(sz % 2))], where [sz % 2] is true
    when it is not zero. *)
Definition x9_create_inbox (heap : allocator)
    (sz : Z) (name : string) (msg_sz : Z) : option x9_inbox :=
  if negb ((0 <? sz) && negb (negb (sz mod 2 =? 0))) then None
  else if negb (alloc_inbox heap) then None
  else if negb (alloc_name heap) then None
  else if negb (alloc_msgs heap) then None
  else Some {| read_idx := 0; write_idx := 0;
               sz := sz; msg_sz := msg_sz;
               constant := wrap64 (UINT64_MAX / sz + 1);
               msgs := replicate (Z.to_nat sz) (zero_slot (Z.to_nat msg_sz));
               name := name |}.

(** [NULL] is [None]. *)
Definition is_null {A} (p : option A) : bool :=
  match p with None => true | Some _ => false end.

Definition x9_inbox_is_valid (inbox : option x9_inbox) : bool :=
  negb (is_null inbox).

(** ** Writing and reading *)

Definition x9_write_to_inbox (msg_sz : Z) (msg : list byte) : act bool :=
  idx <- x9_load_idx false;;
  header <- x9_header_ptr idx;;
  swapped <- atomic_compare_exchange_strong Slot_has_data header false true;;
  if swapped then
    (memcpy_to_slot header msg msg_sz;;
     atomic_fetch_add_write_idx 1;;
     atomic_store_flag Msg_written header true;;
     ret true)
  else ret false.

(** One turn of the [for (;;)] of [x9_write_to_inbox_spin]; the result is
    [true] when the turn ends in [break]. *)
Definition x9_write_to_inbox_spin_turn
    (spurious : bool) (msg_sz : Z) (msg : list byte) : act bool :=
  idx <- x9_increment_idx false;;
  header <- x9_header_ptr idx;;
  swapped <- atomic_compare_exchange_weak spurious Slot_has_data header false true;;
  if swapped then
    (memcpy_to_slot header msg msg_sz;;
     atomic_store_flag Msg_written header true;;
     ret true)
  else ret false.

(** [x9_write_to_inbox_spin], run for at most [fuel] turns.  [spurious]
    lists, turn by turn, whether the weak compare-and-swap fails spuriously
    (never, once the list is used up).  The result is [Some n] when the
    function returns in its turn [n] (the first turn is [turn]), and [None]
    when it is still spinning after [fuel] turns. *)
Fixpoint x9_write_to_inbox_spin_from (turn : nat) (fuel : nat) (spurious : list bool)
    (msg_sz : Z) (msg : list byte) : act (option nat) :=
  match fuel with
  | O => ret None
  | S fuel' =>
      done <- x9_write_to_inbox_spin_turn (default false (head spurious)) msg_sz msg;;
      if done then ret (Some turn)
      else x9_write_to_inbox_spin_from (S turn) fuel' (tail spurious) msg_sz msg
  end.

Definition x9_write_to_inbox_spin : nat -> list bool -> Z -> list byte -> act (option nat) :=
  x9_write_to_inbox_spin_from 1.

Definition x9_read_from_inbox (msg_sz : Z) (outparam : list byte)
    : act (bool * list byte) :=
  idx <- x9_load_idx true;;
  header <- x9_header_ptr idx;;
  has_data <- atomic_load_flag Slot_has_data header;;
  if has_data then
    written <- atomic_load_flag Msg_written header;;
    if written then
      (outparam' <- memcpy_from_slot outparam header msg_sz;;
       atomic_store_flag Msg_written header false;;
       atomic_store_flag Slot_has_data header false;;
       atomic_fetch_add_read_idx 1;;
       ret (true, outparam'))
    else ret (false, outparam)
  else ret (false, outparam).

Definition x9_read_from_shared_inbox (msg_sz : Z) (outparam : list byte)
    : act (bool * list byte) :=
  idx <- x9_load_idx true;;
  header <- x9_header_ptr idx;;
  locked <- atomic_compare_exchange_strong Shared header false true;;
  if locked then
    has_data <- atomic_load_flag Slot_has_data header;;
    if has_data then
      written <- atomic_load_flag Msg_written header;;
      if written then
        (outparam' <- memcpy_from_slot outparam header msg_sz;;
         atomic_fetch_add_read_idx 1;;
         atomic_store_flag Msg_written header false;;
         atomic_store_flag Slot_has_data header false;;
         atomic_store_flag Shared header false;;
         ret (true, outparam'))
      else (atomic_store_flag Shared header false;; ret (false, outparam))
    else (atomic_store_flag Shared header false;; ret (false, outparam))
  else ret (false, outparam).

(** ** Nodes *)

(** A reference to an inbox, as stored in a node and compared by
    [x9_create_node]: [None] is [NULL], [Some a] is the inbox allocated at
    address [a]. *)
Abbreviation x9_inbox_ref := (option nat).

(** The field [name] of the C struct is called [node_name] here. *)
Record x9_node : Type := {
  inboxes : list x9_inbox_ref;
  n_inboxes : Z;
  node_name : string
}.

(** Outcome of the three allocations of [x9_create_node], in program
    order. *)
Record node_allocator : Type := {
  alloc_node : bool;
  alloc_node_name : bool;
  alloc_node_inboxes : bool
}.

(** A call either returns or reads a variadic argument that was not
    passed, which C leaves undefined. *)
Inductive outcome (A : Type) : Type :=
  | Undefined
  | Returned (a : A).
Arguments Undefined {A}.
Arguments Returned {A} a.

(** The inner [for (j = 0; j != k; ++j)] of [x9_create_node], entered with
    [todo] turns left: [None] stands for the jump to
    [node_multiple_equal_inboxes]. *)
Fixpoint x9_create_node_scan (inbox : x9_inbox_ref) (k j todo : nat)
    (inboxes : list x9_inbox_ref) : option (list x9_inbox_ref) :=
  match todo with
  | O => Some inboxes
  | S todo' =>
      if decide (inbox = default None (inboxes !! j)) then None
      else x9_create_node_scan inbox k (S j) todo' (<[k := inbox]> inboxes)
  end.

(** The outer [for (k = 0; k != n_inboxes; ++k)], entered with [todo] turns
    left and [argp] the arguments not yet read by [va_arg]. *)
Fixpoint x9_create_node_attach (k todo : nat) (argp : list x9_inbox_ref)
    (inboxes : list x9_inbox_ref) : outcome (option (list x9_inbox_ref)) :=
  match todo with
  | O => Returned (Some inboxes)
  | S todo' =>
      match argp with
      | [] => Undefined
      | inbox :: argp' =>
          match k with
          | S _ =>
              match x9_create_node_scan inbox k 0 k inboxes with
              | None => Returned None
              | Some inboxes' => x9_create_node_attach (S k) todo' argp' inboxes'
              end
          | O => x9_create_node_attach (S k) todo' argp' (<[k := inbox]> inboxes)
          end
      end
  end.

Definition x9_create_node (heap : node_allocator)
    (name : string) (n_inboxes : Z) (args : list x9_inbox_ref)
    : outcome (option x9_node) :=
  if negb (0 <? n_inboxes) then Returned None
  else if negb (alloc_node heap) then Returned None
  else if negb (alloc_node_name heap) then Returned None
  else if negb (alloc_node_inboxes heap) then Returned None
  else
    let inboxes := replicate (Z.to_nat n_inboxes) None in
    match x9_create_node_attach 0 (Z.to_nat n_inboxes) args inboxes with
    | Undefined => Undefined
    | Returned None => Returned None
    | Returned (Some inboxes') =>
        Returned (Some {| inboxes := inboxes';
                          n_inboxes := n_inboxes;
                          node_name := name |})
    end.

Definition x9_node_is_valid (node : option x9_node) : bool :=
  negb (is_null node).

(** ** Running the model on small inputs *)

Definition heap_ok : allocator :=
  {| alloc_inbox := true; alloc_name := true; alloc_msgs := true |}.

Definition node_heap_ok : node_allocator :=
  {| alloc_node := true; alloc_node_name := true; alloc_node_inboxes := true |}.

(** ** Spinning reads *)

(** One turn of the [for (;;)] of [x9_read_from_inbox_spin], on the header
    computed before the loop; [_mm_pause] does nothing to the inbox.  The
    result is [true] when the turn ends in [return]. *)
Definition x9_read_from_inbox_spin_turn
    (header : nat) (msg_sz : Z) (outparam : list byte) : act (bool * list byte) :=
  has_data <- atomic_load_flag Slot_has_data header;;
  if has_data then
    written <- atomic_load_flag Msg_written header;;
    if written then
      (outparam' <- memcpy_from_slot outparam header msg_sz;;
       atomic_store_flag Msg_written header false;;
       atomic_store_flag Slot_has_data header false;;
       ret (true, outparam'))
    else ret (false, outparam)
  else ret (false, outparam).

(** The loop, run for at most [fuel] turns: [Some n] when the function
    returns in turn [n], [None] when it is still spinning. *)
Fixpoint x9_read_from_inbox_spin_loop (turn fuel : nat)
    (header : nat) (msg_sz : Z) (outparam : list byte)
    : act (option nat * list byte) :=
  match fuel with
  | O => ret (None, outparam)
  | S fuel' =>
      r <- x9_read_from_inbox_spin_turn header msg_sz outparam;;
      if r.1 then ret (Some turn, r.2)
      else x9_read_from_inbox_spin_loop (S turn) fuel' header msg_sz outparam
  end.

Definition x9_read_from_inbox_spin (fuel : nat) (msg_sz : Z) (outparam : list byte)
    : act (option nat * list byte) :=
  idx <- x9_increment_idx true;;
  header <- x9_header_ptr idx;;
  x9_read_from_inbox_spin_loop 1 fuel header msg_sz outparam.

(** One turn of the [for (;;)] of [x9_read_from_shared_inbox_spin]. *)
Definition x9_read_from_shared_inbox_spin_turn
    (msg_sz : Z) (outparam : list byte) : act (bool * list byte) :=
  idx <- x9_increment_idx true;;
  header <- x9_header_ptr idx;;
  locked <- atomic_compare_exchange_strong Shared header false true;;
  if locked then
    has_data <- atomic_load_flag Slot_has_data header;;
    if has_data then
      written <- atomic_load_flag Msg_written header;;
      if written then
        (outparam' <- memcpy_from_slot outparam header msg_sz;;
         atomic_store_flag Msg_written header false;;
         atomic_store_flag Slot_has_data header false;;
         atomic_store_flag Shared header false;;
         ret (true, outparam'))
      else (atomic_store_flag Shared header false;; ret (false, outparam))
    else (atomic_store_flag Shared header false;; ret (false, outparam))
  else ret (false, outparam).

Fixpoint x9_read_from_shared_inbox_spin_from (turn fuel : nat)
    (msg_sz : Z) (outparam : list byte) : act (option nat * list byte) :=
  match fuel with
  | O => ret (None, outparam)
  | S fuel' =>
      r <- x9_read_from_shared_inbox_spin_turn msg_sz outparam;;
      if r.1 then ret (Some turn, r.2)
      else x9_read_from_shared_inbox_spin_from (S turn) fuel' msg_sz outparam
  end.

Definition x9_read_from_shared_inbox_spin
    : nat -> Z -> list byte -> act (option nat * list byte) :=
  x9_read_from_shared_inbox_spin_from 1.

(** ** Names, lookup, broadcast and release

    The functions below follow pointers: the inboxes live in a heap that
    maps the address of every allocated inbox to its state, and the nodes
    in a heap of their own.  Following [NULL] or the address of an object
    that is not allocated is undefined in C. *)

(** [strcmp], on the characters before the terminators. *)
Definition strcmp (a b : string) : Z :=
  match String.compare a b with
  | Eq => 0
  | Lt => -1
  | Gt => 1
  end.

(** [!strcmp (inbox->name, cmp) ? true : false] *)
Definition x9_inbox_name_is (inbox : x9_inbox) (cmp : string) : bool :=
  if negb (negb (strcmp (name inbox) cmp =? 0)) then true else false.

Definition x9_node_name_is (node : x9_node) (cmp : string) : bool :=
  if negb (negb (strcmp (node_name node) cmp =? 0)) then true else false.

Record x9_memory : Type := {
  inbox_heap : gmap nat x9_inbox;
  node_heap : gmap nat x9_node
}.

(** [*inbox] *)
Definition deref_inbox (mem : x9_memory) (inbox : x9_inbox_ref)
    : outcome x9_inbox :=
  match inbox with
  | None => Undefined
  | Some a =>
      match inbox_heap mem !! a with
      | None => Undefined
      | Some s => Returned s
      end
  end.

(** The [for (k = 0; k != node->n_inboxes; ++k)] of
    [x9_select_inbox_from_node], entered at [k] with [todo] turns left. *)
Fixpoint x9_select_inbox_from_node_at (mem : x9_memory) (node : x9_node)
    (name : string) (k todo : nat) : outcome x9_inbox_ref :=
  match todo with
  | O => Returned None
  | S todo' =>
      match inboxes node !! k with
      | None => Undefined
      | Some inbox =>
          match deref_inbox mem inbox with
          | Undefined => Undefined
          | Returned s =>
              if x9_inbox_name_is s name then Returned inbox
              else x9_select_inbox_from_node_at mem node name (S k) todo'
          end
      end
  end.

Definition x9_select_inbox_from_node (mem : x9_memory) (node : x9_node)
    (name : string) : outcome x9_inbox_ref :=
  x9_select_inbox_from_node_at mem node name 0 (Z.to_nat (n_inboxes node)).

Definition set_inbox_heap (h : gmap nat x9_inbox) (mem : x9_memory) : x9_memory :=
  {| inbox_heap := h; node_heap := node_heap mem |}.

Definition set_node_heap (h : gmap nat x9_node) (mem : x9_memory) : x9_memory :=
  {| inbox_heap := inbox_heap mem; node_heap := h |}.

(** The loop of [x9_broadcast_msg_to_all_node_inboxes].  Every call of
    [x9_write_to_inbox_spin] is given [fuel] turns; [spurious] holds, for
    the call on the inbox of index [k], the list of the spurious failures of
    its weak compare-and-swap, turn by turn (none for the calls beyond the
    end of [spurious]).  [Returned None] says that one of the calls is still
    spinning. *)
Fixpoint x9_broadcast_msg_to_all_node_inboxes_at (fuel : nat)
    (spurious : list (list bool)) (node : x9_node)
    (msg_sz : Z) (msg : list byte) (k todo : nat) (mem : x9_memory)
    : outcome (option x9_memory) :=
  match todo with
  | O => Returned (Some mem)
  | S todo' =>
      match inboxes node !! k with
      | None => Undefined
      | Some None => Undefined
      | Some (Some a) =>
          match inbox_heap mem !! a with
          | None => Undefined
          | Some s =>
              let r := x9_write_to_inbox_spin fuel (default [] (spurious !! k))
                         msg_sz msg s in
              match result r with
              | None => Returned None
              | Some _ =>
                  x9_broadcast_msg_to_all_node_inboxes_at fuel spurious node
                    msg_sz msg (S k) todo'
                    (set_inbox_heap (<[a := final r]> (inbox_heap mem)) mem)
              end
          end
      end
  end.

Definition x9_broadcast_msg_to_all_node_inboxes (fuel : nat)
    (spurious : list (list bool)) (node : x9_node)
    (msg_sz : Z) (msg : list byte) (mem : x9_memory) : outcome (option x9_memory) :=
  x9_broadcast_msg_to_all_node_inboxes_at fuel spurious node msg_sz msg
    0 (Z.to_nat (n_inboxes node)) mem.

(** [x9_free_inbox]: the three blocks of the inbox are released together;
    releasing an inbox that is not allocated is undefined. *)
Definition x9_free_inbox (inbox : x9_inbox_ref) (mem : x9_memory)
    : outcome x9_memory :=
  match inbox with
  | None => Undefined
  | Some a =>
      match inbox_heap mem !! a with
      | None => Undefined
      | Some _ => Returned (set_inbox_heap (delete a (inbox_heap mem)) mem)
      end
  end.

(** [x9_free_node], on the address of a node. *)
Definition x9_free_node (node : nat) (mem : x9_memory) : outcome x9_memory :=
  match node_heap mem !! node with
  | None => Undefined
  | Some _ => Returned (set_node_heap (delete node (node_heap mem)) mem)
  end.

(** [node->inboxes[k] = NULL] *)
Definition clear_node_inbox (k : nat) (node : x9_node) : x9_node :=
  {| inboxes := <[k := None]> (inboxes node);
     n_inboxes := n_inboxes node;
     node_name := node_name node |}.

(** The loop of [x9_free_node_and_attached_inboxes]. *)
Fixpoint x9_free_node_and_attached_inboxes_at (node : nat) (k todo : nat)
    (mem : x9_memory) : outcome x9_memory :=
  match todo with
  | O => Returned mem
  | S todo' =>
      match node_heap mem !! node with
      | None => Undefined
      | Some nd =>
          match inboxes nd !! k with
          | None => Undefined
          | Some None =>
              x9_free_node_and_attached_inboxes_at node (S k) todo' mem
          | Some (Some a) =>
              match x9_free_inbox (Some a) mem with
              | Undefined => Undefined
              | Returned mem' =>
                  x9_free_node_and_attached_inboxes_at node (S k) todo'
                    (set_node_heap
                       (<[node := clear_node_inbox k nd]> (node_heap mem')) mem')
              end
          end
      end
  end.

Definition x9_free_node_and_attached_inboxes (node : nat) (mem : x9_memory)
    : outcome x9_memory :=
  match node_heap mem !! node with
  | None => Undefined
  | Some nd =>
      match x9_free_node_and_attached_inboxes_at node 0
              (Z.to_nat (n_inboxes nd)) mem with
      | Undefined => Undefined
      | Returned mem' => x9_free_node node mem'
      end
  end.

(** ** Vocabulary of the properties *)

(** [constant * sz] overshoots 2^64 by [x9_excess sz]: nothing when [sz]
    divides 2^64, and [sz - 2^64 mod sz] otherwise. *)
Definition x9_excess (C : Z) : Z :=
  if 2 ^ 64 mod C =? 0 then 0 else C - 2 ^ 64 mod C.

(** An inbox whose capacity is a legal [uint64_t] and whose slot array
    has that many cells, as [x9_create_inbox] builds it. *)
Definition x9_inbox_wf (s : x9_inbox) : Prop :=
  0 < sz s < 2 ^ 64 /\ length (msgs s) = Z.to_nat (sz s).

(** The cell that the inbox assigns to a counter value. *)
Definition slot_of (s : x9_inbox) (counter : Z) : nat :=
  Z.to_nat (x9_idx_of (constant s) (sz s) counter).

(** What a successful write leaves in its cell. *)
Definition written_slot (msg_sz : Z) (msg : list byte) (c : x9_slot) : x9_slot :=
  {| header := {| slot_has_data := true; msg_written := true;
                  shared := shared (header c) |};
     payload := memcpy (payload c) msg msg_sz |}.

(** What a successful read leaves in its cell. *)
Definition drained_slot (c : x9_slot) : x9_slot :=
  {| header := {| slot_has_data := false; msg_written := false;
                  shared := shared (header c) |};
     payload := payload c |}.

(** Number of cells whose [slot_has_data] is clear. *)
Fixpoint free_slots (l : list x9_slot) : nat :=
  match l with
  | [] => O
  | c :: l' => ((if slot_has_data (header c) then 0 else 1) + free_slots l')%nat
  end.

(** A caller that issues non-blocking calls one after the other. *)
Inductive x9_call : Type :=
  | Write_to_inbox (msg_sz : Z) (msg : list byte)
  | Read_from_inbox (msg_sz : Z) (outparam : list byte)
  | Read_from_shared_inbox (msg_sz : Z) (outparam : list byte).

Definition is_write (c : x9_call) : bool :=
  match c with Write_to_inbox _ _ => true | _ => false end.

Definition x9_call_run (c : x9_call) : act bool :=
  match c with
  | Write_to_inbox msg_sz msg => x9_write_to_inbox msg_sz msg
  | Read_from_inbox msg_sz outparam =>
      r <- x9_read_from_inbox msg_sz outparam;; ret r.1
  | Read_from_shared_inbox msg_sz outparam =>
      r <- x9_read_from_shared_inbox msg_sz outparam;; ret r.1
  end.

Fixpoint x9_calls_run (cs : list x9_call) : act (list bool) :=
  match cs with
  | [] => ret []
  | c :: cs' =>
      b <- x9_call_run c;;
      bs <- x9_calls_run cs';;
      ret (b :: bs)
  end.

(** Number of writes of [cs] that returned [true], given the results. *)
Fixpoint written_count (cs : list x9_call) (bs : list bool) : nat :=
  match cs, bs with
  | c :: cs', b :: bs' =>
      ((if is_write c && b then 1 else 0) + written_count cs' bs')%nat
  | _, _ => O
  end.

(** No read of [cs] returned [true]. *)
Fixpoint no_read_succeeded (cs : list x9_call) (bs : list bool) : bool :=
  match cs, bs with
  | c :: cs', b :: bs' => (is_write c || negb b) && no_read_succeeded cs' bs'
  | _, _ => true
  end.

(** A producer writing a batch of messages with [x9_write_to_inbox]. *)
Fixpoint producer (msg_sz : Z) (batch : list (list byte)) : act (list bool) :=
  match batch with
  | [] => ret []
  | msg :: batch' =>
      b <- x9_write_to_inbox msg_sz msg;;
      bs <- producer msg_sz batch';;
      ret (b :: bs)
  end.

(** A consumer calling [x9_read_from_inbox] [n] times with the same
    buffer; it records, per call, the result and the buffer after it. *)
Fixpoint consumer (msg_sz : Z) (n : nat) (outparam : list byte)
    : act (list (bool * list byte)) :=
  match n with
  | O => ret []
  | S n' =>
      r <- x9_read_from_inbox msg_sz outparam;;
      rs <- consumer msg_sz n' r.2;;
      ret (r :: rs)
  end.

(** The inbox holds, in ticket order from the counter value [q] on, the
    messages [pend]: the cell of ticket [q + j] is occupied and ready with
    payload [pend !! j], and distinct tickets have distinct cells. *)
Definition ticket (s : x9_inbox) (j : nat) : nat :=
  slot_of s (wrap64 (Z.of_nat j)).

Definition holds_msg (msg_sz : Z) (s : x9_inbox) (p : nat) (msg : list byte) : Prop :=
  exists c, msgs s !! p = Some c /\
            slot_has_data (header c) = true /\
            msg_written (header c) = true /\
            take (Z.to_nat msg_sz) (payload c) = msg.

Definition queue_inv (msg_sz : Z) (q : nat) (pend : list (list byte))
    (s : x9_inbox) : Prop :=
  x9_inbox_wf s /\
  read_idx s = wrap64 (Z.of_nat q) /\
  write_idx s = wrap64 (Z.of_nat (q + length pend)) /\
  (forall j msg, pend !! j = Some msg ->
     holds_msg msg_sz s (ticket s (q + j)) msg) /\
  (forall i j, (i < j < length pend)%nat ->
     ticket s (q + i) <> ticket s (q + j)).

(** The states a successful shared read publishes, in order: the cell
    locked, the counter advanced, [msg_written] cleared, [slot_has_data]
    cleared, the cell unlocked. *)
Definition shared_read_steps (p : nat) (s : x9_inbox) : list x9_inbox :=
  let s1 := update_slot (set_slot_flag Shared true) p s in
  let s2 := set_read_idx (wrap64 (read_idx s1 + 1)) s1 in
  let s3 := update_slot (set_slot_flag Msg_written false) p s2 in
  let s4 := update_slot (set_slot_flag Slot_has_data false) p s3 in
  let s5 := update_slot (set_slot_flag Shared false) p s4 in
  [s1; s2; s3; s4; s5].

(** The states a shared read publishes when it takes the lock and finds
    the cell not ready. *)
Definition shared_read_backoff (p : nat) (s : x9_inbox) : list x9_inbox :=
  let s1 := update_slot (set_slot_flag Shared true) p s in
  [s1; update_slot (set_slot_flag Shared false) p s1].

(** What a turn of the spinning write does to the inbox when its
    compare-and-swap fails: the ticket is gone. *)
Definition draw_ticket (s : x9_inbox) : x9_inbox :=
  set_write_idx (wrap64 (write_idx s + 1)) s.

(** A call that respects the contract of the inbox: the size passed is
    the message size of the inbox and the buffer holds that many bytes. *)
Definition call_fits (M : Z) (c : x9_call) : Prop :=
  match c with
  | Write_to_inbox n buf | Read_from_inbox n buf | Read_from_shared_inbox n buf =>
      n = M /\ length buf = Z.to_nat M
  end.

(** The cell is occupied and ready: a reader may take its payload. *)
Definition slot_ready (s : x9_inbox) (p : nat) : bool :=
  slot_has_data (header (slot_at s p)) && msg_written (header (slot_at s p)).

(** What drawing a read ticket does to the inbox. *)
Definition draw_read_ticket (s : x9_inbox) : x9_inbox :=
  set_read_idx (wrap64 (read_idx s + 1)) s.

(** The reference designates an allocated inbox, whose name is (is not)
    [nm]. *)
Definition inbox_named (mem : x9_memory) (r : x9_inbox_ref) (nm : string) : Prop :=
  exists a s, r = Some a /\ inbox_heap mem !! a = Some s /\ name s = nm.

Definition inbox_not_named (mem : x9_memory) (r : x9_inbox_ref) (nm : string)
    : Prop :=
  exists a s, r = Some a /\ inbox_heap mem !! a = Some s /\ name s <> nm.

(** The inbox after a non-blocking write of [msg]. *)
Definition written_inbox (n : Z) (msg : list byte) (s : x9_inbox) : x9_inbox :=
  final (x9_write_to_inbox n msg s).

(** A call together with what it leaves in the caller's buffer (the
    message itself for a write, which does not touch it). *)
Definition x9_call_trace (c : x9_call) : act (bool * list byte) :=
  match c with
  | Write_to_inbox msg_sz msg =>
      b <- x9_write_to_inbox msg_sz msg;; ret (b, msg)
  | Read_from_inbox msg_sz outparam => x9_read_from_inbox msg_sz outparam
  | Read_from_shared_inbox msg_sz outparam =>
      x9_read_from_shared_inbox msg_sz outparam
  end.

Fixpoint x9_calls_trace (cs : list x9_call) : act (list (bool * list byte)) :=
  match cs with
  | [] => ret []
  | c :: cs' =>
      r <- x9_call_trace c;;
      rs <- x9_calls_trace cs';;
      ret (r :: rs)
  end.

(** The same calls on a first-in first-out queue of at most [cap]
    messages, [pend] being the messages it holds, oldest first. *)
Fixpoint fifo_trace (cap : nat) (pend : list (list byte)) (cs : list x9_call)
    : list (bool * list byte) :=
  match cs with
  | [] => []
  | Write_to_inbox _ msg :: cs' =>
      if (length pend <? cap)%nat
      then (true, msg) :: fifo_trace cap (pend ++ [msg]) cs'
      else (false, msg) :: fifo_trace cap pend cs'
  | Read_from_inbox _ outparam :: cs'
  | Read_from_shared_inbox _ outparam :: cs' =>
      match pend with
      | [] => (false, outparam) :: fifo_trace cap [] cs'
      | msg :: pend' => (true, msg) :: fifo_trace cap pend' cs'
      end
  end.

(** The queue invariant, together with what makes the inbox accept and
    refuse writes like a bounded queue: no more than [C] messages pending,
    no slot locked, and every slot that holds no pending message free. *)
Definition fifo_inv (C M : Z) (q : nat) (pend : list (list byte))
    (s : x9_inbox) : Prop :=
  queue_inv M q pend s /\
  sz s = C /\ constant s = x9_constant C /\
  Z.of_nat (length pend) <= C /\
  (forall p, shared (header (slot_at s p)) = false) /\
  (forall p, (forall j, (j < length pend)%nat -> ticket s (q + j) <> p) ->
             slot_has_data (header (slot_at s p)) = false).

(** The weak compare-and-swap of the first turn of a call of
    [x9_write_to_inbox_spin] does not fail spuriously; the later turns
    may. *)
Definition first_turn_sound (spurious : list bool) : Prop :=
  default false (head spurious) = false.

(** A producer and a consumer that use the spinning calls, each call
    being given [fuel] turns.  [spurious] holds, call by call, the list of
    the spurious failures of the weak compare-and-swap of
    [x9_write_to_inbox_spin], turn by turn (none for the calls beyond the
    end of [spurious]). *)
Fixpoint spin_producer (fuel : nat) (spurious : list (list bool))
    (msg_sz : Z) (batch : list (list byte)) : act (list (option nat)) :=
  match batch with
  | [] => ret []
  | msg :: batch' =>
      k <- x9_write_to_inbox_spin fuel (default [] (head spurious)) msg_sz msg;;
      ks <- spin_producer fuel (tail spurious) msg_sz batch';;
      ret (k :: ks)
  end.

Fixpoint spin_consumer (fuel : nat) (msg_sz : Z) (n : nat) (outparam : list byte)
    : act (list (option nat * list byte)) :=
  match n with
  | O => ret []
  | S n' =>
      r <- x9_read_from_inbox_spin fuel msg_sz outparam;;
      rs <- spin_consumer fuel msg_sz n' r.2;;
      ret (r :: rs)
  end.

(** The attributes fixed at creation and the number of slots are the
    same in both inboxes. *)
Definition same_shape (s s' : x9_inbox) : Prop :=
  sz s' = sz s /\ msg_sz s' = msg_sz s /\ constant s' = constant s /\
  name s' = name s /\ length (msgs s') = length (msgs s).

(** * Properties *)

(** ** The index computation *)

Section Remainder.

Variable C : Z.
Hypothesis C_legal : 0 < C < 2 ^ 64.

Lemma wrap64_bound z : 0 <= wrap64 z < 2 ^ 64.
Proof. unfold wrap64. apply Z.mod_pos_bound. lia. Qed.

Lemma wrap64_small z : 0 <= z < 2 ^ 64 -> wrap64 z = z.
Proof. unfold wrap64. apply Z.mod_small. Qed.

(** The index is always a valid position of the slot array. *)
Lemma x9_idx_of_bound K c : 0 <= x9_idx_of K C c < C.
Proof.
  unfold x9_idx_of. cbv zeta. rewrite Z.shiftr_div_pow2 by lia.
  pose proof (wrap64_bound (K * c)) as Hlow.
  split.
  - apply Z.div_pos; nia.
  - apply Z.div_lt_upper_bound; nia.
Qed.

(** What [UINT64_MAX / sz + 1] is, in terms of 2^64. *)
Lemma uint64_max_div :
  UINT64_MAX / C = if 2 ^ 64 mod C =? 0 then 2 ^ 64 / C - 1 else 2 ^ 64 / C.
Proof.
  pose proof (Z.div_mod (2 ^ 64) C ltac:(lia)) as Hdm.
  pose proof (Z.mod_pos_bound (2 ^ 64) C ltac:(lia)) as Hr.
  replace UINT64_MAX with (2 ^ 64 - 1) by reflexivity.
  destruct (Z.eqb_spec (2 ^ 64 mod C) 0) as [H0 | H0].
  - symmetry. apply (Z.div_unique _ _ _ (C - 1)); lia.
  - symmetry. apply (Z.div_unique _ _ _ (2 ^ 64 mod C - 1)); lia.
Qed.

Lemma x9_constant_no_wrap : 2 <= C -> x9_constant C = UINT64_MAX / C + 1.
Proof.
  intros H2. unfold x9_constant. apply wrap64_small.
  assert (0 <= UINT64_MAX / C) by (apply Z.div_pos; [unfold UINT64_MAX | ]; lia).
  assert (UINT64_MAX / C < 2 ^ 63).
  { apply Z.div_lt_upper_bound; [lia |].
    replace UINT64_MAX with (2 ^ 64 - 1) by reflexivity. lia. }
  lia.
Qed.

Lemma x9_constant_times_sz :
  2 <= C -> x9_constant C * C = 2 ^ 64 + x9_excess C.
Proof.
  intros H2. rewrite x9_constant_no_wrap by exact H2.
  rewrite uint64_max_div. unfold x9_excess.
  pose proof (Z.div_mod (2 ^ 64) C ltac:(lia)) as Hdm.
  destruct (Z.eqb_spec (2 ^ 64 mod C) 0); lia.
Qed.

(** The computation is the remainder as long as the counter times the
    excess stays below 2^64; in particular for every counter when [sz]
    is a power of two. *)
Lemma x9_idx_of_exact c :
  2 <= C -> 0 <= c < 2 ^ 64 -> x9_excess C * c < 2 ^ 64 ->
  x9_idx_of (x9_constant C) C c = c mod C.
Proof.
  intros H2 Hc He.
  pose proof (x9_constant_times_sz H2) as HKC.
  assert (0 <= x9_excess C) as He0.
  { unfold x9_excess. pose proof (Z.mod_pos_bound (2 ^ 64) C ltac:(lia)).
    destruct (Z.eqb_spec (2 ^ 64 mod C) 0); lia. }
  set (K := x9_constant C) in *. set (e := x9_excess C) in *.
  pose proof (Z.div_mod c C ltac:(lia)) as Hdm.
  pose proof (Z.mod_pos_bound c C ltac:(lia)) as Hm.
  set (a := c / C) in *. set (m := c mod C) in *.
  assert (0 <= a) as Ha by (apply Z.div_pos; lia).
  assert (0 <= K) as HK by nia.
  assert ((a * e + K * m) * C = m * 2 ^ 64 + e * c) as Hprod by nia.
  assert (0 <= a * e + K * m < 2 ^ 64) as Hlow by nia.
  assert (wrap64 (K * c) = a * e + K * m) as Hw.
  { unfold wrap64. symmetry. apply (Z.mod_unique _ _ a); [lia | nia]. }
  unfold x9_idx_of. cbv zeta. rewrite Hw, Z.shiftr_div_pow2 by lia.
  rewrite Hprod. symmetry. apply (Z.div_unique _ _ _ (e * c)); nia.
Qed.

End Remainder.

(** In particular the index is the remainder for every counter when the
    capacity is a power of two. *)
Lemma x9_idx_of_exact_pow2 C c :
  2 <= C < 2 ^ 64 -> 2 ^ 64 mod C = 0 -> 0 <= c < 2 ^ 64 ->
  x9_idx_of (x9_constant C) C c = c mod C.
Proof.
  intros HC Hdiv Hc. apply x9_idx_of_exact; [lia | lia | exact Hc |].
  unfold x9_excess. rewrite Hdiv. simpl. lia.
Qed.

(** ** Construction *)

(** A capacity is accepted exactly when it is positive and even. *)
Lemma x9_create_inbox_size_test C :
  negb ((0 <? C) && negb (negb (C mod 2 =? 0))) = false <-> 0 < C /\ C mod 2 = 0.
Proof.
  rewrite Bool.negb_false_iff, Bool.andb_true_iff, Bool.negb_involutive.
  rewrite Z.ltb_lt, Z.eqb_eq. reflexivity.
Qed.

(** A created inbox has both counters at zero, every cell zeroed, and the
    attributes it was given. *)
Lemma x9_create_inbox_inv heap C nm M inbox :
  x9_create_inbox heap C nm M = Some inbox ->
  (0 < C /\ C mod 2 = 0) /\
  inbox = {| read_idx := 0; write_idx := 0; sz := C; msg_sz := M;
             constant := x9_constant C;
             msgs := replicate (Z.to_nat C) (zero_slot (Z.to_nat M));
             name := nm |}.
Proof.
  unfold x9_create_inbox.
  destruct (negb ((0 <? C) && negb (negb (C mod 2 =? 0)))) eqn:Hsz; [discriminate |].
  apply x9_create_inbox_size_test in Hsz.
  destruct (alloc_inbox heap), (alloc_name heap), (alloc_msgs heap);
    simpl; try discriminate.
  intros [= <-]. split; [exact Hsz | reflexivity].
Qed.

Lemma x9_create_inbox_wf heap C nm M inbox :
  is_uint64 C ->
  x9_create_inbox heap C nm M = Some inbox -> x9_inbox_wf inbox.
Proof.
  intros HC Hmk. apply x9_create_inbox_inv in Hmk as [[Hpos _] ->].
  unfold x9_inbox_wf, is_uint64 in *. simpl.
  rewrite length_replicate. lia.
Qed.

(** C1: the index computed by [x9_load_idx] and [x9_increment_idx] is not
    the remainder for every counter.  For capacity 6 and the counter 2^63
    both functions return 3 while the remainder is 2; for capacity 100000
    the index of the counter 381257111311789 is 11790 while the remainder
    is 11789. *)
Theorem x9_load_idx_not_remainder :
  exists inbox,
    x9_create_inbox heap_ok 6 "ibx" 8 = Some inbox /\
    result (x9_load_idx false (set_write_idx (2 ^ 63) inbox)) = 3 /\
    result (x9_load_idx true (set_read_idx (2 ^ 63) inbox)) = 3 /\
    result (x9_increment_idx false (set_write_idx (2 ^ 63) inbox)) = 3 /\
    result (x9_increment_idx true (set_read_idx (2 ^ 63) inbox)) = 3 /\
    2 ^ 63 mod 6 = 2 /\
    x9_idx_of (x9_constant 100000) 100000 381257111311789 = 11790 /\
    381257111311789 mod 100000 = 11789.
Proof.
  eexists. split; [reflexivity |]. vm_compute. repeat split; reflexivity.
Qed.

(** C3, counterexample: for capacity 2 the stored constant is 2^63, not
    2^64 / 2 + 1. *)
Lemma x9_create_inbox_constant_pow2 :
  exists inbox,
    x9_create_inbox heap_ok 2 "ibx" 8 = Some inbox /\
    constant inbox = 2 ^ 63 /\
    constant inbox <> 2 ^ 64 / 2 + 1.
Proof.
  eexists. split; [reflexivity |]. vm_compute. split; [reflexivity | discriminate].
Qed.

(** C3, amended: the stored constant of a created inbox of capacity [C] is
    (2^64 - 1) / C + 1, which is 2^64 / C + 1 when [C] does not divide 2^64
    and 2^64 / C when it does (the powers of two). *)
Theorem x9_create_inbox_constant heap C nm M inbox :
  is_uint64 C ->
  x9_create_inbox heap C nm M = Some inbox ->
  constant inbox = (2 ^ 64 - 1) / C + 1 /\
  constant inbox = if 2 ^ 64 mod C =? 0 then 2 ^ 64 / C else 2 ^ 64 / C + 1.
Proof.
  intros HC Hmk. apply x9_create_inbox_inv in Hmk as [[Hpos Heven] ->].
  unfold is_uint64 in HC. simpl.
  assert (2 <= C) as H2.
  { destruct (Z.eq_dec C 1) as [-> | ]; [discriminate Heven | lia]. }
  rewrite x9_constant_no_wrap by lia.
  split; [reflexivity |].
  rewrite uint64_max_div by lia.
  destruct (2 ^ 64 mod C =? 0); lia.
Qed.

Lemma x9_create_inbox_constant_witness :
  exists inbox,
    is_uint64 6 /\
    x9_create_inbox heap_ok 6 "ibx" 8 = Some inbox /\
    constant inbox = (2 ^ 64 - 1) / 6 + 1 /\
    constant inbox = if 2 ^ 64 mod 6 =? 0 then 2 ^ 64 / 6 else 2 ^ 64 / 6 + 1.
Proof.
  eexists. split; [unfold is_uint64; lia |]. split; [reflexivity |].
  apply (x9_create_inbox_constant heap_ok 6 "ibx" 8);
    [unfold is_uint64; lia | reflexivity].
Defined.

(** C8, counterexample: an empty name does not make the creation fail. *)
Lemma x9_create_inbox_empty_name :
  x9_inbox_is_valid (x9_create_inbox heap_ok 2 "" 8) = true.
Proof. reflexivity. Qed.

(** C8, amended: [x9_create_inbox] returns [NULL] exactly when the capacity
    is zero or odd or one of its allocations fails; the name plays no
    part. *)
Theorem x9_create_inbox_null heap C nm M :
  is_uint64 C ->
  x9_inbox_is_valid (x9_create_inbox heap C nm M) = false <->
  C = 0 \/ C mod 2 = 1 \/
  alloc_inbox heap = false \/ alloc_name heap = false \/ alloc_msgs heap = false.
Proof.
  intros HC. unfold is_uint64 in HC. unfold x9_create_inbox.
  pose proof (Z.mod_pos_bound C 2 ltac:(lia)) as Hm.
  destruct (negb ((0 <? C) && negb (negb (C mod 2 =? 0)))) eqn:Hsz.
  - split; [intros _ | reflexivity].
    destruct (Z.eq_dec C 0) as [-> | Hnz]; [now left | right; left].
    destruct (Z.eq_dec (C mod 2) 0) as [Hev | Hodd]; [| lia].
    assert (negb ((0 <? C) && negb (negb (C mod 2 =? 0))) = false) as Hok
      by (apply x9_create_inbox_size_test; lia).
    congruence.
  - apply x9_create_inbox_size_test in Hsz as [Hpos Hev].
    destruct (alloc_inbox heap), (alloc_name heap), (alloc_msgs heap); simpl;
      split; try reflexivity; try discriminate;
      try (intros _; tauto); intros [? | [? | [? | [? | ?]]]]; lia || discriminate.
Qed.

Lemma x9_create_inbox_null_witness :
  is_uint64 7 /\
  (x9_inbox_is_valid (x9_create_inbox heap_ok 7 "ibx" 8) = false <->
   7 = 0 \/ 7 mod 2 = 1 \/
   alloc_inbox heap_ok = false \/ alloc_name heap_ok = false \/
   alloc_msgs heap_ok = false).
Proof.
  split; [unfold is_uint64; lia |].
  apply (x9_create_inbox_null heap_ok 7 "ibx" 8). unfold is_uint64; lia.
Defined.

(** ** Nodes *)

Section Node.

Implicit Types (inbox : x9_inbox_ref) (l done argp : list x9_inbox_ref).

(** The inner loop compares [inbox] with the cells [j .. k-1] and, unless
    one is equal, leaves [inbox] in cell [k]. *)
Lemma x9_create_node_scan_spec inbox k todo : forall j l,
  (j + todo = k)%nat -> (k < length l)%nat ->
  x9_create_node_scan inbox k j todo l =
    if decide (inbox ∈ take todo (drop j l)) then None
    else Some (match todo with O => l | S _ => <[k := inbox]> l end).
Proof.
  induction todo as [| t IH]; intros j l Hjk Hk.
  - simpl. destruct (decide (inbox ∈ [])) as [Hin | _]; [| reflexivity].
    inversion Hin.
  - cbn [x9_create_node_scan].
    destruct (lookup_lt_is_Some_2 l j ltac:(lia)) as [x Hx].
    rewrite Hx. cbn [default from_option id].
    rewrite (drop_S _ _ _ Hx). cbn [take].
    destruct (decide (inbox = x)) as [-> | Hne].
    + rewrite decide_True by (apply elem_of_cons; now left). reflexivity.
    + rewrite IH by (rewrite ?length_insert; lia).
      rewrite drop_insert_ge by lia. rewrite take_insert_ge by lia.
      rewrite list_insert_insert_eq.
      destruct (decide (inbox ∈ take t (drop (S j) l))) as [Hin | Hnin].
      * rewrite decide_True by (apply elem_of_cons; now right). reflexivity.
      * rewrite decide_False
          by (rewrite elem_of_cons; intros [? | ?]; contradiction).
        destruct t; reflexivity.
Qed.

(** The outer loop appends the arguments to the references attached so
    far, and gives up at the first argument that is already attached. *)
Lemma x9_create_node_attach_spec : forall todo k argp done,
  length done = k -> length argp = todo -> NoDup done ->
  x9_create_node_attach k todo argp (done ++ replicate todo None) =
    Returned (if decide (NoDup (done ++ argp)) then Some (done ++ argp) else None).
Proof.
  induction todo as [| t IH]; intros k argp done Hk Hargp Hnd.
  - destruct argp; [| discriminate]. simpl. rewrite !app_nil_r.
    rewrite decide_True by exact Hnd. reflexivity.
  - destruct argp as [| x argp']; [discriminate |].
    injection Hargp as Hargp. cbn [x9_create_node_attach].
    assert (<[k := x]> (done ++ replicate (S t) None)
            = (done ++ [x]) ++ replicate t None) as Hins.
    { rewrite <- Hk. replace (length done) with (length done + 0)%nat at 1 by lia.
      rewrite insert_app_r. simpl. rewrite <- app_assoc. reflexivity. }
    assert (Returned (if decide (NoDup ((done ++ [x]) ++ argp'))
                      then Some ((done ++ [x]) ++ argp') else None)
            = Returned (if decide (NoDup (done ++ x :: argp'))
                        then Some (done ++ x :: argp') else None)) as Hcons
      by (rewrite <- app_assoc; reflexivity).
    destruct k as [| k'].
    + destruct done; [| discriminate]. rewrite Hins.
      rewrite IH; [exact Hcons | reflexivity | exact Hargp |].
      apply NoDup_singleton.
    + rewrite x9_create_node_scan_spec
        by (rewrite ?length_app, ?length_replicate; lia).
      rewrite drop_0, take_app_length' by (symmetry; exact Hk).
      destruct (decide (x ∈ done)) as [Hin | Hnin].
      * rewrite decide_False; [reflexivity |].
        rewrite NoDup_app. intros (_ & Hdisj & _).
        apply (Hdisj x Hin). apply elem_of_cons. now left.
      * rewrite Hins.
        rewrite IH; [exact Hcons | rewrite length_app; simpl; lia | exact Hargp |].
        apply NoDup_app. split; [exact Hnd |]. split; [| apply NoDup_singleton].
        intros y Hy Hy'. apply list_elem_of_singleton in Hy'. congruence.
Qed.

(** C9, counterexample: a [NULL] reference is attached like any other; the
    node is valid and holds it. *)
Lemma x9_create_node_null_ref :
  x9_create_node node_heap_ok "node" 2 [Some 1%nat; None] =
    Returned (Some {| inboxes := [Some 1%nat; None]; n_inboxes := 2;
                      node_name := "node" |}) /\
  x9_node_is_valid (Some {| inboxes := [Some 1%nat; None]; n_inboxes := 2;
                            node_name := "node" |}) = true.
Proof. split; reflexivity. Qed.

(** C9, amended: called with [n] references, [x9_create_node] returns
    [NULL] whenever [n] is zero, whenever two of the references are equal,
    and whenever an allocation fails; otherwise it returns a valid node
    holding the [n] references in argument order.  A [NULL] reference is
    not rejected unless it occurs twice. *)
Theorem x9_create_node_spec heap nm n args :
  is_uint64 n -> length args = Z.to_nat n ->
  (n = 0 -> x9_create_node heap nm n args = Returned None) /\
  (~ NoDup args -> x9_create_node heap nm n args = Returned None) /\
  (alloc_node heap = false \/ alloc_node_name heap = false \/
   alloc_node_inboxes heap = false ->
   x9_create_node heap nm n args = Returned None) /\
  (0 < n -> NoDup args ->
   alloc_node heap = true -> alloc_node_name heap = true ->
   alloc_node_inboxes heap = true ->
   x9_create_node heap nm n args =
     Returned (Some {| inboxes := args; n_inboxes := n; node_name := nm |}) /\
   x9_node_is_valid (Some {| inboxes := args; n_inboxes := n; node_name := nm |})
     = true).
Proof.
  intros Hn Hlen. unfold is_uint64 in Hn. unfold x9_create_node.
  pose proof (x9_create_node_attach_spec (Z.to_nat n) 0 args []
                eq_refl Hlen (NoDup_nil_2 (A:=option nat))) as Hattach.
  simpl in Hattach. rewrite Hattach. clear Hattach.
  destruct (Z.ltb_spec 0 n) as [Hpos | Hzero]; simpl.
  - split; [lia |]. split; [| split].
    + intros Hdup. rewrite decide_False by exact Hdup.
      destruct (alloc_node heap), (alloc_node_name heap),
        (alloc_node_inboxes heap); reflexivity.
    + destruct (alloc_node heap), (alloc_node_name heap),
        (alloc_node_inboxes heap); simpl; try reflexivity.
      intros [? | [? | ?]]; discriminate.
    + intros _ Hnd -> -> ->. simpl. rewrite decide_True by exact Hnd.
      split; reflexivity.
  - repeat split; try reflexivity; lia.
Qed.

Lemma x9_create_node_spec_witness :
  is_uint64 2 /\ length [Some 1%nat; Some 2%nat] = Z.to_nat 2 /\
  0 < 2 /\ NoDup [Some 1%nat; Some 2%nat] /\
  x9_create_node node_heap_ok "node" 2 [Some 1%nat; Some 2%nat] =
    Returned (Some {| inboxes := [Some 1%nat; Some 2%nat]; n_inboxes := 2;
                      node_name := "node" |}).
Proof.
  assert (is_uint64 2) as Hn by (unfold is_uint64; lia).
  assert (NoDup [Some 1%nat; Some 2%nat]) as Hnd
    by (apply (bool_decide_unpack _); vm_compute; exact I).
  split; [exact Hn |]. split; [reflexivity |]. split; [lia |]. split; [exact Hnd |].
  apply (x9_create_node_spec node_heap_ok "node" 2 [Some 1%nat; Some 2%nat] Hn eq_refl);
    [lia | exact Hnd | reflexivity | reflexivity | reflexivity].
Defined.

End Node.

(** ** What one call does *)

#[local] Arguments wrap64 : simpl never.
#[local] Arguments x9_idx_of : simpl never.
#[local] Arguments slot_of : simpl never.
#[local] Arguments memcpy : simpl never.

(** Reduces the projections of the records and of pairs, nothing else. *)
Ltac x9_proj :=
  cbn [read_idx write_idx sz msg_sz constant msgs name
       header payload slot_has_data msg_written shared
       fst snd result final history].

Lemma result_bind {A B} (m : act A) (f : A -> act B) s :
  result (bind m f s) = result (f (result (m s)) (final (m s))).
Proof.
  unfold bind. destruct (m s) as [[a s1] h1].
  unfold result, final. simpl. destruct (f a s1) as [[b s2] h2]. reflexivity.
Qed.

Lemma final_bind {A B} (m : act A) (f : A -> act B) s :
  final (bind m f s) = final (f (result (m s)) (final (m s))).
Proof.
  unfold bind. destruct (m s) as [[a s1] h1].
  unfold result, final. simpl. destruct (f a s1) as [[b s2] h2]. reflexivity.
Qed.

Lemma result_ret {A} (a : A) s : result (ret a s) = a.
Proof. reflexivity. Qed.

Lemma final_ret {A} (a : A) s : final (ret a s) = s.
Proof. reflexivity. Qed.

Create Rewrite HintDb x9_run.
#[local] Hint Rewrite @result_bind @final_bind @result_ret @final_ret : x9_run.

Lemma x9_load_idx_run b s :
  x9_load_idx b s =
    (x9_idx_of (constant s) (sz s) (if b then read_idx s else write_idx s), s, []).
Proof. destruct b; reflexivity. Qed.

Lemma update_slot_twice f g p s :
  update_slot f p (update_slot g p s) = update_slot (f ∘ g) p s.
Proof.
  unfold update_slot. simpl. f_equal. apply list_alter_alter_eq.
Qed.

(** A write tests the cell of the ticket [write_idx]; when the cell is
    free it fills it and advances the counter, and otherwise it changes
    nothing. *)
Lemma x9_write_to_inbox_run msg_sz msg s :
  let p := slot_of s (write_idx s) in
  let r := x9_write_to_inbox msg_sz msg s in
  result r = negb (slot_has_data (header (slot_at s p))) /\
  final r =
    (if slot_has_data (header (slot_at s p)) then s
     else set_write_idx (wrap64 (write_idx s + 1))
            (update_slot (written_slot msg_sz msg) p s)) /\
  (result r = false -> history r = []).
Proof.
  cbv zeta. unfold x9_write_to_inbox, bind, x9_header_ptr, ret.
  rewrite x9_load_idx_run. fold (slot_of s (write_idx s)).
  unfold atomic_compare_exchange_strong. simpl get_flag.
  destruct (slot_has_data (header (slot_at s (slot_of s (write_idx s))))); simpl.
  - repeat split; reflexivity.
  - split; [reflexivity |]. split; [| discriminate].
    unfold set_write_idx, update_slot. x9_proj. f_equal.
    rewrite !list_alter_alter_eq. reflexivity.
Qed.

Lemma slot_at_lookup s p c : msgs s !! p = Some c -> slot_at s p = c.
Proof. unfold slot_at. intros ->. reflexivity. Qed.

Lemma update_slot_ext f g p s :
  (forall c, msgs s !! p = Some c -> f c = g c) ->
  update_slot f p s = update_slot g p s.
Proof.
  intros Hfg. unfold update_slot. f_equal.
  apply list_alter_ext; [exact Hfg | reflexivity].
Qed.

Lemma update_slot_id f p s :
  (forall c, msgs s !! p = Some c -> f c = c) -> update_slot f p s = s.
Proof.
  intros Hf. rewrite (update_slot_ext f id) by exact Hf.
  unfold update_slot. rewrite list_alter_id by reflexivity.
  destruct s; reflexivity.
Qed.

Lemma set_read_idx_update_slot v f p s :
  update_slot f p (set_read_idx v s) = set_read_idx v (update_slot f p s).
Proof. reflexivity. Qed.

(** A read tests the cell of the ticket [read_idx]; when the cell is
    occupied and ready it copies the payload out, clears both flags and
    advances the counter, and otherwise it changes nothing. *)
Lemma x9_read_from_inbox_run n out s :
  let p := slot_of s (read_idx s) in
  let h := header (slot_at s p) in
  let r := x9_read_from_inbox n out s in
  result r =
    (if slot_has_data h && msg_written h
     then (true, memcpy out (payload (slot_at s p)) n) else (false, out)) /\
  final r =
    (if slot_has_data h && msg_written h
     then set_read_idx (wrap64 (read_idx s + 1)) (update_slot drained_slot p s)
     else s).
Proof.
  cbv zeta. unfold x9_read_from_inbox, bind, x9_header_ptr, ret.
  rewrite x9_load_idx_run. fold (slot_of s (read_idx s)).
  unfold atomic_load_flag. cbn [get_flag].
  destruct (slot_has_data (header (slot_at s (slot_of s (read_idx s)))));
    [| split; reflexivity].
  destruct (msg_written (header (slot_at s (slot_of s (read_idx s)))));
    [| split; reflexivity].
  split; [reflexivity |].
  unfold memcpy_from_slot, atomic_store_flag, atomic_fetch_add_read_idx.
  x9_proj. rewrite update_slot_twice. reflexivity.
Qed.

(** The shared read does the same under the [shared] flag of the cell:
    it gives up when the flag is set, and clears it again before it
    returns otherwise. *)
Lemma x9_read_from_shared_inbox_run n out s :
  let p := slot_of s (read_idx s) in
  let h := header (slot_at s p) in
  let r := x9_read_from_shared_inbox n out s in
  result r =
    (if negb (shared h) && (slot_has_data h && msg_written h)
     then (true, memcpy out (payload (slot_at s p)) n) else (false, out)) /\
  final r =
    (if negb (shared h) && (slot_has_data h && msg_written h)
     then set_read_idx (wrap64 (read_idx s + 1)) (update_slot drained_slot p s)
     else s).
Proof.
  cbv zeta. unfold x9_read_from_shared_inbox, bind, x9_header_ptr, ret.
  rewrite x9_load_idx_run. fold (slot_of s (read_idx s)).
  set (p := slot_of s (read_idx s)).
  unfold atomic_compare_exchange_strong. simpl get_flag.
  destruct (shared (header (slot_at s p))) eqn:Hsh; [split; reflexivity |].
  cbn [Bool.eqb negb andb].
  assert (forall c, msgs s !! p = Some c -> shared (header c) = false) as Hc.
  { intros c Hl. rewrite (slot_at_lookup _ _ _ Hl) in Hsh. exact Hsh. }
  assert (forall f, (forall c, shared (header c) = false ->
                       f (set_slot_flag Shared true c) = c) ->
            update_slot f p (update_slot (set_slot_flag Shared true) p s) = s)
    as Hback.
  { intros f Hf. rewrite update_slot_twice. apply update_slot_id.
    intros c Hl. apply Hf, Hc, Hl. }
  assert (forall c, shared (header c) = false ->
            set_slot_flag Shared false (set_slot_flag Shared true c) = c) as Hunlock.
  { intros [[] ?] Hs. simpl in Hs. subst. reflexivity. }
  unfold atomic_load_flag. cbn [get_flag].
  destruct (msgs s !! p) as [c |] eqn:Hl.
  - assert (slot_at (update_slot (set_slot_flag Shared true) p s) p
            = set_slot_flag Shared true (slot_at s p)) as Hat.
    { unfold slot_at, update_slot. x9_proj. rewrite list_lookup_alter_eq, Hl.
      reflexivity. }
    rewrite Hat.
    cbn [get_flag set_slot_flag set_flag header slot_has_data msg_written].
    destruct (slot_has_data (header (slot_at s p))).
    2:{ split; [reflexivity |]. unfold atomic_store_flag. x9_proj.
        apply Hback, Hunlock. }
    cbv beta iota zeta. rewrite Hat.
    cbn [get_flag set_slot_flag set_flag header slot_has_data msg_written].
    destruct (msg_written (header (slot_at s p))).
    2:{ split; [reflexivity |]. unfold atomic_store_flag. x9_proj.
        apply Hback, Hunlock. }
    split.
    + unfold memcpy_from_slot. x9_proj. rewrite Hat. reflexivity.
    + unfold memcpy_from_slot, atomic_store_flag, atomic_fetch_add_read_idx.
      x9_proj. rewrite !update_slot_twice, !set_read_idx_update_slot.
      rewrite !update_slot_twice. f_equal.
      apply update_slot_ext. intros [[] ?] Hl'. rewrite Hl in Hl'.
      apply Hc in Hl'. simpl in Hl'. subst. reflexivity.
  - assert (slot_at (update_slot (set_slot_flag Shared true) p s) p
            = zero_slot 0) as Hat.
    { unfold slot_at, update_slot. x9_proj. rewrite list_lookup_alter_eq, Hl.
      reflexivity. }
    assert (slot_at s p = zero_slot 0) as Hat0 by (unfold slot_at; rewrite Hl; reflexivity).
    rewrite Hat, Hat0. cbn [zero_slot zero_header header slot_has_data andb].
    split; [reflexivity |]. unfold atomic_store_flag. x9_proj.
    apply Hback, Hunlock.
Qed.

(** C6: a write whose compare-and-swap fails returns [false] and has no
    effect: the inbox is the same (counters, flags and payloads), nothing
    was published, and the next call computes the same index and fails in
    the same way as long as nobody frees the cell. *)
Theorem x9_write_to_inbox_failure n msg s :
  result (x9_write_to_inbox n msg s) = false ->
  final (x9_write_to_inbox n msg s) = s /\
  history (x9_write_to_inbox n msg s) = [] /\
  x9_load_idx false (final (x9_write_to_inbox n msg s)) = x9_load_idx false s /\
  forall n' msg',
    result (x9_write_to_inbox n' msg' (final (x9_write_to_inbox n msg s))) = false.
Proof.
  intros Hfail.
  destruct (x9_write_to_inbox_run n msg s) as (Hres & Hfin & Hhist).
  rewrite Hres in Hfail. apply Bool.negb_false_iff in Hfail.
  rewrite Hfail in Hfin. rewrite Hfin.
  split; [reflexivity |]. split; [apply Hhist; rewrite Hres, Hfail; reflexivity |].
  split; [reflexivity |].
  intros n' msg'. destruct (x9_write_to_inbox_run n' msg' s) as (Hres' & _).
  rewrite Hres', Hfail. reflexivity.
Qed.

Lemma x9_write_to_inbox_failure_witness :
  exists inbox,
    x9_create_inbox heap_ok 2 "ibx" 1 = Some inbox /\
    let s := final (producer 1 [[x01]; [x02]] inbox) in
    result (x9_write_to_inbox 1 [x03] s) = false /\
    final (x9_write_to_inbox 1 [x03] s) = s.
Proof.
  eexists. split; [reflexivity |]. cbv zeta.
  split; [vm_compute; reflexivity |].
  apply (x9_write_to_inbox_failure 1 [x03]). vm_compute. reflexivity.
Defined.

(** C10: a non-blocking read that returns [false] leaves the caller's
    buffer as it was, for the plain and for the shared variant. *)
Theorem x9_read_failure_keeps_outparam n out s r :
  r = x9_read_from_inbox n out s \/ r = x9_read_from_shared_inbox n out s ->
  (result r).1 = false -> (result r).2 = out.
Proof.
  intros [-> | ->] Hfail.
  - destruct (x9_read_from_inbox_run n out s) as (Hres & _).
    rewrite Hres in *. clear Hres.
    destruct (slot_has_data _ && msg_written _); [discriminate | reflexivity].
  - destruct (x9_read_from_shared_inbox_run n out s) as (Hres & _).
    rewrite Hres in *. clear Hres.
    destruct (negb _ && _); [discriminate | reflexivity].
Qed.

Lemma x9_read_failure_keeps_outparam_witness :
  exists inbox,
    x9_create_inbox heap_ok 2 "ibx" 1 = Some inbox /\
    (result (x9_read_from_shared_inbox 1 [x07] inbox)).1 = false /\
    (result (x9_read_from_shared_inbox 1 [x07] inbox)).2 = [x07].
Proof.
  eexists. split; [reflexivity |]. split; [vm_compute; reflexivity |].
  apply (x9_read_failure_keeps_outparam 1 [x07] _ _ (or_intror eq_refl)).
  vm_compute. reflexivity.
Defined.

(** ** The shared read and its lock *)

Lemma x9_read_from_shared_inbox_history n out s :
  let p := slot_of s (read_idx s) in
  let h := header (slot_at s p) in
  history (x9_read_from_shared_inbox n out s) =
    if shared h then []
    else if slot_has_data h && msg_written h then shared_read_steps p s
         else shared_read_backoff p s.
Proof.
  cbv zeta. unfold x9_read_from_shared_inbox, bind, x9_header_ptr, ret.
  rewrite x9_load_idx_run. fold (slot_of s (read_idx s)).
  set (p := slot_of s (read_idx s)).
  unfold atomic_compare_exchange_strong. simpl get_flag.
  destruct (shared (header (slot_at s p))) eqn:Hsh; [reflexivity |].
  cbn [Bool.eqb]. unfold atomic_load_flag. cbn [get_flag].
  assert (header (slot_at (update_slot (set_slot_flag Shared true) p s) p)
          = set_flag Shared true (header (slot_at s p))
          \/ slot_has_data (header (slot_at s p)) = false /\
             slot_has_data
               (header (slot_at (update_slot (set_slot_flag Shared true) p s) p))
             = false) as [Hat | [Hat0 Hat]].
  { unfold slot_at, update_slot. x9_proj. rewrite list_lookup_alter_eq.
    destruct (msgs s !! p); [left | right; split]; reflexivity. }
  - rewrite Hat. cbn [set_flag slot_has_data msg_written].
    destruct (slot_has_data (header (slot_at s p))); [| reflexivity].
    cbv beta iota zeta. rewrite Hat. cbn [set_flag slot_has_data msg_written].
    destruct (msg_written (header (slot_at s p))); reflexivity.
  - rewrite Hat, Hat0. reflexivity.
Qed.

(** C7, counterexample: a consumer that loses the compare-and-swap on
    [shared] returns [false] while the flag is still set.  The state is the
    one published by another consumer that has just locked the cell. *)
Lemma x9_read_from_shared_inbox_lock_held :
  exists inbox s1,
    x9_create_inbox heap_ok 2 "ibx" 1 = Some inbox /\
    history (x9_read_from_shared_inbox 1 [x00]
               (final (x9_write_to_inbox 1 [x01] inbox))) !! 0%nat = Some s1 /\
    (result (x9_read_from_shared_inbox 1 [x00] s1)).1 = false /\
    shared (header (slot_at (final (x9_read_from_shared_inbox 1 [x00] s1))
                      (slot_of s1 (read_idx s1)))) = true.
Proof.
  eexists. eexists. split; [reflexivity |]. split; [vm_compute; reflexivity |].
  split; vm_compute; reflexivity.
Qed.

(** C7, amended: the shared read advances [read_idx] only between taking
    and releasing the [shared] flag of the cell, and only when it returns
    [true]; when it returns [false] the inbox is exactly as at entry, so
    [read_idx], [slot_has_data] and [msg_written] are unchanged and [shared]
    has its value at entry: clear when this call took the flag and found the
    cell not ready, still set when the compare-and-swap failed. *)
Theorem x9_read_from_shared_inbox_locked n out s :
  x9_inbox_wf s ->
  let p := slot_of s (read_idx s) in
  let r := x9_read_from_shared_inbox n out s in
  (forall i a b,
     (s :: history r) !! i = Some a -> (s :: history r) !! S i = Some b ->
     read_idx b <> read_idx a ->
     shared (header (slot_at s p)) = false /\
     shared (header (slot_at a p)) = true /\
     (result r).1 = true) /\
  ((result r).1 = false ->
   final r = s /\
   shared (header (slot_at (final r) p)) = shared (header (slot_at s p))).
Proof.
  intros [Hsz Hlen]. cbv zeta.
  destruct (x9_read_from_shared_inbox_run n out s) as (Hres & Hfin).
  pose proof (x9_read_from_shared_inbox_history n out s) as Hhist.
  cbv zeta in Hhist. rewrite Hres, Hfin, Hhist. clear Hres Hfin Hhist.
  set (p := slot_of s (read_idx s)).
  assert (p < length (msgs s))%nat as Hp.
  { unfold p, slot_of. pose proof (x9_idx_of_bound (sz s) Hsz (constant s) (read_idx s)).
    lia. }
  destruct (lookup_lt_is_Some_2 _ _ Hp) as [c Hc].
  split.
  - intros i a b Ha Hb Hne.
    destruct (shared (header (slot_at s p))) eqn:Hsh.
    { destruct i; [discriminate Hb |]. destruct i; discriminate Ha. }
    destruct (slot_has_data _ && msg_written _).
    + split; [reflexivity |]. split; [| reflexivity].
      destruct i as [| [| i]].
      * injection Ha as <-. injection Hb as <-. contradiction Hne. reflexivity.
      * injection Ha as <-. unfold slot_at, update_slot. x9_proj.
        rewrite list_lookup_alter_eq, Hc. reflexivity.
      * exfalso. apply Hne.
        destruct i as [| [| [| i]]]; try discriminate Hb;
          injection Ha as <-; injection Hb as <-; reflexivity.
    + exfalso. apply Hne.
      destruct i as [| [| i]]; try discriminate Hb;
        injection Ha as <-; injection Hb as <-; reflexivity.
  - destruct (negb _ && _); [discriminate |]. intros _. split; reflexivity.
Qed.

Lemma x9_read_from_shared_inbox_locked_witness :
  exists inbox,
    x9_create_inbox heap_ok 2 "ibx" 1 = Some inbox /\
    x9_inbox_wf inbox /\
    (result (x9_read_from_shared_inbox 1 [x00] inbox)).1 = false /\
    final (x9_read_from_shared_inbox 1 [x00] inbox) = inbox.
Proof.
  eexists. split; [reflexivity |].
  assert (x9_inbox_wf
            {| read_idx := 0; write_idx := 0; sz := 2; msg_sz := 1;
               constant := wrap64 (UINT64_MAX / 2 + 1);
               msgs := replicate (Z.to_nat 2) (zero_slot (Z.to_nat 1));
               name := "ibx" |}) as Hwf
    by (split; [simpl; lia | reflexivity]).
  split; [exact Hwf |]. split; [vm_compute; reflexivity |].
  apply (x9_read_from_shared_inbox_locked 1 [x00] _ Hwf). vm_compute. reflexivity.
Defined.

(** On the path that returns [true], the counter moves in the second
    published state, when the cell is locked. *)
Example x9_read_from_shared_inbox_steps :
  exists inbox,
    x9_create_inbox heap_ok 2 "ibx" 1 = Some inbox /\
    let s := final (x9_write_to_inbox 1 [x01] inbox) in
    let r := x9_read_from_shared_inbox 1 [x00] s in
    result r = (true, [x01]) /\
    map read_idx (s :: history r) = [0; 0; 1; 1; 1; 1] /\
    map (fun a => shared (header (slot_at a 0))) (s :: history r)
      = [false; true; true; true; true; false].
Proof.
  eexists. split; [reflexivity |]. vm_compute. repeat split; reflexivity.
Qed.

(** ** The spinning write *)

Lemma wrap64_succ z : wrap64 (wrap64 z + 1) = wrap64 (z + 1).
Proof. unfold wrap64. apply Z.add_mod_idemp_l. lia. Qed.

Lemma x9_idx_of_wrap64 K C c : x9_idx_of K C (wrap64 c) = x9_idx_of K C c.
Proof.
  unfold x9_idx_of, wrap64. cbv zeta. rewrite Z.mul_mod_idemp_r by lia.
  reflexivity.
Qed.

Lemma slot_of_wrap64 s c : slot_of s (wrap64 c) = slot_of s c.
Proof. unfold slot_of. rewrite x9_idx_of_wrap64. reflexivity. Qed.

Lemma x9_increment_idx_run b s :
  x9_increment_idx b s =
    let s' := if b then set_read_idx (wrap64 (read_idx s + 1)) s
              else set_write_idx (wrap64 (write_idx s + 1)) s in
    (x9_idx_of (constant s) (sz s) (if b then read_idx s else write_idx s),
     s', [s']).
Proof. destruct b; reflexivity. Qed.

(** One turn draws the ticket [write_idx] and advances the counter in any
    case; it fills the cell of that ticket when the compare-and-swap
    succeeds, and touches no cell when it fails. *)
Lemma x9_write_to_inbox_spin_turn_run spurious n msg s :
  let p := slot_of s (write_idx s) in
  let r := x9_write_to_inbox_spin_turn spurious n msg s in
  result r = negb spurious && negb (slot_has_data (header (slot_at s p))) /\
  final r =
    set_write_idx (wrap64 (write_idx s + 1))
      (if result r then update_slot (written_slot n msg) p s else s).
Proof.
  cbv zeta. unfold x9_write_to_inbox_spin_turn, bind, x9_header_ptr, ret.
  rewrite x9_increment_idx_run. cbv beta iota zeta.
  change (Z.to_nat (x9_idx_of (constant s) (sz s) (write_idx s)))
    with (slot_of s (write_idx s)).
  set (p := slot_of s (write_idx s)).
  unfold atomic_compare_exchange_weak.
  destruct spurious; [split; reflexivity |].
  unfold atomic_compare_exchange_strong. cbn [get_flag negb andb].
  change (slot_at (set_write_idx (wrap64 (write_idx s + 1)) s) p)
    with (slot_at s p).
  destruct (slot_has_data (header (slot_at s p))); [split; reflexivity |].
  split; [reflexivity |]. cbn [Bool.eqb].
  unfold memcpy_to_slot, atomic_store_flag. x9_proj.
  rewrite !update_slot_twice. reflexivity.
Qed.

Lemma wrap64_add_l a b : wrap64 (wrap64 a + b) = wrap64 (a + b).
Proof. unfold wrap64. apply Z.add_mod_idemp_l. lia. Qed.

Lemma slot_of_wrap64_add s a b : slot_of s (wrap64 a + b) = slot_of s (a + b).
Proof.
  rewrite <- (slot_of_wrap64 s (wrap64 a + b)), wrap64_add_l.
  apply slot_of_wrap64.
Qed.

(** Advancing the write counter does not move or touch any cell. *)
Lemma write_idx_set_write_idx v s : write_idx (set_write_idx v s) = v.
Proof. reflexivity. Qed.

Lemma slot_of_set_write_idx v s c : slot_of (set_write_idx v s) c = slot_of s c.
Proof. reflexivity. Qed.

Lemma slot_at_set_write_idx v s p : slot_at (set_write_idx v s) p = slot_at s p.
Proof. reflexivity. Qed.

Lemma update_slot_set_write_idx f p v s :
  update_slot f p (set_write_idx v s) = set_write_idx v (update_slot f p s).
Proof. reflexivity. Qed.

Lemma set_write_idx_twice v w s :
  set_write_idx v (set_write_idx w s) = set_write_idx v s.
Proof. reflexivity. Qed.

Create Rewrite HintDb x9_counter.
#[local] Hint Rewrite write_idx_set_write_idx slot_of_set_write_idx
  slot_at_set_write_idx update_slot_set_write_idx set_write_idx_twice
  slot_of_wrap64_add wrap64_add_l : x9_counter.

Lemma x9_write_to_inbox_spin_from_run n msg : forall fuel t0 spurious s,
  let r := x9_write_to_inbox_spin_from t0 fuel spurious n msg s in
  match result r with
  | Some k =>
      exists j : nat,
        k = (t0 + j)%nat /\ (j < fuel)%nat /\
        slot_has_data (header (slot_at s (slot_of s (write_idx s + Z.of_nat j))))
          = false /\
        final r =
          set_write_idx (wrap64 (write_idx s + Z.of_nat j + 1))
            (update_slot (written_slot n msg)
               (slot_of s (write_idx s + Z.of_nat j)) s)
  | None =>
      final r = Nat.iter fuel (fun s' => set_write_idx (wrap64 (write_idx s' + 1)) s') s
  end.
Proof.
  induction fuel as [| fuel IH]; intros t0 spurious s; [reflexivity |].
  cbv zeta. cbn [x9_write_to_inbox_spin_from]. unfold bind.
  pose proof (x9_write_to_inbox_spin_turn_run
                (default false (head spurious)) n msg s) as Hturn.
  cbv zeta in Hturn.
  destruct (x9_write_to_inbox_spin_turn (default false (head spurious)) n msg s)
    as [[done s1] h1].
  unfold result, final in Hturn. simpl in Hturn. destruct Hturn as [Hdone Hs1].
  destruct done.
  - unfold ret. x9_proj. exists 0%nat.
    symmetry in Hdone. apply Bool.andb_true_iff in Hdone as [_ Hfree].
    apply Bool.negb_true_iff in Hfree.
    change (Z.of_nat 0) with 0. rewrite !Z.add_0_r.
    repeat split; [lia | lia | exact Hfree | exact Hs1].
  - specialize (IH (S t0) (tail spurious) s1). cbv zeta in IH.
    destruct (x9_write_to_inbox_spin_from (S t0) fuel (tail spurious) n msg s1)
      as [[res s2] h2].
    unfold result, final in *. simpl in IH |- *.
    destruct res as [k |].
    + destruct IH as (j & -> & Hj & Hfree & Hfin). exists (S j).
      subst s1. autorewrite with x9_counter in Hfree, Hfin.
      replace (write_idx s + Z.of_nat (S j)) with (write_idx s + 1 + Z.of_nat j) by lia.
      repeat split; [lia | lia | exact Hfree |].
      rewrite Hfin. rewrite <- !Z.add_assoc. autorewrite with x9_counter.
      rewrite !Z.add_assoc. reflexivity.
    + rewrite IH. subst s1.
      exact (eq_sym (Nat.iter_succ_r fuel
                       (fun s' => set_write_idx (wrap64 (write_idx s' + 1)) s') s)).
Qed.

(** Without spurious failures the call returns as soon as it draws the
    ticket of a free cell: when the cell of the ticket [write_idx + j] is
    free, it returns in turn [j + 1] at the latest. *)
Lemma x9_write_to_inbox_spin_from_returns n msg : forall j fuel t0 s,
  (j < fuel)%nat ->
  slot_has_data (header (slot_at s (slot_of s (write_idx s + Z.of_nat j)))) = false ->
  exists k, (k <= t0 + j)%nat /\
    result (x9_write_to_inbox_spin_from t0 fuel [] n msg s) = Some k.
Proof.
  induction j as [| j IH]; intros fuel t0 s Hfuel Hfree;
    (destruct fuel as [| fuel]; [lia |]);
    cbn [x9_write_to_inbox_spin_from head tail default from_option id];
    rewrite result_bind;
    destruct (x9_write_to_inbox_spin_turn_run false n msg s) as (Hres & Hfin);
    rewrite Hres in Hfin |- *; rewrite Hfin; clear Hres Hfin; cbn [negb andb].
  - change (Z.of_nat 0) with 0 in Hfree. rewrite Z.add_0_r in Hfree.
    rewrite Hfree. exists t0. split; [lia | reflexivity].
  - destruct (slot_has_data (header (slot_at s (slot_of s (write_idx s))))).
    + cbn [negb]. destruct (IH fuel (S t0) (draw_ticket s)) as (k & Hk & Hret).
      * lia.
      * unfold draw_ticket. autorewrite with x9_counter.
        replace (write_idx s + 1 + Z.of_nat j) with (write_idx s + Z.of_nat (S j))
          by lia.
        exact Hfree.
      * exists k. split; [lia | exact Hret].
    + exists t0. split; [lia | reflexivity].
Qed.

(** The loop of [x9_write_to_inbox_spin], turn by turn: every turn draws
    the ticket [write_idx] and advances the counter by one, then tries the
    occupied flag of the slot of that ticket; it succeeds exactly when the
    flag is clear and the weak compare-and-swap does not fail spuriously,
    and a turn that fails changes nothing but the counter.  A call that
    returns in its turn [k] has therefore advanced [write_idx] by [k]; it
    found the slot of its last ticket free and filled that slot only.  A
    call still spinning after [fuel] turns has drawn [fuel] tickets and
    touched no slot. *)
Lemma x9_write_to_inbox_spin_tickets fuel spurious n msg s :
  (forall spur,
     let t := x9_write_to_inbox_spin_turn spur n msg s in
     result t
       = negb spur
         && negb (slot_has_data (header (slot_at s (slot_of s (write_idx s))))) /\
     write_idx (final t) = wrap64 (write_idx s + 1) /\
     (result t = false -> final t = draw_ticket s)) /\
  let r := x9_write_to_inbox_spin fuel spurious n msg s in
  match result r with
  | Some k =>
      (1 <= k <= fuel)%nat /\
      slot_has_data
        (header (slot_at s (slot_of s (write_idx s + Z.of_nat k - 1)))) = false /\
      final r =
        set_write_idx (wrap64 (write_idx s + Z.of_nat k))
          (update_slot (written_slot n msg)
             (slot_of s (write_idx s + Z.of_nat k - 1)) s)
  | None => final r = Nat.iter fuel draw_ticket s
  end.
Proof.
  split.
  - intros spur.
    destruct (x9_write_to_inbox_spin_turn_run spur n msg s) as (Hres & Hfin).
    cbv zeta. split; [exact Hres |]. rewrite Hfin.
    split; [reflexivity |]. intros ->. reflexivity.
  - pose proof (x9_write_to_inbox_spin_from_run n msg fuel 1 spurious s) as Hrun.
    cbv zeta in Hrun |- *. unfold x9_write_to_inbox_spin.
    destruct (result (x9_write_to_inbox_spin_from 1 fuel spurious n msg s))
      as [k |]; [| exact Hrun].
    destruct Hrun as (j & -> & Hj & Hfree & Hfin).
    replace (write_idx s + Z.of_nat (1 + j) - 1) with (write_idx s + Z.of_nat j) by lia.
    replace (write_idx s + Z.of_nat (1 + j)) with (write_idx s + Z.of_nat j + 1) by lia.
    repeat split; [lia | lia | exact Hfree | exact Hfin].
Qed.

(** C2: [x9_write_to_inbox_spin] draws its ticket inside its loop, so that
    a turn whose compare-and-swap fails is followed by a new ticket and
    another slot, where the claim has one ticket for the call and one slot
    to spin on.

    First part, an inbox of capacity 2 that holds [01] and [02].  The first
    turn of the write of [03] fails on slot 0 and moves [write_idx] from 2
    to 3.  The consumer then reads [01] and [02], and the second turn of the
    write stores [03] in slot 1, with [write_idx] at 4, two tickets for one
    message.  The next [x9_read_from_inbox_spin] waits on slot 0, which is
    empty, and is still spinning after 1000 turns.  When [04] is written
    it goes to slot 0; the waiting read returns [04], and [03] is returned
    by the read after it.

    Second part, a fresh inbox of capacity 4 whose first weak
    compare-and-swap fails spuriously: the write of [01] returns in its
    second turn with [write_idx] at 2 and the message in slot 1;
    [x9_read_from_inbox] finds nothing and [x9_read_from_inbox_spin] is
    still spinning on slot 0 after 1000 turns. *)
Theorem x9_write_to_inbox_spin_overtakes :
  (exists inbox,
     x9_create_inbox heap_ok 2 "ibx" 1 = Some inbox /\
     let s := final (producer 1 [[x01]; [x02]] inbox) in
     let t := x9_write_to_inbox_spin_turn false 1 [x03] s in
     let r1 := x9_read_from_inbox_spin 1 1 [x00] (final t) in
     let r2 := x9_read_from_inbox_spin 1 1 [x00] (final r1) in
     let w3 := x9_write_to_inbox_spin_from 2 1 [] 1 [x03] (final r2) in
     let r3 := x9_read_from_inbox_spin 1000 1 [x00] (final w3) in
     let w4 := x9_write_to_inbox_spin 1 [] 1 [x04] (final r3) in
     let r3' := x9_read_from_inbox_spin_loop 1001 1 0 1 [x00] (final w4) in
     let r4 := x9_read_from_inbox_spin 1 1 [x00] (final r3') in
     (write_idx s = 2 /\ slot_of s (write_idx s) = 0%nat) /\
     (result t = false /\ write_idx (final t) = 3 /\
      slot_of (final t) (write_idx (final t)) = 1%nat) /\
     (result r1 = (Some 1%nat, [x01]) /\ result r2 = (Some 1%nat, [x02])) /\
     (result w3 = Some 2%nat /\ write_idx (final w3) = 4 /\
      payload (slot_at (final w3) 1) = [x03] /\
      slot_has_data (header (slot_at (final w3) 0)) = false) /\
     (slot_of (final w3) (read_idx (final w3)) = 0%nat /\
      result r3 = (None, [x00])) /\
     result w4 = Some 1%nat /\
     result r3' = (Some 1001%nat, [x04]) /\
     result r4 = (Some 1%nat, [x03])) /\
  (exists inbox,
     x9_create_inbox heap_ok 4 "ibx" 1 = Some inbox /\
     let w := x9_write_to_inbox_spin 2 [true] 1 [x01] inbox in
     result w = Some 2%nat /\ write_idx (final w) = 2 /\
     slot_has_data (header (slot_at (final w) 0)) = false /\
     payload (slot_at (final w) 1) = [x01] /\
     result (x9_read_from_inbox 1 [x00] (final w)) = (false, [x00]) /\
     result (x9_read_from_inbox_spin 1000 1 [x00] (final w)) = (None, [x00])).
Proof.
  split; (eexists; split; [reflexivity |]); vm_compute;
    repeat split; reflexivity.
Qed.

(** ** Capacity *)

Lemma free_slots_le l : (free_slots l <= length l)%nat.
Proof.
  induction l as [| c l IH]; simpl; [lia |].
  destruct (slot_has_data (header c)); lia.
Qed.

Lemma free_slots_replicate n k : free_slots (replicate n (zero_slot k)) = n.
Proof. induction n as [| n IH]; simpl; [reflexivity | now rewrite IH]. Qed.

Lemma free_slots_none l p c :
  free_slots l = 0%nat -> l !! p = Some c -> slot_has_data (header c) = true.
Proof.
  revert p. induction l as [| d l IH]; intros p Hfree Hl; [discriminate |].
  simpl in Hfree. destruct p as [| p]; simpl in Hl.
  - injection Hl as ->. destruct (slot_has_data (header c)); [reflexivity | lia].
  - apply (IH p); [| exact Hl]. destruct (slot_has_data (header d)); lia.
Qed.

(** Filling a free cell uses up one free cell. *)
Lemma free_slots_fill f l p c :
  l !! p = Some c -> slot_has_data (header c) = false ->
  slot_has_data (header (f c)) = true ->
  S (free_slots (alter f p l)) = free_slots l.
Proof.
  revert p. induction l as [| d l IH]; intros p Hl Hc Hf; [discriminate |].
  destruct p as [| p]; simpl in Hl.
  - injection Hl as ->. simpl. rewrite Hc, Hf. reflexivity.
  - simpl. specialize (IH p Hl Hc Hf).
    change (list_alter f p l) with (alter f p l).
    destruct (slot_has_data (header d)); lia.
Qed.

Lemma slot_of_lt s c : x9_inbox_wf s -> (slot_of s c < length (msgs s))%nat.
Proof.
  intros [Hsz Hlen]. unfold slot_of.
  pose proof (x9_idx_of_bound (sz s) Hsz (constant s) c). lia.
Qed.

(** A write keeps the inbox well formed and takes one free cell exactly
    when it returns [true]. *)
Lemma x9_write_to_inbox_free n msg s :
  x9_inbox_wf s ->
  let r := x9_write_to_inbox n msg s in
  x9_inbox_wf (final r) /\ sz (final r) = sz s /\
  (free_slots (msgs (final r)) + (if result r then 1 else 0))%nat
    = free_slots (msgs s).
Proof.
  intros Hwf. cbv zeta.
  destruct (x9_write_to_inbox_run n msg s) as (Hres & Hfin & _).
  rewrite Hres, Hfin. clear Hres Hfin.
  destruct (lookup_lt_is_Some_2 _ _ (slot_of_lt s (write_idx s) Hwf)) as [c Hc].
  rewrite (slot_at_lookup _ _ _ Hc).
  destruct (slot_has_data (header c)) eqn:Hdata; cbn [negb].
  - split; [exact Hwf |]. split; [reflexivity | lia].
  - destruct Hwf as [Hsz Hlen]. unfold set_write_idx, update_slot, x9_inbox_wf.
    x9_proj. rewrite length_alter.
    split; [split; assumption |]. split; [reflexivity |].
    rewrite Nat.add_1_r. apply (free_slots_fill _ _ _ c); auto.
Qed.

Lemma x9_call_run_free c s :
  x9_inbox_wf s ->
  let r := x9_call_run c s in
  is_write c || negb (result r) = true ->
  x9_inbox_wf (final r) /\ sz (final r) = sz s /\
  (free_slots (msgs (final r)) + (if is_write c && result r then 1 else 0))%nat
    = free_slots (msgs s).
Proof.
  intros Hwf. cbv zeta. destruct c as [n msg | n out | n out];
    cbn [x9_call_run is_write orb andb].
  - intros _. apply x9_write_to_inbox_free, Hwf.
  - autorewrite with x9_run.
    destruct (x9_read_from_inbox_run n out s) as (Hres & Hfin).
    rewrite Hres, Hfin.
    destruct (slot_has_data _ && msg_written _); [discriminate |].
    intros _. split; [exact Hwf |]. split; [reflexivity | lia].
  - autorewrite with x9_run.
    destruct (x9_read_from_shared_inbox_run n out s) as (Hres & Hfin).
    rewrite Hres, Hfin.
    destruct (negb _ && _); [discriminate |].
    intros _. split; [exact Hwf |]. split; [reflexivity | lia].
Qed.

Lemma x9_calls_run_free : forall cs s,
  x9_inbox_wf s ->
  let r := x9_calls_run cs s in
  no_read_succeeded cs (result r) = true ->
  x9_inbox_wf (final r) /\ sz (final r) = sz s /\
  (free_slots (msgs (final r)) + written_count cs (result r))%nat
    = free_slots (msgs s).
Proof.
  induction cs as [| c cs IH]; intros s Hwf; cbv zeta.
  - intros _. split; [exact Hwf |]. split; [reflexivity |].
    cbn [x9_calls_run]. autorewrite with x9_run. cbn [written_count]. lia.
  - cbn [x9_calls_run]. autorewrite with x9_run.
    cbn [no_read_succeeded written_count]. intros Hok.
    apply Bool.andb_true_iff in Hok as [Hc Hcs].
    destruct (x9_call_run_free c s Hwf Hc) as (Hwf1 & Hsz1 & Hfree1).
    destruct (IH _ Hwf1 Hcs) as (Hwf2 & Hsz2 & Hfree2).
    split; [exact Hwf2 |]. split; [congruence | lia].
Qed.

Lemma x9_create_inbox_free heap C nm M inbox :
  x9_create_inbox heap C nm M = Some inbox ->
  free_slots (msgs inbox) = Z.to_nat C /\ sz inbox = C /\ msg_sz inbox = M.
Proof.
  intros Hmk. apply x9_create_inbox_inv in Hmk as [_ ->]. x9_proj.
  rewrite free_slots_replicate. repeat split.
Qed.

(** C5: on an inbox of capacity [C], a sequence of non-blocking calls
    (each passing the message size of the inbox, as the interface asks) in
    which no read returns [true] contains at most [C] writes that return
    [true]; and when the inbox was fresh and [C] writes have returned
    [true], the next write returns [false]. *)
Theorem x9_capacity_bound s cs :
  x9_inbox_wf s ->
  Forall (call_fits (msg_sz s)) cs ->
  no_read_succeeded cs (result (x9_calls_run cs s)) = true ->
  Z.of_nat (written_count cs (result (x9_calls_run cs s))) <= sz s /\
  (forall heap nm,
     x9_create_inbox heap (sz s) nm (msg_sz s) = Some s ->
     Z.of_nat (written_count cs (result (x9_calls_run cs s))) = sz s ->
     forall msg,
       result (x9_write_to_inbox (msg_sz s) msg (final (x9_calls_run cs s)))
         = false).
Proof.
  intros Hwf _ Hok.
  destruct (x9_calls_run_free cs s Hwf Hok) as (Hwf' & Hsz' & Hfree).
  pose proof (free_slots_le (msgs s)) as Hle.
  destruct Hwf as [Hsz Hlen].
  split; [lia |].
  intros heap nm Hmk Hfull msg.
  apply x9_create_inbox_free in Hmk as (Hall & _).
  destruct (x9_write_to_inbox_run (msg_sz s) msg (final (x9_calls_run cs s)))
    as (Hres & _).
  rewrite Hres. apply Bool.negb_false_iff.
  set (s' := final (x9_calls_run cs s)) in *.
  destruct (lookup_lt_is_Some_2 _ _ (slot_of_lt s' (write_idx s') Hwf'))
    as [c Hc].
  rewrite (slot_at_lookup _ _ _ Hc).
  apply (free_slots_none (msgs s') (slot_of s' (write_idx s'))); [lia | exact Hc].
Qed.

Lemma x9_capacity_bound_witness :
  exists inbox,
    x9_create_inbox heap_ok 2 "ibx" 1 = Some inbox /\
    let cs := [Read_from_shared_inbox 1 [x00]; Write_to_inbox 1 [x01];
               Write_to_inbox 1 [x02]; Write_to_inbox 1 [x03]] in
    x9_inbox_wf inbox /\
    Forall (call_fits (msg_sz inbox)) cs /\
    no_read_succeeded cs (result (x9_calls_run cs inbox)) = true /\
    result (x9_calls_run cs inbox) = [false; true; true; false] /\
    Z.of_nat (written_count cs (result (x9_calls_run cs inbox))) <= 2 /\
    result (x9_write_to_inbox 1 [x04] (final (x9_calls_run cs inbox))) = false.
Proof.
  eexists. split; [reflexivity |]. cbv zeta.
  match goal with |- x9_inbox_wf ?s /\ Forall _ ?cs /\ _ =>
    assert (x9_inbox_wf s) as Hwf by (split; [simpl; lia | reflexivity]);
    assert (Forall (call_fits (msg_sz s)) cs) as Hfit by (repeat constructor);
    assert (no_read_succeeded cs (result (x9_calls_run cs s)) = true) as Hok
      by (vm_compute; reflexivity);
    pose proof (x9_capacity_bound s cs Hwf Hfit Hok) as [Hle Hfull]
  end.
  split; [exact Hwf |]. split; [exact Hfit |]. split; [exact Hok |].
  split; [vm_compute; reflexivity |]. split; [exact Hle |].
  apply (Hfull heap_ok "ibx"%string); [reflexivity | vm_compute; reflexivity].
Defined.

(** ** First in, first out *)

Section Queue.

Variable M : Z.

Lemma ticket_set_write_idx v s j : ticket (set_write_idx v s) j = ticket s j.
Proof. reflexivity. Qed.

Lemma ticket_update_slot f p s j : ticket (update_slot f p s) j = ticket s j.
Proof. reflexivity. Qed.

Lemma holds_msg_flag s p msg :
  holds_msg M s p msg -> slot_has_data (header (slot_at s p)) = true.
Proof.
  intros (c & Hc & Hdata & _). rewrite (slot_at_lookup _ _ _ Hc). exact Hdata.
Qed.

Lemma holds_msg_update_ne f p p' s msg :
  p <> p' -> holds_msg M s p' msg -> holds_msg M (update_slot f p s) p' msg.
Proof.
  intros Hne (c & Hc & Hrest). exists c. split; [| exact Hrest].
  unfold update_slot. x9_proj. rewrite list_lookup_alter_ne by exact Hne.
  exact Hc.
Qed.

Lemma memcpy_take (dst src : list byte) :
  length src = Z.to_nat M -> take (Z.to_nat M) (memcpy dst src M) = src.
Proof.
  intros Hlen. unfold memcpy. rewrite <- Hlen.
  rewrite firstn_all, take_app_length. reflexivity.
Qed.

Lemma memcpy_out (out pay : list byte) :
  length out = Z.to_nat M -> memcpy out pay M = take (Z.to_nat M) pay.
Proof.
  intros Hlen. unfold memcpy. rewrite drop_ge by lia. apply app_nil_r.
Qed.

(** The invariant holds in a fresh inbox, with nothing pending. *)
Lemma queue_inv_fresh heap C nm inbox :
  is_uint64 C -> x9_create_inbox heap C nm M = Some inbox ->
  queue_inv M 0 [] inbox.
Proof.
  intros HC Hmk. pose proof (x9_create_inbox_wf _ _ _ _ _ HC Hmk) as Hwf.
  apply x9_create_inbox_inv in Hmk as [_ ->].
  split; [exact Hwf |]. x9_proj. repeat split.
  - intros j msg Hj. discriminate Hj.
  - intros i j Hij. simpl in Hij. lia.
Qed.

(** A write that returns [true] appends its message to the pending ones. *)
Lemma queue_inv_write q pend s msg :
  queue_inv M q pend s -> length msg = Z.to_nat M ->
  result (x9_write_to_inbox M msg s) = true ->
  queue_inv M q (pend ++ [msg]) (final (x9_write_to_inbox M msg s)).
Proof.
  intros (Hwf & Hrd & Hwr & Hheld & Hinj) Hlen Hres.
  destruct (x9_write_to_inbox_run M msg s) as (Hres' & Hfin & _).
  rewrite Hres' in Hres. apply Bool.negb_true_iff in Hres.
  rewrite Hres in Hfin. rewrite Hfin. clear Hres' Hfin.
  assert (slot_of s (write_idx s) = ticket s (q + length pend)) as Hp
    by (unfold ticket; rewrite Hwr; reflexivity).
  rewrite Hp in *. set (p := ticket s (q + length pend)) in *.
  assert (forall j, (j < length pend)%nat -> ticket s (q + j) <> p) as Hfresh.
  { intros j Hj Heq.
    destruct (lookup_lt_is_Some_2 pend j Hj) as [m Hm].
    apply Hheld, holds_msg_flag in Hm. rewrite Heq in Hm. congruence. }
  destruct (lookup_lt_is_Some_2 _ _ (slot_of_lt s (write_idx s) Hwf)) as [c Hc].
  rewrite Hp in Hc. fold p in Hc.
  split; [| split; [| split; [| split]]].
  - destruct Hwf as [Hsz Hl]. split; [exact Hsz |].
    unfold set_write_idx, update_slot. x9_proj. rewrite length_alter. exact Hl.
  - exact Hrd.
  - rewrite write_idx_set_write_idx, Hwr, wrap64_succ, length_app. simpl.
    f_equal. lia.
  - intros j m Hj. rewrite ticket_set_write_idx, ticket_update_slot.
    destruct (Nat.lt_ge_cases j (length pend)) as [Hlt | Hge].
    + rewrite lookup_app_l in Hj by exact Hlt.
      destruct (Hheld j m Hj) as (d & Hd & Hrest). exists d.
      split; [| exact Hrest].
      unfold set_write_idx, update_slot. x9_proj.
      rewrite list_lookup_alter_ne; [exact Hd |].
      intros Heq. apply (Hfresh j Hlt). symmetry. exact Heq.
    + rewrite lookup_app_r in Hj by exact Hge.
      destruct (j - length pend)%nat as [| k] eqn:Hk; [| destruct k; discriminate Hj].
      injection Hj as <-. replace j with (length pend) by lia. fold p.
      exists (written_slot M msg c). split; [| split; [| split]]; try reflexivity.
      * unfold set_write_idx, update_slot. x9_proj.
        rewrite list_lookup_alter_eq, Hc. reflexivity.
      * unfold written_slot. x9_proj. apply memcpy_take, Hlen.
  - intros i j Hij. rewrite !ticket_set_write_idx, !ticket_update_slot.
    rewrite length_app in Hij. simpl in Hij.
    destruct (Nat.lt_ge_cases j (length pend)) as [Hlt | Hge].
    + apply Hinj. lia.
    + replace j with (length pend) by lia. apply Hfresh. lia.
Qed.

(** A read finds the oldest pending message and removes it. *)
Lemma queue_inv_read q msg pend s out :
  queue_inv M q (msg :: pend) s -> length out = Z.to_nat M ->
  result (x9_read_from_inbox M out s) = (true, msg) /\
  queue_inv M (S q) pend (final (x9_read_from_inbox M out s)).
Proof.
  intros (Hwf & Hrd & Hwr & Hheld & Hinj) Hlen.
  destruct (x9_read_from_inbox_run M out s) as (Hres & Hfin).
  rewrite Hres, Hfin. clear Hres Hfin.
  assert (slot_of s (read_idx s) = ticket s (q + 0)) as Hp
    by (unfold ticket; rewrite Hrd, Nat.add_0_r; reflexivity).
  rewrite Hp. set (p := ticket s (q + 0)) in *.
  destruct (Hheld 0%nat msg eq_refl) as (c & Hc & Hdata & Hready & Hpay).
  fold p in Hc. rewrite (slot_at_lookup _ _ _ Hc), Hdata, Hready.
  cbn [andb]. split; [rewrite memcpy_out, Hpay by exact Hlen; reflexivity |].
  split; [| split; [| split; [| split]]].
  - destruct Hwf as [Hsz Hl]. split; [exact Hsz |].
    unfold set_read_idx, update_slot. x9_proj. rewrite length_alter. exact Hl.
  - unfold set_read_idx. x9_proj. rewrite Hrd, wrap64_succ. f_equal. lia.
  - unfold set_read_idx, update_slot. x9_proj. rewrite Hwr. simpl. f_equal. lia.
  - intros j m Hj.
    change (ticket (set_read_idx (wrap64 (read_idx s + 1))
                      (update_slot drained_slot p s)) (S q + j))
      with (ticket s (S q + j)).
    replace (S q + j)%nat with (q + S j)%nat by lia.
    destruct (Hheld (S j) m Hj) as (d & Hd & Hrest). exists d.
    split; [| exact Hrest].
    unfold set_read_idx, update_slot. x9_proj.
    rewrite list_lookup_alter_ne; [exact Hd |].
    apply Hinj. simpl. apply lookup_lt_Some in Hj. lia.
  - intros i j Hij.
    change (ticket (set_read_idx (wrap64 (read_idx s + 1))
                      (update_slot drained_slot p s)))
      with (ticket s).
    replace (S q + i)%nat with (q + S i)%nat by lia.
    replace (S q + j)%nat with (q + S j)%nat by lia.
    apply Hinj. simpl. lia.
Qed.

End Queue.

(** A batch written without a failure is pending, in order, after the
    messages that were pending before. *)
Lemma producer_queue_inv M q : forall batch pend s,
  queue_inv M q pend s ->
  Forall (fun msg => length msg = Z.to_nat M) batch ->
  result (producer M batch s) = replicate (length batch) true ->
  queue_inv M q (pend ++ batch) (final (producer M batch s)).
Proof.
  induction batch as [| msg batch IH]; intros pend s Hinv Hfit Hres.
  - rewrite app_nil_r. exact Hinv.
  - cbn [producer] in *. autorewrite with x9_run in *.
    apply Forall_cons in Hfit as [Hmsg Hfit].
    cbn [length replicate] in Hres. injection Hres as Hw Hres.
    replace (pend ++ msg :: batch) with ((pend ++ [msg]) ++ batch)
      by (rewrite <- app_assoc; reflexivity).
    apply IH; [| exact Hfit | exact Hres].
    apply queue_inv_write; assumption.
Qed.

(** Reading as many times as there are pending messages returns them all,
    oldest first. *)
Lemma consumer_queue_inv M : forall pend q s out,
  queue_inv M q pend s ->
  Forall (fun msg => length msg = Z.to_nat M) pend ->
  length out = Z.to_nat M ->
  result (consumer M (length pend) out s) = map (fun msg => (true, msg)) pend.
Proof.
  induction pend as [| msg pend IH]; intros q s out Hinv Hfit Hout.
  - reflexivity.
  - cbn [length consumer map]. autorewrite with x9_run.
    apply Forall_cons in Hfit as [Hmsg Hfit].
    destruct (queue_inv_read M q msg pend s out Hinv Hout) as (Hres & Hinv').
    rewrite Hres. f_equal.
    apply (IH (S q)); [exact Hinv' | exact Hfit | exact Hmsg].
Qed.

(** C4: when a producer has written a batch of [n] messages of [M] bytes
    into a fresh inbox with [x9_write_to_inbox], every call returning
    [true], a consumer that then calls [x9_read_from_inbox] [n] times gets
    [true] every time and reads the very messages of the batch, byte for
    byte and in the order they were written.  [M] is a size for which the
    stride [M + sizeof (x9_msg_header)] of the slot array does not wrap. *)
Theorem x9_write_read_roundtrip heap C nm M inbox batch out :
  is_uint64 C -> is_uint64 (M + sizeof_x9_msg_header) ->
  x9_create_inbox heap C nm M = Some inbox ->
  Forall (fun msg => length msg = Z.to_nat M) batch ->
  length out = Z.to_nat M ->
  result (producer M batch inbox) = replicate (length batch) true ->
  let rs := result (consumer M (length batch) out
                      (final (producer M batch inbox))) in
  map fst rs = replicate (length batch) true /\ map snd rs = batch.
Proof.
  intros HC _ Hmk Hfit Hout Hwritten. cbv zeta.
  pose proof (queue_inv_fresh M heap C nm inbox HC Hmk) as Hinv.
  pose proof (producer_queue_inv M 0 batch [] inbox Hinv Hfit Hwritten) as Hinv'.
  rewrite (consumer_queue_inv M batch 0 _ out Hinv' Hfit Hout).
  rewrite !map_map. cbn [fst snd]. split.
  - clear. induction batch as [| msg batch IH]; [reflexivity |].
    simpl. f_equal. exact IH.
  - apply map_id.
Qed.

Lemma x9_write_read_roundtrip_witness :
  exists inbox,
    x9_create_inbox heap_ok 4 "ibx" 2 = Some inbox /\
    let batch := [[x01; x02]; [x03; x04]; [x05; x06]] in
    result (producer 2 batch inbox) = [true; true; true] /\
    let rs := result (consumer 2 3 [x00; x00] (final (producer 2 batch inbox))) in
    map fst rs = [true; true; true] /\ map snd rs = batch.
Proof.
  eexists. split; [reflexivity |]. cbv zeta.
  split; [vm_compute; reflexivity |].
  apply (x9_write_read_roundtrip heap_ok 4 "ibx" 2 _
           [[x01; x02]; [x03; x04]; [x05; x06]] [x00; x00]).
  - unfold is_uint64. lia.
  - unfold is_uint64, sizeof_x9_msg_header. lia.
  - reflexivity.
  - repeat constructor.
  - reflexivity.
  - vm_compute. reflexivity.
Defined.

(** ** Filling a fresh inbox

    For the capacities up to 2^32 the first [C] tickets are their own
    remainders, so that a fresh inbox accepts [C] writes in a row: the
    premise of the two theorems above can be met for each of them. *)

Lemma x9_excess_bound C : 0 < C -> 0 <= x9_excess C <= C.
Proof.
  intros HC. unfold x9_excess.
  pose proof (Z.mod_pos_bound (2 ^ 64) C HC).
  destruct (2 ^ 64 mod C =? 0); lia.
Qed.

Lemma x9_idx_of_first_round C k :
  2 <= C <= 2 ^ 32 -> 0 <= k < C ->
  x9_idx_of (x9_constant C) C k = k.
Proof.
  intros HC Hk. pose proof (x9_excess_bound C ltac:(lia)) as He.
  rewrite x9_idx_of_exact; [apply Z.mod_small; lia | lia | lia | lia |].
  assert (x9_excess C * k < 2 ^ 32 * 2 ^ 32) by nia. lia.
Qed.

Lemma producer_fills C M : forall batch s,
  2 <= C <= 2 ^ 32 ->
  x9_inbox_wf s -> sz s = C -> constant s = x9_constant C ->
  0 <= write_idx s ->
  write_idx s + Z.of_nat (length batch) <= C ->
  (forall p, (Z.to_nat (write_idx s) <= p)%nat ->
             slot_has_data (header (slot_at s p)) = false) ->
  result (producer M batch s) = replicate (length batch) true.
Proof.
  induction batch as [| msg batch IH]; intros s HC Hwf Hsz Hk Hw0 Hroom Hfree;
    [reflexivity |].
  cbn [producer length replicate] in *. autorewrite with x9_run.
  destruct (x9_write_to_inbox_run M msg s) as (Hres & Hfin & _).
  assert (slot_of s (write_idx s) = Z.to_nat (write_idx s)) as Hp.
  { unfold slot_of. rewrite Hsz, Hk, x9_idx_of_first_round by lia. reflexivity. }
  rewrite Hp in Hres, Hfin. rewrite Hfree in Hres, Hfin by lia.
  rewrite Hres, Hfin. cbn [negb]. f_equal.
  assert (wrap64 (write_idx s + 1) = write_idx s + 1) as Hw
    by (apply wrap64_small; lia).
  apply IH; try assumption.
  - destruct Hwf as [Hs Hl]. split; [exact Hs |].
    unfold set_write_idx, update_slot. x9_proj. rewrite length_alter. exact Hl.
  - rewrite write_idx_set_write_idx, Hw. lia.
  - rewrite write_idx_set_write_idx, Hw. lia.
  - intros p Hp'. rewrite write_idx_set_write_idx, Hw in Hp'.
    rewrite slot_at_set_write_idx. unfold slot_at, update_slot. x9_proj.
    rewrite list_lookup_alter_ne by lia. apply Hfree. lia.
Qed.

Lemma x9_fresh_inbox_accepts heap C nm M inbox batch :
  C <= 2 ^ 32 -> x9_create_inbox heap C nm M = Some inbox ->
  Z.of_nat (length batch) <= C ->
  result (producer M batch inbox) = replicate (length batch) true.
Proof.
  intros HC Hmk Hlen.
  assert (is_uint64 C) as HC64.
  { apply x9_create_inbox_inv in Hmk as [[Hpos _] _]. unfold is_uint64. lia. }
  pose proof (x9_create_inbox_wf _ _ _ _ _ HC64 Hmk) as Hwf.
  apply x9_create_inbox_inv in Hmk as [[Hpos Heven] ->].
  assert (2 <= C) by (destruct (Z.eq_dec C 1) as [-> |]; [discriminate | lia]).
  apply (producer_fills C); try assumption; try reflexivity; x9_proj; try lia.
  intros p _. unfold slot_at. x9_proj.
  destruct (replicate (Z.to_nat C) (zero_slot (Z.to_nat M)) !! p) as [c |] eqn:Hc;
    [| reflexivity].
  apply lookup_replicate in Hc as [-> _]. reflexivity.
Qed.

(** * Further properties of the code *)

(** ** The index *)

(** X1: whatever the counters and the constant hold, the index computed by
    [x9_load_idx] and by [x9_increment_idx] designates a cell of the slot
    array: it is below [sz]. *)
Theorem x9_index_in_bounds b s :
  x9_inbox_wf s ->
  0 <= result (x9_load_idx b s) < sz s /\
  0 <= result (x9_increment_idx b s) < sz s /\
  (Z.to_nat (result (x9_load_idx b s)) < length (msgs s))%nat /\
  (Z.to_nat (result (x9_increment_idx b s)) < length (msgs s))%nat.
Proof.
  intros [Hsz Hlen]. rewrite x9_load_idx_run, x9_increment_idx_run.
  cbv zeta. x9_proj.
  pose proof (x9_idx_of_bound (sz s) Hsz (constant s)
                (if b then read_idx s else write_idx s)) as Hb.
  repeat split; lia.
Qed.

Lemma x9_index_in_bounds_witness :
  exists inbox,
    x9_create_inbox heap_ok 6 "ibx" 8 = Some inbox /\
    x9_inbox_wf (set_write_idx (2 ^ 63) inbox) /\
    0 <= result (x9_load_idx false (set_write_idx (2 ^ 63) inbox)) < 6.
Proof.
  eexists. split; [reflexivity |].
  match goal with |- x9_inbox_wf ?s /\ _ =>
    assert (x9_inbox_wf s) as Hwf by (split; [simpl; lia | reflexivity]);
    split; [exact Hwf |];
    exact (proj1 (x9_index_in_bounds false s Hwf))
  end.
Defined.

(** X2: in an inbox created with a capacity that is a power of two (one
    that divides 2^64), the index of every 64-bit counter value is its
    remainder modulo the capacity. *)
Theorem x9_load_idx_power_of_two heap C nm M inbox c :
  is_uint64 C -> x9_create_inbox heap C nm M = Some inbox ->
  2 ^ 64 mod C = 0 -> is_uint64 c ->
  result (x9_load_idx false (set_write_idx c inbox)) = c mod C /\
  result (x9_load_idx true (set_read_idx c inbox)) = c mod C /\
  result (x9_increment_idx false (set_write_idx c inbox)) = c mod C /\
  result (x9_increment_idx true (set_read_idx c inbox)) = c mod C.
Proof.
  intros HC Hmk Hdiv Hc. apply x9_create_inbox_inv in Hmk as [[Hpos Heven] ->].
  unfold is_uint64 in HC, Hc.
  assert (2 <= C) by (destruct (Z.eq_dec C 1) as [-> |]; [discriminate | lia]).
  rewrite !x9_load_idx_run, !x9_increment_idx_run. cbv zeta.
  unfold set_write_idx, set_read_idx. x9_proj.
  rewrite x9_idx_of_exact_pow2 by lia.
  repeat split.
Qed.

Lemma x9_load_idx_power_of_two_witness :
  exists inbox,
    is_uint64 4 /\ x9_create_inbox heap_ok 4 "ibx" 8 = Some inbox /\
    2 ^ 64 mod 4 = 0 /\ is_uint64 (2 ^ 63 + 3) /\
    result (x9_load_idx false (set_write_idx (2 ^ 63 + 3) inbox))
      = (2 ^ 63 + 3) mod 4.
Proof.
  eexists. split; [unfold is_uint64; lia |].
  split; [reflexivity |]. split; [reflexivity |].
  split; [unfold is_uint64; lia |].
  apply (x9_load_idx_power_of_two heap_ok 4 "ibx" 8 _ (2 ^ 63 + 3));
    [unfold is_uint64; lia | reflexivity | reflexivity | unfold is_uint64; lia].
Defined.

(** X3: in an inbox created with any legal capacity [C], the index of a
    counter value [c] is its remainder modulo [C] as long as
    [c * (constant * C - 2^64) < 2^64], where [constant * C - 2^64] is
    [C - 2^64 mod C] for a capacity that does not divide 2^64. *)
Theorem x9_load_idx_exact_range heap C nm M inbox c :
  is_uint64 C -> x9_create_inbox heap C nm M = Some inbox ->
  is_uint64 c -> c * (constant inbox * C - 2 ^ 64) < 2 ^ 64 ->
  constant inbox * C - 2 ^ 64 = x9_excess C /\
  result (x9_load_idx false (set_write_idx c inbox)) = c mod C /\
  result (x9_load_idx true (set_read_idx c inbox)) = c mod C.
Proof.
  intros HC Hmk Hc Hrange. apply x9_create_inbox_inv in Hmk as [[Hpos Heven] ->].
  unfold is_uint64 in *. x9_proj. x9_proj.
  assert (2 <= C) by (destruct (Z.eq_dec C 1) as [-> |]; [discriminate | lia]).
  cbn [constant] in Hrange.
  rewrite x9_constant_times_sz in * by lia.
  split; [lia |].
  rewrite !x9_load_idx_run. unfold set_write_idx, set_read_idx. x9_proj.
  rewrite x9_idx_of_exact by lia. split; reflexivity.
Qed.

Lemma x9_load_idx_exact_range_witness :
  exists inbox,
    is_uint64 6 /\ x9_create_inbox heap_ok 6 "ibx" 8 = Some inbox /\
    is_uint64 (2 ^ 63 - 1) /\
    (2 ^ 63 - 1) * (constant inbox * 6 - 2 ^ 64) < 2 ^ 64 /\
    result (x9_load_idx false (set_write_idx (2 ^ 63 - 1) inbox))
      = (2 ^ 63 - 1) mod 6.
Proof.
  eexists. split; [unfold is_uint64; lia |]. split; [reflexivity |].
  split; [unfold is_uint64; lia |]. split; [vm_compute; reflexivity |].
  apply (x9_load_idx_exact_range heap_ok 6 "ibx" 8 _ (2 ^ 63 - 1));
    [unfold is_uint64; lia | reflexivity | unfold is_uint64; lia
    | vm_compute; reflexivity].
Defined.

(** ** The shared read against the plain read *)

(** X4: [x9_read_from_shared_inbox] returns not-read and changes nothing
    when the [shared] flag of the slot is set, whatever the slot holds; when
    the flag is clear it gives the same result, the same buffer and the same
    inbox as [x9_read_from_inbox]. *)
Theorem x9_read_from_shared_inbox_as_plain n out s :
  let locked := shared (header (slot_at s (slot_of s (read_idx s)))) in
  result (x9_read_from_shared_inbox n out s) =
    (if locked then (false, out) else result (x9_read_from_inbox n out s)) /\
  final (x9_read_from_shared_inbox n out s) =
    (if locked then s else final (x9_read_from_inbox n out s)).
Proof.
  cbv zeta.
  destruct (x9_read_from_shared_inbox_run n out s) as (-> & ->).
  destruct (x9_read_from_inbox_run n out s) as (-> & ->).
  destruct (shared _); split; reflexivity.
Qed.

(** ** The spinning plain read *)

Lemma read_idx_set_read_idx v s : read_idx (set_read_idx v s) = v.
Proof. reflexivity. Qed.

Lemma slot_of_set_read_idx v s c : slot_of (set_read_idx v s) c = slot_of s c.
Proof. reflexivity. Qed.

Lemma slot_at_set_read_idx v s p : slot_at (set_read_idx v s) p = slot_at s p.
Proof. reflexivity. Qed.

Lemma set_read_idx_twice v w s :
  set_read_idx v (set_read_idx w s) = set_read_idx v s.
Proof. reflexivity. Qed.

#[local] Hint Rewrite read_idx_set_read_idx slot_of_set_read_idx
  slot_at_set_read_idx set_read_idx_update_slot set_read_idx_twice : x9_counter.

Lemma x9_read_from_inbox_spin_turn_run p n out s :
  let r := x9_read_from_inbox_spin_turn p n out s in
  result r =
    (if slot_ready s p then (true, memcpy out (payload (slot_at s p)) n)
     else (false, out)) /\
  final r = (if slot_ready s p then update_slot drained_slot p s else s).
Proof.
  cbv zeta. unfold x9_read_from_inbox_spin_turn, bind, ret, slot_ready.
  unfold atomic_load_flag. cbn [get_flag].
  destruct (slot_has_data (header (slot_at s p))); [| split; reflexivity].
  destruct (msg_written (header (slot_at s p))); [| split; reflexivity].
  split; [reflexivity |].
  unfold memcpy_from_slot, atomic_store_flag. x9_proj.
  rewrite update_slot_twice. reflexivity.
Qed.

Lemma x9_read_from_inbox_spin_loop_S t0 fuel p n out :
  x9_read_from_inbox_spin_loop t0 (S fuel) p n out =
    bind (x9_read_from_inbox_spin_turn p n out)
      (fun r => if r.1 then ret (Some t0, r.2)
                else x9_read_from_inbox_spin_loop (S t0) fuel p n out).
Proof. reflexivity. Qed.

(** Alone on the inbox, the loop returns in its first turn or not at all:
    a turn that finds the slot not ready leaves everything as it is. *)
Lemma x9_read_from_inbox_spin_loop_run p n out s : forall fuel t0,
  let r := x9_read_from_inbox_spin_loop t0 (S fuel) p n out s in
  result r =
    (if slot_ready s p then (Some t0, memcpy out (payload (slot_at s p)) n)
     else (None, out)) /\
  final r = (if slot_ready s p then update_slot drained_slot p s else s).
Proof.
  induction fuel as [| fuel IH]; intros t0; cbv zeta;
    rewrite x9_read_from_inbox_spin_loop_S, result_bind, final_bind;
    destruct (x9_read_from_inbox_spin_turn_run p n out s) as (Hres & Hfin);
    rewrite Hres, Hfin; clear Hres Hfin.
  - destruct (slot_ready s p); split; reflexivity.
  - specialize (IH (S t0)). cbv zeta in IH.
    destruct (slot_ready s p); [split; reflexivity |]. x9_proj. exact IH.
Qed.

Lemma x9_read_from_inbox_spin_run fuel n out s :
  let p := slot_of s (read_idx s) in
  let r := x9_read_from_inbox_spin (S fuel) n out s in
  if slot_ready s p then
    result r = (Some 1%nat, (result (x9_read_from_inbox n out s)).2) /\
    (result (x9_read_from_inbox n out s)).1 = true /\
    final r = final (x9_read_from_inbox n out s)
  else
    result r = (None, out) /\ final r = draw_read_ticket s.
Proof.
  cbv zeta. unfold x9_read_from_inbox_spin.
  rewrite result_bind, final_bind, x9_increment_idx_run. cbv zeta. x9_proj.
  unfold x9_header_ptr. autorewrite with x9_run.
  change (Z.to_nat (x9_idx_of (constant s) (sz s) (read_idx s)))
    with (slot_of s (read_idx s)).
  set (p := slot_of s (read_idx s)).
  destruct (x9_read_from_inbox_spin_loop_run p n out
              (set_read_idx (wrap64 (read_idx s + 1)) s) fuel 1) as (-> & ->).
  destruct (x9_read_from_inbox_run n out s) as (-> & ->). fold p.
  change (slot_ready (set_read_idx (wrap64 (read_idx s + 1)) s) p)
    with (slot_ready s p).
  unfold slot_ready. destruct (slot_has_data _ && msg_written _).
  - repeat split.
  - split; reflexivity.
Qed.

(** X5: [x9_read_from_inbox_spin] draws its ticket once, before the loop.
    When the slot of that ticket is occupied and ready it returns in its
    first turn with the buffer and the inbox that [x9_read_from_inbox]
    gives; when it is not, the call spins on that one slot: [read_idx] has
    advanced by one and nothing else has changed. *)
Theorem x9_read_from_inbox_spin_ticket fuel n out s :
  let p := slot_of s (read_idx s) in
  let r := x9_read_from_inbox_spin (S fuel) n out s in
  if slot_ready s p then
    result r = (Some 1%nat, (result (x9_read_from_inbox n out s)).2) /\
    (result (x9_read_from_inbox n out s)).1 = true /\
    final r = final (x9_read_from_inbox n out s)
  else
    result r = (None, out) /\ final r = draw_read_ticket s.
Proof. apply x9_read_from_inbox_spin_run. Qed.

(** ** The spinning write against the plain write *)

Lemma x9_write_to_inbox_spin_free fuel n msg s :
  slot_has_data (header (slot_at s (slot_of s (write_idx s)))) = false ->
  result (x9_write_to_inbox_spin (S fuel) [] n msg s) = Some 1%nat /\
  result (x9_write_to_inbox n msg s) = true /\
  final (x9_write_to_inbox_spin (S fuel) [] n msg s)
    = final (x9_write_to_inbox n msg s).
Proof.
  intros Hfree. unfold x9_write_to_inbox_spin.
  cbn [x9_write_to_inbox_spin_from head tail default from_option id].
  rewrite result_bind, final_bind.
  destruct (x9_write_to_inbox_spin_turn_run false n msg s) as (Hres & Hfin).
  rewrite Hfree in Hres. cbn [negb andb] in Hres. rewrite Hres in Hfin |- *.
  rewrite Hfin. autorewrite with x9_run.
  destruct (x9_write_to_inbox_run n msg s) as (-> & -> & _).
  rewrite Hfree. repeat split.
Qed.

(** The same when only the first turn is known to meet no spurious
    failure: the later turns are not reached. *)
Lemma x9_write_to_inbox_spin_first fuel spurious n msg s :
  first_turn_sound spurious ->
  slot_has_data (header (slot_at s (slot_of s (write_idx s)))) = false ->
  result (x9_write_to_inbox_spin (S fuel) spurious n msg s) = Some 1%nat /\
  result (x9_write_to_inbox n msg s) = true /\
  final (x9_write_to_inbox_spin (S fuel) spurious n msg s)
    = final (x9_write_to_inbox n msg s).
Proof.
  intros Hfirst Hfree. unfold x9_write_to_inbox_spin.
  cbn [x9_write_to_inbox_spin_from]. unfold first_turn_sound in Hfirst.
  rewrite Hfirst, result_bind, final_bind.
  destruct (x9_write_to_inbox_spin_turn_run false n msg s) as (Hres & Hfin).
  rewrite Hfree in Hres. cbn [negb andb] in Hres. rewrite Hres in Hfin |- *.
  rewrite Hfin. autorewrite with x9_run.
  destruct (x9_write_to_inbox_run n msg s) as (-> & -> & _).
  rewrite Hfree. repeat split.
Qed.

Lemma first_turn_sound_lookup (spurious : list (list bool)) k :
  Forall first_turn_sound spurious ->
  first_turn_sound (default [] (spurious !! k)).
Proof.
  intros Hall. destruct (spurious !! k) as [l |] eqn:Hl; [| reflexivity].
  exact (proj1 (Forall_lookup _ _) Hall k l Hl).
Qed.

(** X6: when the slot of the ticket [write_idx] is free, and the weak
    compare-and-swap does not fail spuriously, [x9_write_to_inbox_spin]
    returns in its first turn and leaves the inbox exactly as
    [x9_write_to_inbox] does, which returns [true]. *)
Theorem x9_write_to_inbox_spin_as_plain fuel n msg s :
  slot_has_data (header (slot_at s (slot_of s (write_idx s)))) = false ->
  result (x9_write_to_inbox_spin (S fuel) [] n msg s) = Some 1%nat /\
  result (x9_write_to_inbox n msg s) = true /\
  final (x9_write_to_inbox_spin (S fuel) [] n msg s)
    = final (x9_write_to_inbox n msg s).
Proof. apply x9_write_to_inbox_spin_free. Qed.

Lemma x9_write_to_inbox_spin_as_plain_witness :
  exists inbox,
    x9_create_inbox heap_ok 2 "ibx" 1 = Some inbox /\
    slot_has_data (header (slot_at inbox (slot_of inbox (write_idx inbox)))) = false /\
    result (x9_write_to_inbox_spin 1 [] 1 [x01] inbox) = Some 1%nat.
Proof.
  eexists. split; [reflexivity |]. split; [reflexivity |].
  apply (x9_write_to_inbox_spin_as_plain 0 1 [x01]). reflexivity.
Defined.

(** X7: without spurious failures [x9_write_to_inbox_spin] returns as soon
    as it draws the ticket of a free slot, in turn [j + 1] at the latest
    when the slot of the ticket [write_idx + j] is free; on an inbox whose
    slots are all occupied it never returns, and every turn uses up one
    ticket. *)
Theorem x9_write_to_inbox_spin_returns n msg s :
  x9_inbox_wf s ->
  (forall j fuel,
     (j < fuel)%nat ->
     slot_has_data
       (header (slot_at s (slot_of s (write_idx s + Z.of_nat j)))) = false ->
     exists k, (1 <= k <= j + 1)%nat /\
       result (x9_write_to_inbox_spin fuel [] n msg s) = Some k) /\
  (free_slots (msgs s) = 0%nat ->
   forall fuel spurious,
     result (x9_write_to_inbox_spin fuel spurious n msg s) = None /\
     final (x9_write_to_inbox_spin fuel spurious n msg s)
       = Nat.iter fuel draw_ticket s).
Proof.
  intros Hwf. split.
  - intros j fuel Hj Hfree.
    destruct (x9_write_to_inbox_spin_from_returns n msg j fuel 1 s Hj Hfree)
      as (k & Hk & Hret).
    pose proof (x9_write_to_inbox_spin_from_run n msg fuel 1 [] s) as Hrun.
    cbv zeta in Hrun. unfold x9_write_to_inbox_spin. rewrite Hret in Hrun.
    destruct Hrun as (j' & -> & _). exists (1 + j')%nat. split; [lia | exact Hret].
  - intros Hfull fuel spurious.
    pose proof (x9_write_to_inbox_spin_from_run n msg fuel 1 spurious s) as Hrun.
    cbv zeta in Hrun. unfold x9_write_to_inbox_spin.
    destruct (result (x9_write_to_inbox_spin_from 1 fuel spurious n msg s))
      as [k |]; [exfalso | split; [reflexivity | exact Hrun]].
    destruct Hrun as (j & _ & _ & Hfree & _).
    destruct (lookup_lt_is_Some_2 _ _
                (slot_of_lt s (write_idx s + Z.of_nat j) Hwf)) as [c Hc].
    rewrite (slot_at_lookup _ _ _ Hc) in Hfree.
    rewrite (free_slots_none _ _ _ Hfull Hc) in Hfree. discriminate.
Qed.

Lemma x9_write_to_inbox_spin_returns_witness :
  exists inbox,
    x9_create_inbox heap_ok 2 "ibx" 1 = Some inbox /\
    let s := final (producer 1 [[x01]; [x02]] inbox) in
    x9_inbox_wf s /\ free_slots (msgs s) = 0%nat /\
    result (x9_write_to_inbox_spin 7 [] 1 [x03] s) = None.
Proof.
  eexists. split; [reflexivity |]. cbv zeta.
  match goal with |- x9_inbox_wf ?s /\ _ =>
    assert (x9_inbox_wf s) as Hwf by (split; [simpl; lia | reflexivity]);
    assert (free_slots (msgs s) = 0%nat) as Hfull by (vm_compute; reflexivity);
    split; [exact Hwf |]; split; [exact Hfull |];
    exact (proj1 (proj2 (x9_write_to_inbox_spin_returns 1 [x03] s Hwf)
                    Hfull 7%nat []))
  end.
Defined.

(** ** The spinning shared read *)

(** One turn draws the ticket [read_idx] and advances the counter in any
    case; it drains the slot of that ticket when the slot is unlocked,
    occupied and ready, and leaves every slot as it was otherwise. *)
Lemma x9_read_from_shared_inbox_spin_turn_run n out s :
  let p := slot_of s (read_idx s) in
  let ok := negb (shared (header (slot_at s p))) && slot_ready s p in
  let r := x9_read_from_shared_inbox_spin_turn n out s in
  result r =
    (if ok then (true, memcpy out (payload (slot_at s p)) n) else (false, out)) /\
  final r = draw_read_ticket (if ok then update_slot drained_slot p s else s).
Proof.
  cbv zeta. unfold x9_read_from_shared_inbox_spin_turn, bind, x9_header_ptr, ret.
  rewrite x9_increment_idx_run. cbv beta iota zeta.
  change (Z.to_nat (x9_idx_of (constant s) (sz s) (read_idx s)))
    with (slot_of s (read_idx s)).
  set (p := slot_of s (read_idx s)).
  unfold slot_ready, draw_read_ticket.
  unfold atomic_compare_exchange_strong. cbn [get_flag].
  autorewrite with x9_counter.
  destruct (shared (header (slot_at s p))) eqn:Hsh; [split; reflexivity |].
  cbn [Bool.eqb negb andb].
  assert (forall c, msgs s !! p = Some c -> shared (header c) = false) as Hc.
  { intros c Hl. rewrite (slot_at_lookup _ _ _ Hl) in Hsh. exact Hsh. }
  assert (forall f, (forall c, shared (header c) = false ->
                       f (set_slot_flag Shared true c) = c) ->
            update_slot f p (update_slot (set_slot_flag Shared true) p s) = s)
    as Hback.
  { intros f Hf. rewrite update_slot_twice. apply update_slot_id.
    intros c Hl. apply Hf, Hc, Hl. }
  assert (forall c, shared (header c) = false ->
            set_slot_flag Shared false (set_slot_flag Shared true c) = c) as Hunlock.
  { intros [[] ?] Hs. simpl in Hs. subst. reflexivity. }
  unfold atomic_load_flag. cbn [get_flag]. autorewrite with x9_counter.
  destruct (msgs s !! p) as [c |] eqn:Hl.
  - assert (slot_at (update_slot (set_slot_flag Shared true) p s) p
            = set_slot_flag Shared true (slot_at s p)) as Hat.
    { unfold slot_at, update_slot. x9_proj. rewrite list_lookup_alter_eq, Hl.
      reflexivity. }
    rewrite Hat.
    cbn [get_flag set_slot_flag set_flag header slot_has_data msg_written].
    destruct (slot_has_data (header (slot_at s p))).
    2:{ split; [reflexivity |]. unfold atomic_store_flag. x9_proj.
        autorewrite with x9_counter. f_equal. apply Hback, Hunlock. }
    cbv beta iota zeta. autorewrite with x9_counter. rewrite Hat.
    cbn [get_flag set_slot_flag set_flag header slot_has_data msg_written].
    destruct (msg_written (header (slot_at s p))).
    2:{ split; [reflexivity |]. unfold atomic_store_flag. x9_proj.
        autorewrite with x9_counter. f_equal. apply Hback, Hunlock. }
    split.
    + unfold memcpy_from_slot. x9_proj. autorewrite with x9_counter.
      rewrite Hat. reflexivity.
    + unfold memcpy_from_slot, atomic_store_flag.
      x9_proj. autorewrite with x9_counter. rewrite !update_slot_twice. f_equal.
      apply update_slot_ext. intros [[] ?] Hl'. rewrite Hl in Hl'.
      apply Hc in Hl'. simpl in Hl'. subst. reflexivity.
  - assert (slot_at (update_slot (set_slot_flag Shared true) p s) p
            = zero_slot 0) as Hat.
    { unfold slot_at, update_slot. x9_proj. rewrite list_lookup_alter_eq, Hl.
      reflexivity. }
    assert (slot_at s p = zero_slot 0) as Hat0
      by (unfold slot_at; rewrite Hl; reflexivity).
    rewrite Hat, Hat0. cbn [zero_slot zero_header header slot_has_data andb].
    split; [reflexivity |]. unfold atomic_store_flag. x9_proj.
    autorewrite with x9_counter. f_equal. apply Hback, Hunlock.
Qed.

Lemma x9_read_from_shared_inbox_spin_from_S t0 fuel n out :
  x9_read_from_shared_inbox_spin_from t0 (S fuel) n out =
    bind (x9_read_from_shared_inbox_spin_turn n out)
      (fun r => if r.1 then ret (Some t0, r.2)
                else x9_read_from_shared_inbox_spin_from (S t0) fuel n out).
Proof. reflexivity. Qed.

Lemma slot_ready_set_read_idx v s p : slot_ready (set_read_idx v s) p = slot_ready s p.
Proof. reflexivity. Qed.

Lemma x9_read_from_shared_inbox_spin_from_run n out : forall fuel t0 s,
  let r := x9_read_from_shared_inbox_spin_from t0 fuel n out s in
  match (result r).1 with
  | Some k =>
      exists j : nat,
        let p := slot_of s (read_idx s + Z.of_nat j) in
        k = (t0 + j)%nat /\ (j < fuel)%nat /\
        shared (header (slot_at s p)) = false /\ slot_ready s p = true /\
        (result r).2 = memcpy out (payload (slot_at s p)) n /\
        final r =
          set_read_idx (wrap64 (read_idx s + Z.of_nat j + 1))
            (update_slot drained_slot p s)
  | None =>
      (result r).2 = out /\ final r = Nat.iter fuel draw_read_ticket s
  end.
Proof.
  induction fuel as [| fuel IH]; intros t0 s; [split; reflexivity |].
  cbv zeta. rewrite x9_read_from_shared_inbox_spin_from_S, result_bind, final_bind.
  destruct (x9_read_from_shared_inbox_spin_turn_run n out s) as (Hres & Hfin).
  rewrite Hres, Hfin. clear Hres Hfin.
  destruct (negb (shared (header (slot_at s (slot_of s (read_idx s))))) &&
            slot_ready s (slot_of s (read_idx s))) eqn:Hok; x9_proj.
  - autorewrite with x9_run. x9_proj. exists 0%nat. cbv zeta.
    change (Z.of_nat 0) with 0. rewrite !Z.add_0_r.
    apply Bool.andb_true_iff in Hok as [Hsh Hready].
    apply Bool.negb_true_iff in Hsh.
    repeat split; [lia | lia | exact Hsh | exact Hready].
  - specialize (IH (S t0) (draw_read_ticket s)). cbv zeta in IH.
    destruct (result (x9_read_from_shared_inbox_spin_from (S t0) fuel n out
                        (draw_read_ticket s))).1 as [k |].
    + destruct IH as (j & -> & Hj & Hsh & Hready & Hbuf & Hfin). exists (S j).
      cbv zeta. unfold draw_read_ticket in *.
      rewrite slot_ready_set_read_idx in Hready.
      autorewrite with x9_counter in Hsh, Hready, Hbuf, Hfin.
      replace (read_idx s + Z.of_nat (S j)) with (read_idx s + 1 + Z.of_nat j) by lia.
      repeat split; [lia | lia | exact Hsh | exact Hready | exact Hbuf |].
      rewrite Hfin. rewrite <- !Z.add_assoc. autorewrite with x9_counter.
      rewrite !Z.add_assoc. reflexivity.
    + destruct IH as (Hbuf & Hfin). split; [exact Hbuf |]. rewrite Hfin.
      exact (eq_sym (Nat.iter_succ_r fuel draw_read_ticket s)).
Qed.

Lemma x9_read_from_shared_inbox_spin_from_returns n out : forall j fuel t0 s,
  (j < fuel)%nat ->
  shared (header (slot_at s (slot_of s (read_idx s + Z.of_nat j)))) = false ->
  slot_ready s (slot_of s (read_idx s + Z.of_nat j)) = true ->
  exists k, (k <= t0 + j)%nat /\
    (result (x9_read_from_shared_inbox_spin_from t0 fuel n out s)).1 = Some k.
Proof.
  induction j as [| j IH]; intros fuel t0 s Hfuel Hsh Hready;
    (destruct fuel as [| fuel]; [lia |]);
    rewrite x9_read_from_shared_inbox_spin_from_S, result_bind;
    destruct (x9_read_from_shared_inbox_spin_turn_run n out s) as (Hres & Hfin);
    rewrite Hres, Hfin; clear Hres Hfin.
  - change (Z.of_nat 0) with 0 in Hsh, Hready. rewrite Z.add_0_r in Hsh, Hready.
    rewrite Hsh, Hready. exists t0. split; [lia | reflexivity].
  - destruct (negb _ && _); x9_proj.
    + exists t0. split; [lia | reflexivity].
    + destruct (IH fuel (S t0) (draw_read_ticket s)) as (k & Hk & Hret).
      * lia.
      * unfold draw_read_ticket. autorewrite with x9_counter.
        replace (read_idx s + 1 + Z.of_nat j) with (read_idx s + Z.of_nat (S j))
          by lia.
        exact Hsh.
      * unfold draw_read_ticket. rewrite slot_ready_set_read_idx.
        autorewrite with x9_counter.
        replace (read_idx s + 1 + Z.of_nat j) with (read_idx s + Z.of_nat (S j))
          by lia.
        exact Hready.
      * exists k. split; [lia | exact Hret].
Qed.

(** X8: every turn of the loop of [x9_read_from_shared_inbox_spin] draws a
    new ticket: it advances [read_idx] by one whether it reads or not, and a
    turn that does not read changes nothing else.  A call that returns in
    its turn [k] has advanced [read_idx] by [k]; it found the slot of its
    last ticket unlocked, occupied and ready, copied that payload and cleared
    that slot only.  A call still spinning after [fuel] turns has used up
    [fuel] tickets and left the buffer and every slot as they were. *)
Theorem x9_read_from_shared_inbox_spin_tickets fuel n out s :
  let r := x9_read_from_shared_inbox_spin fuel n out s in
  match (result r).1 with
  | Some k =>
      let p := slot_of s (read_idx s + Z.of_nat k - 1) in
      (1 <= k <= fuel)%nat /\
      shared (header (slot_at s p)) = false /\ slot_ready s p = true /\
      (result r).2 = memcpy out (payload (slot_at s p)) n /\
      final r =
        set_read_idx (wrap64 (read_idx s + Z.of_nat k))
          (update_slot drained_slot p s)
  | None =>
      (result r).2 = out /\ final r = Nat.iter fuel draw_read_ticket s
  end.
Proof.
  pose proof (x9_read_from_shared_inbox_spin_from_run n out fuel 1 s) as Hrun.
  cbv zeta in Hrun |- *. unfold x9_read_from_shared_inbox_spin.
  destruct (result (x9_read_from_shared_inbox_spin_from 1 fuel n out s)).1
    as [k |]; [| exact Hrun].
  destruct Hrun as (j & -> & Hj & Hsh & Hready & Hbuf & Hfin).
  replace (read_idx s + Z.of_nat (1 + j) - 1) with (read_idx s + Z.of_nat j) by lia.
  replace (read_idx s + Z.of_nat (1 + j)) with (read_idx s + Z.of_nat j + 1) by lia.
  repeat split; [lia | lia | exact Hsh | exact Hready | exact Hbuf | exact Hfin].
Qed.

(** X9: [x9_read_from_shared_inbox_spin] returns as soon as it draws the
    ticket of a slot that is unlocked, occupied and ready: in turn [j + 1]
    at the latest when the slot of the ticket [read_idx + j] is; on an inbox
    with no ready slot it never returns. *)
Theorem x9_read_from_shared_inbox_spin_returns n out s :
  (forall j fuel,
     (j < fuel)%nat ->
     shared (header (slot_at s (slot_of s (read_idx s + Z.of_nat j)))) = false ->
     slot_ready s (slot_of s (read_idx s + Z.of_nat j)) = true ->
     exists k, (1 <= k <= j + 1)%nat /\
       (result (x9_read_from_shared_inbox_spin fuel n out s)).1 = Some k) /\
  ((forall p, slot_ready s p = false) ->
   forall fuel,
     result (x9_read_from_shared_inbox_spin fuel n out s) = (None, out)).
Proof.
  split.
  - intros j fuel Hj Hsh Hready.
    destruct (x9_read_from_shared_inbox_spin_from_returns n out j fuel 1 s
                Hj Hsh Hready) as (k & Hk & Hret).
    pose proof (x9_read_from_shared_inbox_spin_from_run n out fuel 1 s) as Hrun.
    cbv zeta in Hrun. unfold x9_read_from_shared_inbox_spin. rewrite Hret in Hrun.
    destruct Hrun as (j' & -> & _). exists (1 + j')%nat. split; [lia | exact Hret].
  - intros Hempty fuel.
    pose proof (x9_read_from_shared_inbox_spin_from_run n out fuel 1 s) as Hrun.
    cbv zeta in Hrun. unfold x9_read_from_shared_inbox_spin.
    destruct (result (x9_read_from_shared_inbox_spin_from 1 fuel n out s))
      as [[k |] buf]; x9_proj; x9_proj.
    + simpl in Hrun. destruct Hrun as (j & _ & _ & _ & Hready & _).
      rewrite Hempty in Hready. discriminate.
    + simpl in Hrun. destruct Hrun as [-> _]. reflexivity.
Qed.

Lemma x9_read_from_shared_inbox_spin_returns_witness :
  exists inbox,
    x9_create_inbox heap_ok 4 "ibx" 1 = Some inbox /\
    let s := draw_read_ticket (final (producer 1 [[x01]; [x02]] inbox)) in
    shared (header (slot_at s (slot_of s (read_idx s + Z.of_nat 0)))) = false /\
    slot_ready s (slot_of s (read_idx s + Z.of_nat 0)) = true /\
    exists k, (1 <= k <= 0 + 1)%nat /\
      (result (x9_read_from_shared_inbox_spin 3 1 [x00] s)).1 = Some k.
Proof.
  eexists. split; [reflexivity |]. cbv zeta.
  split; [vm_compute; reflexivity |]. split; [vm_compute; reflexivity |].
  apply (proj1 (x9_read_from_shared_inbox_spin_returns 1 [x00] _) 0%nat 3%nat);
    [lia | vm_compute; reflexivity | vm_compute; reflexivity].
Defined.

(** ** Names and lookup *)

Lemma string_compare_refl a : String.compare a a = Eq.
Proof.
  induction a as [| c a IH]; [reflexivity |]. simpl.
  unfold Ascii.compare. rewrite N.compare_refl. exact IH.
Qed.

Lemma strcmp_zero a b : strcmp a b = 0 <-> a = b.
Proof.
  unfold strcmp. split.
  - destruct (String.compare a b) eqn:Hcmp; try discriminate.
    intros _. apply String.compare_eq_iff, Hcmp.
  - intros ->. rewrite string_compare_refl. reflexivity.
Qed.

Lemma x9_inbox_name_is_true s nm : x9_inbox_name_is s nm = true <-> name s = nm.
Proof.
  unfold x9_inbox_name_is. rewrite Bool.negb_involutive, <- strcmp_zero.
  destruct (Z.eqb_spec (strcmp (name s) nm) 0); split; congruence.
Qed.

Lemma x9_node_name_is_true nd nm :
  x9_node_name_is nd nm = true <-> node_name nd = nm.
Proof.
  unfold x9_node_name_is. rewrite Bool.negb_involutive, <- strcmp_zero.
  destruct (Z.eqb_spec (strcmp (node_name nd) nm) 0); split; congruence.
Qed.

(** X10: the name an inbox or a node compares equal to is the name it was
    created with, and no other: [x9_inbox_name_is] on a created inbox and
    [x9_node_name_is] on a created node return [true] exactly for that
    name. *)
Theorem x9_name_is_created heap C nm M inbox nheap nnm n args node cmp :
  x9_create_inbox heap C nm M = Some inbox ->
  x9_create_node nheap nnm n args = Returned (Some node) ->
  (x9_inbox_name_is inbox cmp = true <-> cmp = nm) /\
  (x9_node_name_is node cmp = true <-> cmp = nnm).
Proof.
  intros Hmk Hnode. apply x9_create_inbox_inv in Hmk as [_ ->]. split.
  - rewrite x9_inbox_name_is_true. x9_proj. split; congruence.
  - unfold x9_create_node in Hnode.
    destruct (negb (0 <? n)); [discriminate |].
    destruct (negb (alloc_node nheap)); [discriminate |].
    destruct (negb (alloc_node_name nheap)); [discriminate |].
    destruct (negb (alloc_node_inboxes nheap)); [discriminate |].
    destruct (x9_create_node_attach 0 (Z.to_nat n) args
                (replicate (Z.to_nat n) None)) as [| [l |]]; try discriminate.
    injection Hnode as <-. rewrite x9_node_name_is_true. cbn [node_name].
    split; congruence.
Qed.

Lemma x9_name_is_created_witness :
  exists inbox node,
    x9_create_inbox heap_ok 2 "ibx" 1 = Some inbox /\
    x9_create_node node_heap_ok "node" 1 [Some 1%nat] = Returned (Some node) /\
    (x9_inbox_name_is inbox "ibx" = true <-> "ibx"%string = "ibx"%string).
Proof.
  eexists. eexists. split; [reflexivity |]. split; [reflexivity |].
  eapply (proj1 (x9_name_is_created heap_ok 2 "ibx" 1 _ node_heap_ok "node" 1
                   [Some 1%nat] _ "ibx" eq_refl eq_refl)).
Defined.

Section Select.

Variables (mem : x9_memory) (node : x9_node) (nm : string).

(** The scan passes over the references whose inbox has another name. *)
Lemma x9_select_inbox_from_node_at_skip : forall m k todo,
  (forall j r, (k <= j < k + m)%nat -> inboxes node !! j = Some r ->
               inbox_not_named mem r nm) ->
  (k + m <= length (inboxes node))%nat ->
  x9_select_inbox_from_node_at mem node nm k (m + todo) =
    x9_select_inbox_from_node_at mem node nm (k + m) todo.
Proof.
  induction m as [| m IH]; intros k todo Hskip Hlen.
  - rewrite Nat.add_0_r. reflexivity.
  - cbn [Nat.add x9_select_inbox_from_node_at].
    destruct (lookup_lt_is_Some_2 (inboxes node) k ltac:(lia)) as [r Hr].
    rewrite Hr.
    destruct (Hskip k r ltac:(lia) Hr) as (a & s & -> & Ha & Hne).
    cbn [deref_inbox]. rewrite Ha.
    destruct (x9_inbox_name_is s nm) eqn:His.
    { apply x9_inbox_name_is_true in His. contradiction. }
    rewrite IH; [f_equal; lia | | lia].
    intros j r' Hj. apply Hskip. lia.
Qed.

Lemma x9_select_inbox_from_node_found i r :
  length (inboxes node) = Z.to_nat (n_inboxes node) ->
  inboxes node !! i = Some r -> inbox_named mem r nm ->
  (forall j r', (j < i)%nat -> inboxes node !! j = Some r' ->
                inbox_not_named mem r' nm) ->
  x9_select_inbox_from_node mem node nm = Returned r.
Proof.
  intros Hlen Hr (a & s & -> & Ha & Hnm) Hbefore.
  unfold x9_select_inbox_from_node. rewrite <- Hlen.
  pose proof (lookup_lt_Some _ _ _ Hr) as Hi.
  replace (length (inboxes node))
    with (i + S (length (inboxes node) - S i))%nat by lia.
  rewrite x9_select_inbox_from_node_at_skip; [| | lia].
  - cbn [Nat.add x9_select_inbox_from_node_at]. rewrite Hr.
    cbn [deref_inbox]. rewrite Ha.
    rewrite (proj2 (x9_inbox_name_is_true s nm) Hnm). reflexivity.
  - intros j r' Hj. apply Hbefore. lia.
Qed.

(** X11: [x9_select_inbox_from_node] returns the first reference of the
    node whose inbox has the name asked for, and [NULL] when the node holds
    no inbox of that name. *)
Theorem x9_select_inbox_from_node_first :
  length (inboxes node) = Z.to_nat (n_inboxes node) ->
  (forall i r,
     inboxes node !! i = Some r -> inbox_named mem r nm ->
     (forall j r', (j < i)%nat -> inboxes node !! j = Some r' ->
                   inbox_not_named mem r' nm) ->
     x9_select_inbox_from_node mem node nm = Returned r) /\
  ((forall j r', inboxes node !! j = Some r' -> inbox_not_named mem r' nm) ->
   x9_select_inbox_from_node mem node nm = Returned None).
Proof.
  intros Hlen. split.
  - intros i r. apply x9_select_inbox_from_node_found, Hlen.
  - intros Hnone. unfold x9_select_inbox_from_node. rewrite <- Hlen.
    replace (length (inboxes node)) with (length (inboxes node) + 0)%nat by lia.
    rewrite x9_select_inbox_from_node_at_skip; [reflexivity | | lia].
    intros j r' _. apply Hnone.
Qed.

(** X12: the scan follows every reference it meets: when it reaches a
    [NULL] reference, or the address of an inbox that was released, before
    an inbox of the name asked for, the call is undefined. *)
Theorem x9_select_inbox_from_node_dangling i r :
  length (inboxes node) = Z.to_nat (n_inboxes node) ->
  inboxes node !! i = Some r ->
  deref_inbox mem r = Undefined ->
  (forall j r', (j < i)%nat -> inboxes node !! j = Some r' ->
                inbox_not_named mem r' nm) ->
  x9_select_inbox_from_node mem node nm = Undefined.
Proof.
  intros Hlen Hr Hdangling Hbefore.
  unfold x9_select_inbox_from_node. rewrite <- Hlen.
  pose proof (lookup_lt_Some _ _ _ Hr) as Hi.
  replace (length (inboxes node))
    with (i + S (length (inboxes node) - S i))%nat by lia.
  rewrite x9_select_inbox_from_node_at_skip; [| | lia].
  - cbn [Nat.add x9_select_inbox_from_node_at]. rewrite Hr, Hdangling.
    reflexivity.
  - intros j r' Hj. apply Hbefore. lia.
Qed.

End Select.

Lemma x9_select_inbox_from_node_first_witness :
  exists ib1 ib2,
    x9_create_inbox heap_ok 2 "first" 1 = Some ib1 /\
    x9_create_inbox heap_ok 2 "second" 1 = Some ib2 /\
    let mem := {| inbox_heap := <[1%nat := ib1]> (<[2%nat := ib2]> ∅);
                  node_heap := ∅ |} in
    let node := {| inboxes := [Some 1%nat; Some 2%nat]; n_inboxes := 2;
                   node_name := "node" |} in
    x9_select_inbox_from_node mem node "second" = Returned (Some 2%nat).
Proof.
  eexists. eexists. split; [reflexivity |]. split; [reflexivity |]. cbv zeta.
  match goal with |- x9_select_inbox_from_node ?mem ?node _ = _ =>
    refine (proj1 (x9_select_inbox_from_node_first mem node "second" eq_refl)
              1%nat (Some 2%nat) eq_refl _ _)
  end.
  - eexists. eexists. split; [reflexivity |]. split.
    + cbn [inbox_heap]. rewrite lookup_insert_ne by lia.
      apply lookup_insert_eq.
    + reflexivity.
  - intros j r' Hj Hr'. destruct j as [| j]; [| lia]. injection Hr' as <-.
    eexists. eexists. split; [reflexivity |]. split.
    + cbn [inbox_heap]. apply lookup_insert_eq.
    + discriminate.
Defined.

Lemma x9_select_inbox_from_node_dangling_witness :
  exists ib1,
    x9_create_inbox heap_ok 2 "first" 1 = Some ib1 /\
    let mem := {| inbox_heap := <[1%nat := ib1]> ∅; node_heap := ∅ |} in
    let node := {| inboxes := [Some 1%nat; None]; n_inboxes := 2;
                   node_name := "node" |} in
    x9_select_inbox_from_node mem node "second" = Undefined.
Proof.
  eexists. split; [reflexivity |]. cbv zeta.
  match goal with |- x9_select_inbox_from_node ?mem ?node _ = _ =>
    refine (x9_select_inbox_from_node_dangling mem node "second" 1%nat None
              eq_refl eq_refl eq_refl _)
  end.
  intros j r' Hj Hr'. destruct j as [| j]; [| lia]. injection Hr' as <-.
  eexists. eexists. split; [reflexivity |]. split.
  - cbn [inbox_heap]. apply lookup_insert_eq.
  - discriminate.
Defined.

(** What a node that was created holds. *)
Lemma x9_create_node_inv heap nm n args node :
  length args = Z.to_nat n ->
  x9_create_node heap nm n args = Returned (Some node) ->
  0 < n /\ NoDup args /\
  node = {| inboxes := args; n_inboxes := n; node_name := nm |}.
Proof.
  intros Hlen. unfold x9_create_node.
  destruct (Z.ltb_spec 0 n) as [Hpos | Hzero]; [| discriminate]. cbn [negb].
  destruct (negb (alloc_node heap)); [discriminate |].
  destruct (negb (alloc_node_name heap)); [discriminate |].
  destruct (negb (alloc_node_inboxes heap)); [discriminate |].
  pose proof (x9_create_node_attach_spec (Z.to_nat n) 0 args []
                eq_refl Hlen (NoDup_nil_2 (A:=option nat))) as Hattach.
  simpl in Hattach. rewrite Hattach.
  destruct (decide (NoDup args)) as [Hnd | Hdup]; [| discriminate].
  intros [= <-]. repeat split; assumption.
Qed.

(** X13: in a node created from references to allocated inboxes with
    pairwise different names, [x9_select_inbox_from_node] with the name of
    one of them returns the reference that was passed for it. *)
Theorem x9_create_node_select mem heap nnm n args node i r nm :
  length args = Z.to_nat n ->
  x9_create_node heap nnm n args = Returned (Some node) ->
  (forall j r', args !! j = Some r' -> exists nm', inbox_named mem r' nm') ->
  (forall j k rj rk nm', args !! j = Some rj -> args !! k = Some rk ->
     inbox_named mem rj nm' -> inbox_named mem rk nm' -> j = k) ->
  args !! i = Some r -> inbox_named mem r nm ->
  x9_select_inbox_from_node mem node nm = Returned r.
Proof.
  intros Hlen Hmk Hlive Hdistinct Hr Hnamed.
  apply x9_create_node_inv in Hmk as (_ & _ & ->); [| exact Hlen].
  apply (x9_select_inbox_from_node_found mem
           {| inboxes := args; n_inboxes := n; node_name := nnm |}
           nm i r Hlen Hr Hnamed).
  cbn [inboxes]. intros j r' Hj Hr'.
  destruct (Hlive j r' Hr') as (nm' & a & s & -> & Ha & Hnm').
  exists a, s. split; [reflexivity |]. split; [exact Ha |].
  intros Heq. assert (j = i); [| lia].
  apply (Hdistinct j i (Some a) r nm Hr' Hr); [| exact Hnamed].
  exists a, s. auto.
Qed.

Lemma x9_create_node_select_witness :
  exists ib1 ib2 node,
    x9_create_inbox heap_ok 2 "first" 1 = Some ib1 /\
    x9_create_inbox heap_ok 2 "second" 1 = Some ib2 /\
    x9_create_node node_heap_ok "node" 2 [Some 1%nat; Some 2%nat]
      = Returned (Some node) /\
    let mem := {| inbox_heap := <[1%nat := ib1]> (<[2%nat := ib2]> ∅);
                  node_heap := ∅ |} in
    x9_select_inbox_from_node mem node "second" = Returned (Some 2%nat).
Proof.
  eexists. eexists. eexists.
  split; [reflexivity |]. split; [reflexivity |]. split; [reflexivity |].
  cbv zeta.
  match goal with |- x9_select_inbox_from_node ?mem _ _ = _ =>
    assert (inbox_heap mem !! 1%nat <> None /\
            (name <$> inbox_heap mem !! 1%nat) = Some "first"%string /\
            (name <$> inbox_heap mem !! 2%nat) = Some "second"%string) as (H0 & H1 & H2)
      by (cbn [inbox_heap]; rewrite lookup_insert_eq,
            lookup_insert_ne, lookup_insert_eq by lia; repeat split; discriminate);
    refine (x9_create_node_select mem node_heap_ok "node" 2
              [Some 1%nat; Some 2%nat] _ 1%nat (Some 2%nat) "second"
              eq_refl eq_refl _ _ eq_refl _)
  end.
  - intros j r' Hr'. destruct j as [| [| j]]; try discriminate Hr';
      injection Hr' as <-.
    + destruct (_ !! 1%nat) as [s |] eqn:Hs; [| discriminate H1].
      exists (name s), 1%nat, s. auto.
    + destruct (_ !! 2%nat) as [s |] eqn:Hs; [| discriminate H2].
      exists (name s), 2%nat, s. auto.
  - intros j k rj rk nm' Hj Hk (a & s & -> & Ha & Hna) (b & t & -> & Hb & Hnb).
    destruct j as [| [| j]]; try discriminate Hj;
      destruct k as [| [| k]]; try discriminate Hk; try reflexivity;
      injection Hj as <-; injection Hk as <-;
      rewrite Ha in *; rewrite Hb in *; simpl in H1, H2; congruence.
  - destruct (_ !! 2%nat) as [s |] eqn:Hs; [| discriminate H2].
    exists 2%nat, s. simpl in H2. split; [reflexivity |].
    split; [exact Hs | congruence].
Defined.

(** ** Broadcast *)

Lemma x9_create_inbox_slots_free heap C nm M s p :
  x9_create_inbox heap C nm M = Some s ->
  slot_has_data (header (slot_at s p)) = false.
Proof.
  intros Hmk. apply x9_create_inbox_inv in Hmk as [_ ->].
  unfold slot_at. x9_proj.
  destruct (replicate (Z.to_nat C) (zero_slot (Z.to_nat M)) !! p) as [c |] eqn:Hc;
    [| reflexivity].
  apply lookup_replicate in Hc as [-> _]. reflexivity.
Qed.

Section Broadcast.

Variables (fuel : nat) (spurious : list (list bool)) (node : x9_node)
  (n : Z) (msg : list byte).
Hypothesis first_turns : Forall first_turn_sound spurious.

#[local] Abbreviation written := (written_inbox n msg).

Lemma x9_broadcast_msg_to_all_node_inboxes_at_run : forall todo k mem,
  (k + todo = length (inboxes node))%nat ->
  NoDup (inboxes node) ->
  (forall j r, (k <= j)%nat -> inboxes node !! j = Some r ->
     exists a s, r = Some a /\ inbox_heap mem !! a = Some s /\
       slot_has_data (header (slot_at s (slot_of s (write_idx s)))) = false) ->
  exists mem',
    x9_broadcast_msg_to_all_node_inboxes_at (S fuel) spurious node n msg
      k todo mem = Returned (Some mem') /\
    node_heap mem' = node_heap mem /\
    forall a,
      inbox_heap mem' !! a =
        if decide (Some a ∈ drop k (inboxes node))
        then written <$> inbox_heap mem !! a
        else inbox_heap mem !! a.
Proof.
  induction todo as [| todo IH]; intros k mem Hk Hnd Hlive.
  - exists mem. split; [reflexivity |]. split; [reflexivity |].
    intros a. rewrite drop_ge by lia.
    destruct (decide (Some a ∈ [])) as [Hin | _]; [inversion Hin | reflexivity].
  - cbn [x9_broadcast_msg_to_all_node_inboxes_at].
    destruct (lookup_lt_is_Some_2 (inboxes node) k ltac:(lia)) as [r Hr].
    destruct (Hlive k r ltac:(lia) Hr) as (a & s & -> & Ha & Hfree).
    rewrite Hr, Ha. cbv zeta.
    destruct (x9_write_to_inbox_spin_first fuel (default [] (spurious !! k))
                n msg s (first_turn_sound_lookup spurious k first_turns) Hfree)
      as (Hres & _ & Hfin).
    rewrite Hres, Hfin. fold (written s).
    set (mem1 := set_inbox_heap (<[a := written s]> (inbox_heap mem)) mem).
    assert (forall j r, (S k <= j)%nat -> inboxes node !! j = Some r ->
              r <> Some a) as Hother.
    { intros j r' Hj Hr' ->.
      assert (k = j); [| lia].
      apply (NoDup_lookup _ _ _ _ Hnd Hr Hr'). }
    destruct (IH (S k) mem1) as (mem' & Hrun & Hnodes & Hheap);
      [lia | exact Hnd | |].
    { intros j r' Hj Hr'.
      destruct (Hlive j r' ltac:(lia) Hr') as (a' & s' & -> & Ha' & Hfree').
      exists a', s'. split; [reflexivity |]. split; [| exact Hfree'].
      unfold mem1, set_inbox_heap. cbn [inbox_heap].
      rewrite lookup_insert_ne; [exact Ha' |].
      intros ->. apply (Hother j (Some a') Hj Hr'). reflexivity. }
    exists mem'. split; [exact Hrun |]. split; [exact Hnodes |].
    intros x. rewrite Hheap. unfold mem1, set_inbox_heap. cbn [inbox_heap].
    rewrite (drop_S _ _ _ Hr).
    destruct (decide (x = a)) as [-> | Hne].
    + rewrite lookup_insert_eq, Ha.
      rewrite decide_False.
      * rewrite decide_True by (apply elem_of_cons; now left). reflexivity.
      * intros Hin. apply list_elem_of_lookup in Hin as [j Hj].
        rewrite lookup_drop in Hj.
        apply (Hother (S k + j)%nat (Some a) ltac:(lia) Hj). reflexivity.
    + rewrite lookup_insert_ne by congruence.
      destruct (decide (Some x ∈ drop (S k) (inboxes node))) as [Hin | Hnin].
      * rewrite decide_True by (apply elem_of_cons; now right). reflexivity.
      * rewrite decide_False; [reflexivity |].
        rewrite elem_of_cons. intros [Heq | Hin]; [congruence | contradiction].
Qed.

Lemma x9_broadcast_msg_to_all_node_inboxes_run mem :
  length (inboxes node) = Z.to_nat (n_inboxes node) ->
  NoDup (inboxes node) ->
  (forall j r, inboxes node !! j = Some r ->
     exists a s, r = Some a /\ inbox_heap mem !! a = Some s /\
       slot_has_data (header (slot_at s (slot_of s (write_idx s)))) = false) ->
  exists mem',
    x9_broadcast_msg_to_all_node_inboxes (S fuel) spurious node n msg mem
      = Returned (Some mem') /\
    node_heap mem' = node_heap mem /\
    forall a,
      inbox_heap mem' !! a =
        if decide (Some a ∈ inboxes node)
        then (fun s => final (x9_write_to_inbox n msg s)) <$> inbox_heap mem !! a
        else inbox_heap mem !! a.
Proof.
  intros Hlen Hnd Hlive. unfold x9_broadcast_msg_to_all_node_inboxes.
  rewrite <- Hlen.
  apply (x9_broadcast_msg_to_all_node_inboxes_at_run _ 0 mem);
    [lia | exact Hnd |].
  intros j r _. apply Hlive.
Qed.

End Broadcast.

(** X14: on a node whose references are pairwise different and designate
    allocated inboxes with the slot of the ticket [write_idx] free, and
    when the weak compare-and-swap of the first turn of each of its writes
    does not fail spuriously, [x9_broadcast_msg_to_all_node_inboxes]
    returns, having done to each inbox of the node exactly what one
    successful [x9_write_to_inbox] of the message does; the inboxes outside
    the node and the nodes are as before. *)
Theorem x9_broadcast_writes_each fuel spurious node n msg mem :
  Forall first_turn_sound spurious ->
  length (inboxes node) = Z.to_nat (n_inboxes node) ->
  NoDup (inboxes node) ->
  (forall j r, inboxes node !! j = Some r ->
     exists a s, r = Some a /\ inbox_heap mem !! a = Some s /\
       slot_has_data (header (slot_at s (slot_of s (write_idx s)))) = false) ->
  exists mem',
    x9_broadcast_msg_to_all_node_inboxes (S fuel) spurious node n msg mem
      = Returned (Some mem') /\
    node_heap mem' = node_heap mem /\
    forall a,
      inbox_heap mem' !! a =
        if decide (Some a ∈ inboxes node)
        then (fun s => final (x9_write_to_inbox n msg s)) <$> inbox_heap mem !! a
        else inbox_heap mem !! a.
Proof.
  intros Hfirst. apply x9_broadcast_msg_to_all_node_inboxes_run. exact Hfirst.
Qed.

Lemma x9_broadcast_writes_each_witness :
  exists ib1 ib2,
    x9_create_inbox heap_ok 2 "first" 1 = Some ib1 /\
    x9_create_inbox heap_ok 4 "second" 1 = Some ib2 /\
    let mem := {| inbox_heap := <[1%nat := ib1]> (<[2%nat := ib2]> ∅);
                  node_heap := ∅ |} in
    let node := {| inboxes := [Some 1%nat; Some 2%nat]; n_inboxes := 2;
                   node_name := "node" |} in
    exists mem',
      x9_broadcast_msg_to_all_node_inboxes 3 [[false; true]; []] node 1 [x07] mem
        = Returned (Some mem') /\
      inbox_heap mem' !! 2%nat = Some (final (x9_write_to_inbox 1 [x07] ib2)).
Proof.
  eexists. eexists. split; [reflexivity |]. split; [reflexivity |]. cbv zeta.
  match goal with |- exists mem', x9_broadcast_msg_to_all_node_inboxes _ ?sp ?nd _ _ ?m = _ /\ _ =>
    destruct (x9_broadcast_writes_each 2 sp nd 1 [x07] m
                ltac:(repeat constructor) eq_refl)
      as (mem' & Hrun & _ & Hheap)
  end.
  - apply (bool_decide_unpack _). vm_compute. exact I.
  - intros j r Hr. destruct j as [| [| j]]; try discriminate Hr;
      injection Hr as <-; eexists; eexists; (split; [reflexivity |]); cbn [inbox_heap].
    + split; [apply lookup_insert_eq | reflexivity].
    + split; [rewrite lookup_insert_ne by lia; apply lookup_insert_eq | reflexivity].
  - exists mem'. split; [exact Hrun |]. rewrite Hheap.
    rewrite decide_True by (apply elem_of_cons; right; apply elem_of_cons; now left).
    cbn [inbox_heap]. rewrite lookup_insert_ne by lia. rewrite lookup_insert_eq.
    reflexivity.
Defined.

(** X15: after a broadcast of a message of [M] bytes to a node of freshly
    created inboxes of message size [M], in which the weak compare-and-swap
    of the first turn of each write did not fail spuriously, one
    [x9_read_from_inbox] on each inbox of the node returns [true] with that
    message. *)
Theorem x9_broadcast_then_read fuel spurious node M msg out mem :
  Forall first_turn_sound spurious ->
  length (inboxes node) = Z.to_nat (n_inboxes node) ->
  NoDup (inboxes node) ->
  (forall j r, inboxes node !! j = Some r ->
     exists a s heap C nm, r = Some a /\ inbox_heap mem !! a = Some s /\
       is_uint64 C /\ x9_create_inbox heap C nm M = Some s) ->
  length msg = Z.to_nat M -> length out = Z.to_nat M ->
  exists mem',
    x9_broadcast_msg_to_all_node_inboxes (S fuel) spurious node M msg mem
      = Returned (Some mem') /\
    forall j a, inboxes node !! j = Some (Some a) ->
      exists s', inbox_heap mem' !! a = Some s' /\
        result (x9_read_from_inbox M out s') = (true, msg).
Proof.
  intros Hfirst Hlen Hnd Hfresh Hmsg Hout.
  destruct (x9_broadcast_msg_to_all_node_inboxes_run fuel spurious node M msg
              Hfirst mem Hlen Hnd)
    as (mem' & Hrun & _ & Hheap).
  { intros j r Hr. destruct (Hfresh j r Hr) as (a & s & heap & C & nm & -> & Ha & _ & Hmk).
    exists a, s. split; [reflexivity |]. split; [exact Ha |].
    apply (x9_create_inbox_slots_free _ _ _ _ _ _ Hmk). }
  exists mem'. split; [exact Hrun |].
  intros j a Hj.
  destruct (Hfresh j _ Hj) as (a' & s & heap & C & nm & [= <-] & Ha & HC & Hmk).
  rewrite Hheap, decide_True by (apply list_elem_of_lookup; eauto).
  rewrite Ha. eexists. split; [reflexivity |].
  pose proof (queue_inv_fresh M heap C nm s HC Hmk) as Hinv.
  assert (result (x9_write_to_inbox M msg s) = true) as Hw.
  { destruct (x9_write_to_inbox_run M msg s) as (-> & _).
    rewrite (x9_create_inbox_slots_free _ _ _ _ _ _ Hmk). reflexivity. }
  pose proof (queue_inv_write M 0 [] s msg Hinv Hmsg Hw) as Hinv'.
  apply (queue_inv_read M 0 msg [] _ out Hinv' Hout).
Qed.

Lemma x9_broadcast_then_read_witness :
  exists ib1 ib2,
    x9_create_inbox heap_ok 2 "first" 1 = Some ib1 /\
    x9_create_inbox heap_ok 4 "second" 1 = Some ib2 /\
    let mem := {| inbox_heap := <[1%nat := ib1]> (<[2%nat := ib2]> ∅);
                  node_heap := ∅ |} in
    let node := {| inboxes := [Some 1%nat; Some 2%nat]; n_inboxes := 2;
                   node_name := "node" |} in
    exists mem' s',
      x9_broadcast_msg_to_all_node_inboxes 3 [[]; [false; true]] node 1 [x07] mem
        = Returned (Some mem') /\
      inbox_heap mem' !! 2%nat = Some s' /\
      result (x9_read_from_inbox 1 [x00] s') = (true, [x07]).
Proof.
  eexists. eexists. split; [reflexivity |]. split; [reflexivity |]. cbv zeta.
  match goal with |- exists mem' s', x9_broadcast_msg_to_all_node_inboxes _ ?sp ?nd _ _ ?m = _ /\ _ =>
    destruct (x9_broadcast_then_read 2 sp nd 1 [x07] [x00] m
                ltac:(repeat constructor) eq_refl)
      as (mem' & Hrun & Hread)
  end.
  - apply (bool_decide_unpack _). vm_compute. exact I.
  - intros j r Hr. destruct j as [| [| j]]; try discriminate Hr;
      injection Hr as <-.
    + eexists. eexists. exists heap_ok, 2, "first"%string.
      split; [reflexivity |]. cbn [inbox_heap].
      split; [apply lookup_insert_eq |]. split; [unfold is_uint64; lia | reflexivity].
    + eexists. eexists. exists heap_ok, 4, "second"%string.
      split; [reflexivity |]. cbn [inbox_heap].
      split; [rewrite lookup_insert_ne by lia; apply lookup_insert_eq |].
      split; [unfold is_uint64; lia | reflexivity].
  - reflexivity.
  - reflexivity.
  - destruct (Hread 1%nat 2%nat eq_refl) as (s' & Hs' & Hres).
    exists mem', s'. split; [exact Hrun |]. split; [exact Hs' | exact Hres].
Defined.

(** ** Release *)

Lemma x9_free_node_and_attached_inboxes_at_run nd : forall todo k mem ndk,
  node_heap mem !! nd = Some ndk ->
  (k + todo = length (inboxes ndk))%nat ->
  NoDup (drop k (inboxes ndk)) ->
  (forall a, Some a ∈ drop k (inboxes ndk) -> is_Some (inbox_heap mem !! a)) ->
  exists mem',
    x9_free_node_and_attached_inboxes_at nd k todo mem = Returned mem' /\
    is_Some (node_heap mem' !! nd) /\
    (forall x, x <> nd -> node_heap mem' !! x = node_heap mem !! x) /\
    forall a,
      inbox_heap mem' !! a =
        if decide (Some a ∈ drop k (inboxes ndk)) then None
        else inbox_heap mem !! a.
Proof.
  induction todo as [| todo IH]; intros k mem ndk Hnd Hk Hdistinct Hlive.
  - exists mem. split; [reflexivity |]. split; [rewrite Hnd; eauto |].
    split; [reflexivity |]. intros a. rewrite drop_ge by lia.
    destruct (decide (Some a ∈ [])) as [Hin | _]; [inversion Hin | reflexivity].
  - cbn [x9_free_node_and_attached_inboxes_at]. rewrite Hnd.
    destruct (lookup_lt_is_Some_2 (inboxes ndk) k ltac:(lia)) as [r Hr].
    rewrite Hr. rewrite (drop_S _ _ _ Hr) in Hdistinct, Hlive.
    apply NoDup_cons in Hdistinct as [Hfresh Hdistinct].
    destruct r as [a |].
    + destruct (Hlive a ltac:(apply elem_of_cons; now left)) as [s Hs].
      cbn [x9_free_inbox]. rewrite Hs.
      set (mem1 := set_inbox_heap (delete a (inbox_heap mem)) mem).
      set (nd1 := clear_node_inbox k ndk).
      set (mem2 := set_node_heap (<[nd := nd1]> (node_heap mem1)) mem1).
      destruct (IH (S k) mem2 nd1) as (mem' & Hrun & Hnode & Hothers & Hheap).
      * unfold mem2, set_node_heap. cbn [node_heap]. apply lookup_insert_eq.
      * unfold nd1, clear_node_inbox. cbn [inboxes]. rewrite length_insert. lia.
      * unfold nd1, clear_node_inbox. cbn [inboxes].
        rewrite drop_insert_lt by lia. exact Hdistinct.
      * intros b Hb. unfold nd1, clear_node_inbox in Hb. cbn [inboxes] in Hb.
        rewrite drop_insert_lt in Hb by lia.
        unfold mem2, mem1, set_node_heap, set_inbox_heap. cbn [inbox_heap].
        rewrite lookup_delete_ne by (intros ->; contradiction).
        apply Hlive. apply elem_of_cons. now right.
      * exists mem'. split; [exact Hrun |]. split; [exact Hnode |]. split.
        -- intros x Hx. rewrite (Hothers x Hx).
           unfold mem2, mem1, set_node_heap, set_inbox_heap. cbn [node_heap].
           apply lookup_insert_ne. congruence.
        -- intros x. rewrite Hheap. rewrite (drop_S _ _ _ Hr).
           unfold nd1, clear_node_inbox. cbn [inboxes].
           rewrite drop_insert_lt by lia.
           unfold mem2, mem1, set_node_heap, set_inbox_heap. cbn [inbox_heap].
           destruct (decide (x = a)) as [-> | Hne].
           ++ rewrite lookup_delete_eq.
              rewrite (decide_True (P := Some a ∈ Some a :: _))
                by (apply elem_of_cons; now left).
              destruct (decide _); reflexivity.
           ++ rewrite lookup_delete_ne by congruence.
              destruct (decide (Some x ∈ drop (S k) (inboxes ndk))) as [Hin | Hnin].
              ** rewrite decide_True by (apply elem_of_cons; now right). reflexivity.
              ** rewrite decide_False; [reflexivity |].
                 rewrite elem_of_cons. intros [Heq | Hin]; [congruence | contradiction].
    + destruct (IH (S k) mem ndk Hnd ltac:(lia) Hdistinct)
        as (mem' & Hrun & Hnode & Hothers & Hheap).
      * intros b Hb. apply Hlive. apply elem_of_cons. now right.
      * exists mem'. split; [exact Hrun |]. split; [exact Hnode |].
        split; [exact Hothers |]. intros x. rewrite Hheap.
        rewrite (drop_S _ _ _ Hr).
        destruct (decide (Some x ∈ drop (S k) (inboxes ndk))) as [Hin | Hnin].
        -- rewrite decide_True by (apply elem_of_cons; now right). reflexivity.
        -- rewrite decide_False; [reflexivity |].
           rewrite elem_of_cons. intros [Heq | Hin]; [discriminate | contradiction].
Qed.

Lemma x9_free_node_and_attached_inboxes_run nd node mem :
  node_heap mem !! nd = Some node ->
  length (inboxes node) = Z.to_nat (n_inboxes node) ->
  NoDup (inboxes node) ->
  (forall a, Some a ∈ inboxes node -> is_Some (inbox_heap mem !! a)) ->
  exists mem',
    x9_free_node_and_attached_inboxes nd mem = Returned mem' /\
    (forall x, node_heap mem' !! x =
               if decide (x = nd) then None else node_heap mem !! x) /\
    (forall a, inbox_heap mem' !! a =
               if decide (Some a ∈ inboxes node) then None
               else inbox_heap mem !! a).
Proof.
  intros Hnd Hlen Hdistinct Hlive. unfold x9_free_node_and_attached_inboxes.
  rewrite Hnd, <- Hlen.
  destruct (x9_free_node_and_attached_inboxes_at_run nd
              (length (inboxes node)) 0 mem node Hnd ltac:(lia) Hdistinct Hlive)
    as (mem1 & -> & [nd1 Hnd1] & Hothers & Hheap).
  unfold x9_free_node. rewrite Hnd1.
  eexists. split; [reflexivity |]. unfold set_node_heap.
  cbn [node_heap inbox_heap]. split.
  - intros x. destruct (decide (x = nd)) as [-> | Hne].
    + apply lookup_delete_eq.
    + rewrite lookup_delete_ne by congruence. apply Hothers, Hne.
  - exact Hheap.
Qed.

(** A node that holds the address of an inbox that is not allocated cannot
    be released together with its inboxes. *)
Lemma x9_free_node_and_attached_inboxes_at_dangling nd a : forall todo k mem ndk,
  node_heap mem !! nd = Some ndk ->
  (k + todo = length (inboxes ndk))%nat ->
  Some a ∈ drop k (inboxes ndk) -> inbox_heap mem !! a = None ->
  x9_free_node_and_attached_inboxes_at nd k todo mem = Undefined.
Proof.
  induction todo as [| todo IH]; intros k mem ndk Hnd Hk Hin Hgone.
  - rewrite drop_ge in Hin by lia. inversion Hin.
  - cbn [x9_free_node_and_attached_inboxes_at]. rewrite Hnd.
    destruct (lookup_lt_is_Some_2 (inboxes ndk) k ltac:(lia)) as [r Hr].
    rewrite Hr. rewrite (drop_S _ _ _ Hr) in Hin.
    apply elem_of_cons in Hin as [<- | Hin].
    { cbn [x9_free_inbox]. rewrite Hgone. reflexivity. }
    destruct r as [b |].
    + cbn [x9_free_inbox].
      destruct (inbox_heap mem !! b) as [s |] eqn:Hb; [| reflexivity].
      apply (IH (S k) _ (clear_node_inbox k ndk)).
      * unfold set_node_heap. cbn [node_heap]. apply lookup_insert_eq.
      * unfold clear_node_inbox. cbn [inboxes]. rewrite length_insert. lia.
      * unfold clear_node_inbox. cbn [inboxes].
        rewrite drop_insert_lt by lia. exact Hin.
      * unfold set_node_heap, set_inbox_heap. cbn [inbox_heap].
        apply lookup_delete_None. now right.
    + apply (IH (S k) mem ndk Hnd ltac:(lia) Hin Hgone).
Qed.

(** X16: [x9_free_node_and_attached_inboxes], on a node whose references
    are pairwise different and whose non-null references designate
    allocated inboxes, is defined: it releases the node and each of those
    inboxes once, and leaves every other inbox and node allocated. *)
Theorem x9_free_node_and_attached_inboxes_releases nd node mem :
  node_heap mem !! nd = Some node ->
  length (inboxes node) = Z.to_nat (n_inboxes node) ->
  NoDup (inboxes node) ->
  (forall a, Some a ∈ inboxes node -> is_Some (inbox_heap mem !! a)) ->
  exists mem',
    x9_free_node_and_attached_inboxes nd mem = Returned mem' /\
    (forall x, node_heap mem' !! x =
               if decide (x = nd) then None else node_heap mem !! x) /\
    (forall a, inbox_heap mem' !! a =
               if decide (Some a ∈ inboxes node) then None
               else inbox_heap mem !! a).
Proof. apply x9_free_node_and_attached_inboxes_run. Qed.

(** X17: when two nodes hold the same inbox, releasing the first node
    together with its inboxes makes the same call on the second node
    undefined: the shared inbox would be released twice. *)
Theorem x9_free_node_and_attached_inboxes_shared nd1 nd2 node1 node2 a mem :
  nd1 <> nd2 ->
  node_heap mem !! nd1 = Some node1 -> node_heap mem !! nd2 = Some node2 ->
  length (inboxes node1) = Z.to_nat (n_inboxes node1) ->
  length (inboxes node2) = Z.to_nat (n_inboxes node2) ->
  NoDup (inboxes node1) ->
  (forall b, Some b ∈ inboxes node1 -> is_Some (inbox_heap mem !! b)) ->
  Some a ∈ inboxes node1 -> Some a ∈ inboxes node2 ->
  exists mem1,
    x9_free_node_and_attached_inboxes nd1 mem = Returned mem1 /\
    x9_free_node_and_attached_inboxes nd2 mem1 = Undefined.
Proof.
  intros Hne Hnd1 Hnd2 Hlen1 Hlen2 Hdistinct Hlive Hin1 Hin2.
  destruct (x9_free_node_and_attached_inboxes_run nd1 node1 mem
              Hnd1 Hlen1 Hdistinct Hlive) as (mem1 & Hrun & Hnodes & Hheap).
  exists mem1. split; [exact Hrun |].
  unfold x9_free_node_and_attached_inboxes.
  rewrite Hnodes, decide_False by congruence. rewrite Hnd2, <- Hlen2.
  rewrite (x9_free_node_and_attached_inboxes_at_dangling nd2 a
             (length (inboxes node2)) 0 mem1 node2); [reflexivity | | lia | | ].
  - rewrite Hnodes, decide_False by congruence. exact Hnd2.
  - exact Hin2.
  - rewrite Hheap, decide_True by exact Hin1. reflexivity.
Qed.

Lemma x9_free_node_and_attached_inboxes_releases_witness :
  exists ib1 ib2,
    x9_create_inbox heap_ok 2 "first" 1 = Some ib1 /\
    x9_create_inbox heap_ok 4 "second" 1 = Some ib2 /\
    let node := {| inboxes := [Some 1%nat; Some 2%nat]; n_inboxes := 2;
                   node_name := "node" |} in
    let mem := {| inbox_heap := <[1%nat := ib1]> (<[2%nat := ib2]> ∅);
                  node_heap := <[7%nat := node]> ∅ |} in
    exists mem',
      x9_free_node_and_attached_inboxes 7 mem = Returned mem' /\
      inbox_heap mem' !! 1%nat = None /\ inbox_heap mem' !! 2%nat = None /\
      node_heap mem' !! 7%nat = None.
Proof.
  eexists. eexists. split; [reflexivity |]. split; [reflexivity |]. cbv zeta.
  match goal with |- exists mem', x9_free_node_and_attached_inboxes _ ?m = _ /\ _ =>
    destruct (x9_free_node_and_attached_inboxes_releases 7
                {| inboxes := [Some 1%nat; Some 2%nat]; n_inboxes := 2;
                   node_name := "node" |} m)
      as (mem' & Hrun & Hnodes & Hheap)
  end.
  - cbn [node_heap]. apply lookup_insert_eq.
  - reflexivity.
  - apply (bool_decide_unpack _). vm_compute. exact I.
  - intros b Hb. cbn [inboxes inbox_heap] in *.
    apply elem_of_cons in Hb as [[= ->] | Hb].
    { rewrite lookup_insert_eq. eauto. }
    apply elem_of_cons in Hb as [[= ->] | Hb]; [| inversion Hb].
    rewrite lookup_insert_ne, lookup_insert_eq by lia. eauto.
  - exists mem'. split; [exact Hrun |]. rewrite !Hheap, Hnodes.
    cbn [inboxes].
    rewrite !decide_True; repeat split; try reflexivity;
      try (apply elem_of_cons; now left);
      apply elem_of_cons; right; apply elem_of_cons; now left.
Defined.

Lemma x9_free_node_and_attached_inboxes_shared_witness :
  exists ib1 ib2,
    x9_create_inbox heap_ok 2 "first" 1 = Some ib1 /\
    x9_create_inbox heap_ok 4 "second" 1 = Some ib2 /\
    let node1 := {| inboxes := [Some 1%nat; Some 2%nat]; n_inboxes := 2;
                    node_name := "one" |} in
    let node2 := {| inboxes := [Some 2%nat]; n_inboxes := 1;
                    node_name := "two" |} in
    let mem := {| inbox_heap := <[1%nat := ib1]> (<[2%nat := ib2]> ∅);
                  node_heap := <[7%nat := node1]> (<[8%nat := node2]> ∅) |} in
    exists mem1,
      x9_free_node_and_attached_inboxes 7 mem = Returned mem1 /\
      x9_free_node_and_attached_inboxes 8 mem1 = Undefined.
Proof.
  eexists. eexists. split; [reflexivity |]. split; [reflexivity |]. cbv zeta.
  match goal with |- exists mem1, x9_free_node_and_attached_inboxes _ ?m = _ /\ _ =>
    apply (x9_free_node_and_attached_inboxes_shared 7 8
             {| inboxes := [Some 1%nat; Some 2%nat]; n_inboxes := 2;
                node_name := "one" |}
             {| inboxes := [Some 2%nat]; n_inboxes := 1; node_name := "two" |}
             2%nat m)
  end.
  - lia.
  - cbn [node_heap]. apply lookup_insert_eq.
  - cbn [node_heap]. rewrite lookup_insert_ne by lia. apply lookup_insert_eq.
  - reflexivity.
  - reflexivity.
  - apply (bool_decide_unpack _). vm_compute. exact I.
  - intros b Hb. cbn [inboxes inbox_heap] in *.
    apply elem_of_cons in Hb as [[= ->] | Hb].
    { rewrite lookup_insert_eq. eauto. }
    apply elem_of_cons in Hb as [[= ->] | Hb]; [| inversion Hb].
    rewrite lookup_insert_ne, lookup_insert_eq by lia. eauto.
  - cbn [inboxes]. apply elem_of_cons; right; apply elem_of_cons; now left.
  - cbn [inboxes]. apply elem_of_cons; now left.
Defined.

(** ** The inbox as a bounded queue *)

Section Fifo.

Variables (C M B : Z).
Hypothesis C_legal : 2 <= C < 2 ^ 64.
Hypothesis B_range : 0 <= B < 2 ^ 64.
Hypothesis B_exact : x9_excess C * B < 2 ^ 64.

(** Up to the counter value [B] the tickets are the remainders. *)
Lemma ticket_exact s j :
  sz s = C -> constant s = x9_constant C -> Z.of_nat j <= B ->
  ticket s j = Z.to_nat (Z.of_nat j mod C).
Proof.
  intros Hsz Hk Hj. unfold ticket, slot_of. rewrite Hsz, Hk.
  rewrite wrap64_small by lia.
  pose proof (x9_excess_bound C ltac:(lia)) as He.
  rewrite x9_idx_of_exact; [reflexivity | lia | lia | lia | nia].
Qed.

Lemma mod_apart a d : 0 <= a -> 0 < d < C -> a mod C <> (a + d) mod C.
Proof.
  intros Ha Hd Heq.
  assert ((a + d - a) mod C = 0) as H0.
  { rewrite Zminus_mod, <- Heq, Z.sub_diag. apply Z.mod_0_l. lia. }
  replace (a + d - a) with d in H0 by lia.
  rewrite Z.mod_small in H0 by lia. lia.
Qed.

Lemma ticket_apart s i j :
  sz s = C -> constant s = x9_constant C ->
  (i < j)%nat -> Z.of_nat j - Z.of_nat i < C -> Z.of_nat j <= B ->
  ticket s i <> ticket s j.
Proof.
  intros Hsz Hk Hij Hd Hj.
  rewrite !ticket_exact by (try assumption; lia).
  pose proof (Z.mod_pos_bound (Z.of_nat i) C ltac:(lia)).
  pose proof (Z.mod_pos_bound (Z.of_nat j) C ltac:(lia)).
  intros Heq. apply Z2Nat.inj in Heq; [| lia | lia].
  apply (mod_apart (Z.of_nat i) (Z.of_nat j - Z.of_nat i)); [lia | lia |].
  rewrite Heq. f_equal. lia.
Qed.

Lemma ticket_round s i :
  sz s = C -> constant s = x9_constant C ->
  Z.of_nat i + C <= B ->
  ticket s (i + Z.to_nat C) = ticket s i.
Proof.
  intros Hsz Hk Hi. rewrite !ticket_exact by (try assumption; lia).
  f_equal. rewrite Nat2Z.inj_add, Z2Nat.id by lia.
  replace (Z.of_nat i + C) with (Z.of_nat i + 1 * C) by lia.
  apply Z.mod_add. lia.
Qed.


Lemma slot_at_update_slot_eq f p s c :
  msgs s !! p = Some c -> slot_at (update_slot f p s) p = f c.
Proof.
  intros Hc. unfold slot_at, update_slot. x9_proj.
  rewrite list_lookup_alter_eq, Hc. reflexivity.
Qed.

Lemma slot_at_update_slot_ne f p p' s :
  p <> p' -> slot_at (update_slot f p s) p' = slot_at s p'.
Proof.
  intros Hne. unfold slot_at, update_slot. x9_proj.
  rewrite list_lookup_alter_ne by exact Hne. reflexivity.
Qed.

(** An update that keeps the [shared] flag of the slot keeps all of them. *)
Lemma shared_update_slot f p p' s :
  (forall c, shared (header (f c)) = shared (header c)) ->
  shared (header (slot_at (update_slot f p s) p'))
    = shared (header (slot_at s p')).
Proof.
  intros Hf. destruct (decide (p = p')) as [<- | Hne].
  - destruct (msgs s !! p) as [c |] eqn:Hc.
    + rewrite (slot_at_update_slot_eq _ _ _ _ Hc), (slot_at_lookup _ _ _ Hc).
      apply Hf.
    + rewrite update_slot_id; [reflexivity |]. intros c Hc'. congruence.
  - rewrite slot_at_update_slot_ne by exact Hne. reflexivity.
Qed.

Lemma fifo_inv_write q pend s msg :
  fifo_inv C M q pend s -> length msg = Z.to_nat M ->
  Z.of_nat (q + length pend) + 1 <= B ->
  let r := x9_write_to_inbox M msg s in
  if (length pend <? Z.to_nat C)%nat
  then result r = true /\ fifo_inv C M q (pend ++ [msg]) (final r)
  else result r = false /\ final r = s.
Proof.
  intros (Hq & Hsz & Hk & Hlen & Hsh & Hfree) Hmsg Hroom. cbv zeta.
  pose proof Hq as (Hwf & Hrd & Hwr & Hheld & Hinj).
  destruct (x9_write_to_inbox_run M msg s) as (Hres & Hfin & _).
  assert (slot_of s (write_idx s) = ticket s (q + length pend)) as Hp
    by (unfold ticket; rewrite Hwr; reflexivity).
  rewrite Hp in Hres, Hfin.
  destruct (Nat.ltb_spec (length pend) (Z.to_nat C)) as [Hlt | Hge].
  - assert (slot_has_data (header (slot_at s (ticket s (q + length pend)))) = false)
      as Hempty.
    { apply Hfree. intros j Hj.
      apply ticket_apart; try assumption; lia. }
    rewrite Hempty in Hres, Hfin. cbn [negb] in Hres.
    split; [exact Hres |].
    pose proof (queue_inv_write M q pend s msg Hq Hmsg Hres) as Hq'.
    rewrite Hfin in Hq' |- *.
    split; [exact Hq' |]. split; [exact Hsz |]. split; [exact Hk |].
    split; [rewrite length_app; simpl; lia |]. split.
    + intros p. rewrite slot_at_set_write_idx.
      rewrite shared_update_slot by reflexivity. apply Hsh.
    + intros p Hp'. rewrite slot_at_set_write_idx.
      assert (ticket s (q + length pend) <> p) as Hne.
      { apply (Hp' (length pend)). rewrite length_app. simpl. lia. }
      rewrite slot_at_update_slot_ne by exact Hne.
      apply Hfree. intros j Hj. apply (Hp' j). rewrite length_app. lia.
  - assert (length pend = Z.to_nat C) as Hfull by lia.
    destruct pend as [| m pend'];
      [simpl in Hfull; lia |].
    assert (ticket s (q + length (m :: pend')) = ticket s (q + 0)) as Hround.
    { rewrite Hfull, Nat.add_0_r. apply ticket_round; try assumption.
      rewrite Nat2Z.inj_add, Hfull, Z2Nat.id in Hroom by lia. lia. }
    rewrite Hround in Hres, Hfin.
    rewrite (holds_msg_flag M _ _ _ (Hheld 0%nat m eq_refl)) in Hres, Hfin.
    split; assumption.
Qed.

Lemma fifo_inv_read q pend s out :
  fifo_inv C M q pend s -> length out = Z.to_nat M ->
  Z.of_nat (q + length pend) <= B ->
  let r := x9_read_from_inbox M out s in
  match pend with
  | [] => result r = (false, out) /\ final r = s
  | msg :: pend' => result r = (true, msg) /\ fifo_inv C M (S q) pend' (final r)
  end.
Proof.
  intros (Hq & Hsz & Hk & Hlen & Hsh & Hfree) Hout Hroom. cbv zeta.
  pose proof Hq as (Hwf & Hrd & Hwr & Hheld & Hinj).
  assert (slot_of s (read_idx s) = ticket s (q + 0)) as Hp
    by (unfold ticket; rewrite Hrd, Nat.add_0_r; reflexivity).
  destruct pend as [| msg pend'].
  - destruct (x9_read_from_inbox_run M out s) as (Hres & Hfin).
    rewrite Hp in Hres, Hfin.
    rewrite Hfree in Hres, Hfin by (intros j Hj; simpl in Hj; lia).
    split; assumption.
  - destruct (queue_inv_read M q msg pend' s out Hq Hout) as (Hres & Hq').
    split; [exact Hres |].
    destruct (x9_read_from_inbox_run M out s) as (Hres' & Hfin).
    rewrite Hp in Hres', Hfin.
    destruct (Hheld 0%nat msg eq_refl) as (c & Hc & Hdata & Hready & _).
    rewrite (slot_at_lookup _ _ _ Hc), Hdata, Hready in Hfin. cbn [andb] in Hfin.
    rewrite Hfin in Hq' |- *.
    split; [exact Hq' |]. split; [exact Hsz |]. split; [exact Hk |].
    split; [simpl in Hlen; lia |]. split.
    + intros p. rewrite slot_at_set_read_idx.
      rewrite shared_update_slot by reflexivity. apply Hsh.
    + intros p Hp'. rewrite slot_at_set_read_idx.
      destruct (decide (ticket s (q + 0) = p)) as [<- | Hne].
      * rewrite (slot_at_update_slot_eq _ _ _ _ Hc). reflexivity.
      * rewrite slot_at_update_slot_ne by exact Hne.
        apply Hfree. intros j Hj. destruct j as [| j]; [exact Hne |].
        replace (q + S j)%nat with (S q + j)%nat by lia.
        apply (Hp' j). simpl in Hj. lia.
Qed.

Lemma fifo_inv_read_shared q pend s out :
  fifo_inv C M q pend s ->
  result (x9_read_from_shared_inbox M out s) = result (x9_read_from_inbox M out s) /\
  final (x9_read_from_shared_inbox M out s) = final (x9_read_from_inbox M out s).
Proof.
  intros (_ & _ & _ & _ & Hsh & _).
  destruct (x9_read_from_shared_inbox_run M out s) as (-> & ->).
  destruct (x9_read_from_inbox_run M out s) as (-> & ->).
  rewrite Hsh. split; reflexivity.
Qed.

Lemma fifo_inv_fresh heap nm inbox :
  x9_create_inbox heap C nm M = Some inbox -> fifo_inv C M 0 [] inbox.
Proof.
  intros Hmk.
  split; [apply (queue_inv_fresh M heap C nm); [unfold is_uint64; lia | exact Hmk] |].
  pose proof (fun p => x9_create_inbox_slots_free _ _ _ _ _ p Hmk) as Hfree.
  pose proof Hmk as Hmk'. apply x9_create_inbox_inv in Hmk' as [_ ->].
  x9_proj. split; [reflexivity |]. split; [reflexivity |].
  split; [simpl; lia |]. split.
  - intros p. unfold slot_at. x9_proj.
    destruct (replicate (Z.to_nat C) (zero_slot (Z.to_nat M)) !! p) as [c |] eqn:Hc;
      [| reflexivity].
    apply lookup_replicate in Hc as [-> _]. reflexivity.
  - intros p _. apply Hfree.
Qed.

Lemma x9_calls_trace_fifo : forall cs q pend s,
  fifo_inv C M q pend s -> Forall (call_fits M) cs ->
  Z.of_nat (q + length pend + length cs) <= B ->
  result (x9_calls_trace cs s) = fifo_trace (Z.to_nat C) pend cs.
Proof.
  induction cs as [| c cs IH]; intros q pend s Hinv Hfit Hroom; [reflexivity |].
  apply Forall_cons in Hfit as [Hc Hfit].
  cbn [x9_calls_trace fifo_trace length] in *. autorewrite with x9_run.
  destruct c as [n msg | n out | n out]; destruct Hc as [-> Hbuf];
    cbn [x9_call_trace].
  - autorewrite with x9_run.
    pose proof (fifo_inv_write q pend s msg Hinv Hbuf ltac:(lia)) as Hw.
    cbv zeta in Hw.
    destruct (length pend <? Z.to_nat C)%nat; destruct Hw as [-> Hfin]; f_equal.
    + apply (IH q); [exact Hfin | exact Hfit |]. rewrite length_app. simpl. lia.
    + rewrite Hfin. apply (IH q); [exact Hinv | exact Hfit | lia].
  - pose proof (fifo_inv_read q pend s out Hinv Hbuf ltac:(lia)) as Hr.
    cbv zeta in Hr.
    destruct pend as [| msg pend']; destruct Hr as [-> Hfin]; f_equal.
    + rewrite Hfin. apply (IH q); [exact Hinv | exact Hfit | simpl in *; lia].
    + apply (IH (S q)); [exact Hfin | exact Hfit | simpl in *; lia].
  - destruct (fifo_inv_read_shared q pend s out Hinv) as (-> & ->).
    pose proof (fifo_inv_read q pend s out Hinv Hbuf ltac:(lia)) as Hr.
    cbv zeta in Hr.
    destruct pend as [| msg pend']; destruct Hr as [-> Hfin]; f_equal.
    + rewrite Hfin. apply (IH q); [exact Hinv | exact Hfit | simpl in *; lia].
    + apply (IH (S q)); [exact Hfin | exact Hfit | simpl in *; lia].
Qed.

End Fifo.

(** X18: a fresh inbox of capacity [C] is a first-in first-out queue of at
    most [C] messages.  Any sequence of [x9_write_to_inbox],
    [x9_read_from_inbox] and [x9_read_from_shared_inbox] calls, made one
    after the other with the message size of the inbox, gives call by call
    the results and the buffers of that queue: a write is refused exactly
    when [C] messages are pending, a read fails exactly when none is, and a
    successful read delivers the oldest pending message.  This holds as long
    as the counters stay where the index is the remainder, which is for any
    number of calls below 2^64 when [C] is a power of two. *)
Theorem x9_inbox_is_bounded_queue heap C nm M inbox cs :
  is_uint64 C -> x9_create_inbox heap C nm M = Some inbox ->
  Forall (call_fits M) cs ->
  Z.of_nat (length cs) < 2 ^ 64 ->
  x9_excess C * Z.of_nat (length cs) < 2 ^ 64 ->
  result (x9_calls_trace cs inbox) = fifo_trace (Z.to_nat C) [] cs.
Proof.
  intros HC Hmk Hfit Hlen Hexact. unfold is_uint64 in HC.
  assert (2 <= C) as H2.
  { pose proof Hmk as Hmk'. apply x9_create_inbox_inv in Hmk' as [[Hpos Heven] _].
    destruct (Z.eq_dec C 1) as [-> |]; [discriminate | lia]. }
  apply (x9_calls_trace_fifo C M (Z.of_nat (length cs)) ltac:(lia) ltac:(lia)
           Hexact cs 0 [] inbox).
  - apply (fifo_inv_fresh C M ltac:(lia) heap nm). exact Hmk.
  - exact Hfit.
  - simpl. lia.
Qed.

Lemma x9_inbox_is_bounded_queue_witness :
  exists inbox,
    is_uint64 2 /\ x9_create_inbox heap_ok 2 "ibx" 1 = Some inbox /\
    let cs := [Read_from_inbox 1 [x00]; Write_to_inbox 1 [x01];
               Write_to_inbox 1 [x02]; Write_to_inbox 1 [x03];
               Read_from_shared_inbox 1 [x00]; Write_to_inbox 1 [x04];
               Read_from_inbox 1 [x00]; Read_from_inbox 1 [x00];
               Read_from_inbox 1 [x09]] in
    Forall (call_fits 1) cs /\
    result (x9_calls_trace cs inbox)
      = [(false, [x00]); (true, [x01]); (true, [x02]); (false, [x03]);
         (true, [x01]); (true, [x04]); (true, [x02]); (true, [x04]);
         (false, [x09])].
Proof.
  eexists. split; [unfold is_uint64; lia |]. split; [reflexivity |]. cbv zeta.
  assert (Forall (call_fits 1)
            [Read_from_inbox 1 [x00]; Write_to_inbox 1 [x01];
             Write_to_inbox 1 [x02]; Write_to_inbox 1 [x03];
             Read_from_shared_inbox 1 [x00]; Write_to_inbox 1 [x04];
             Read_from_inbox 1 [x00]; Read_from_inbox 1 [x00];
             Read_from_inbox 1 [x09]]) as Hfit by (repeat constructor).
  split; [exact Hfit |].
  rewrite (x9_inbox_is_bounded_queue heap_ok 2 "ibx" 1 _ _
             ltac:(unfold is_uint64; lia) eq_refl Hfit);
    [reflexivity | simpl; lia | vm_compute; reflexivity].
Defined.

(** ** The spinning pair *)

Section SpinPair.

Variables (C M B : Z) (fuel : nat).
Hypothesis C_legal : 2 <= C < 2 ^ 64.
Hypothesis B_range : 0 <= B < 2 ^ 64.
Hypothesis B_exact : x9_excess C * B < 2 ^ 64.

Lemma spin_producer_run : forall batch spurious q pend s,
  Forall first_turn_sound spurious ->
  fifo_inv C M q pend s ->
  Forall (fun msg => length msg = Z.to_nat M) batch ->
  Z.of_nat (length pend + length batch) <= C ->
  Z.of_nat (q + length pend + length batch) <= B ->
  result (spin_producer (S fuel) spurious M batch s)
    = replicate (length batch) (Some 1%nat) /\
  fifo_inv C M q (pend ++ batch)
    (final (spin_producer (S fuel) spurious M batch s)).
Proof.
  induction batch as [| msg batch IH];
    intros spurious q pend s Hfirst Hinv Hfit Hcap Hroom.
  - rewrite app_nil_r. split; [reflexivity | exact Hinv].
  - apply Forall_cons in Hfit as [Hmsg Hfit].
    cbn [spin_producer length replicate] in *. autorewrite with x9_run.
    pose proof (fifo_inv_write C M B C_legal B_range B_exact q pend s msg
                  Hinv Hmsg ltac:(lia)) as Hw.
    cbv zeta in Hw.
    destruct (Nat.ltb_spec (length pend) (Z.to_nat C)) as [_ | Hge]; [| lia].
    destruct Hw as [Hres Hinv'].
    assert (slot_has_data (header (slot_at s (slot_of s (write_idx s)))) = false)
      as Hfree.
    { destruct (x9_write_to_inbox_run M msg s) as (Hres' & _).
      rewrite Hres' in Hres. apply Bool.negb_true_iff, Hres. }
    destruct (x9_write_to_inbox_spin_first fuel (default [] (head spurious))
                M msg s) as (-> & _ & ->);
      [destruct Hfirst; [reflexivity | assumption] | exact Hfree |].
    destruct (IH (tail spurious) q (pend ++ [msg]) _
                ltac:(destruct Hfirst; [constructor | assumption]) Hinv' Hfit)
      as (-> & Hfin).
    + rewrite length_app. simpl. lia.
    + rewrite length_app. simpl. lia.
    + split; [reflexivity |]. rewrite <- app_assoc in Hfin. exact Hfin.
Qed.

Lemma spin_consumer_run : forall pend q s out,
  fifo_inv C M q pend s ->
  Forall (fun msg => length msg = Z.to_nat M) pend ->
  length out = Z.to_nat M ->
  Z.of_nat (q + length pend) <= B ->
  result (spin_consumer (S fuel) M (length pend) out s)
    = map (fun msg => (Some 1%nat, msg)) pend.
Proof.
  induction pend as [| msg pend IH]; intros q s out Hinv Hfit Hout Hroom;
    [reflexivity |].
  apply Forall_cons in Hfit as [Hmsg Hfit].
  cbn [spin_consumer length map] in *. autorewrite with x9_run.
  pose proof (fifo_inv_read C M B q (msg :: pend) s out
                Hinv Hout ltac:(simpl; lia)) as [Hres Hinv'].
  pose proof (x9_read_from_inbox_spin_run fuel M out s) as Hspin.
  cbv zeta in Hspin.
  destruct (slot_ready s (slot_of s (read_idx s))) eqn:Hready.
  - destruct Hspin as (-> & _ & ->). rewrite Hres. cbn [snd]. f_equal.
    apply (IH (S q)); [exact Hinv' | exact Hfit | exact Hmsg | simpl in *; lia].
  - destruct (x9_read_from_inbox_run M out s) as (Hres' & _).
    unfold slot_ready in Hready. rewrite Hready in Hres'. congruence.
Qed.

End SpinPair.

(** X19: on a fresh inbox of capacity [C] up to 2^32, when the weak
    compare-and-swap of the first turn of each write does not fail
    spuriously, a producer that writes [n <= C] messages with
    [x9_write_to_inbox_spin] and a consumer that then reads [n] times with
    [x9_read_from_inbox_spin] both return in the first turn of every call,
    and the consumer gets the messages byte for byte in the order they were
    written. *)
Theorem x9_spin_write_read_roundtrip
    heap C nm M inbox batch out fuel fuel' spurious :
  Forall first_turn_sound spurious ->
  C <= 2 ^ 32 -> x9_create_inbox heap C nm M = Some inbox ->
  Forall (fun msg => length msg = Z.to_nat M) batch ->
  length out = Z.to_nat M ->
  Z.of_nat (length batch) <= C ->
  let w := spin_producer (S fuel) spurious M batch inbox in
  result w = replicate (length batch) (Some 1%nat) /\
  result (spin_consumer (S fuel') M (length batch) out (final w))
    = map (fun msg => (Some 1%nat, msg)) batch.
Proof.
  intros Hfirst HC Hmk Hfit Hout Hlen. cbv zeta.
  assert (2 <= C) as H2.
  { pose proof Hmk as Hmk'. apply x9_create_inbox_inv in Hmk' as [[Hpos Heven] _].
    destruct (Z.eq_dec C 1) as [-> |]; [discriminate | lia]. }
  pose proof (x9_excess_bound C ltac:(lia)) as He.
  assert (x9_excess C * C < 2 ^ 64) as Hexact.
  { assert (x9_excess C * C <= 2 ^ 32 * 2 ^ 32) by nia.
    destruct (Z.eq_dec (x9_excess C * C) (2 ^ 32 * 2 ^ 32)) as [Heq |]; [| lia].
    exfalso. assert (C = 2 ^ 32) as -> by nia. vm_compute in Heq. discriminate. }
  destruct (spin_producer_run C M C fuel ltac:(lia) ltac:(lia) Hexact
              batch spurious 0 [] inbox Hfirst) as (Hres & Hinv).
  - apply (fifo_inv_fresh C M ltac:(lia) heap nm). exact Hmk.
  - exact Hfit.
  - simpl. lia.
  - simpl. lia.
  - split; [exact Hres |].
    apply (spin_consumer_run C M C fuel' batch 0 _ out Hinv Hfit Hout).
    simpl. lia.
Qed.

Lemma x9_spin_write_read_roundtrip_witness :
  exists inbox,
    4 <= 2 ^ 32 /\ x9_create_inbox heap_ok 4 "ibx" 2 = Some inbox /\
    let batch := [[x01; x02]; [x03; x04]; [x05; x06]] in
    let w := spin_producer 2 [[]; [false; true]] 2 batch inbox in
    result w = [Some 1%nat; Some 1%nat; Some 1%nat] /\
    result (spin_consumer 1 2 3 [x00; x00] (final w))
      = [(Some 1%nat, [x01; x02]); (Some 1%nat, [x03; x04]);
         (Some 1%nat, [x05; x06])].
Proof.
  eexists. split; [lia |]. split; [reflexivity |]. cbv zeta.
  apply (x9_spin_write_read_roundtrip heap_ok 4 "ibx" 2 _
           [[x01; x02]; [x03; x04]; [x05; x06]] [x00; x00] 1 0
           [[]; [false; true]]).
  - repeat constructor.
  - lia.
  - reflexivity.
  - repeat constructor.
  - reflexivity.
  - simpl. lia.
Defined.

(** ** Variadic arguments *)

Lemma x9_create_node_attach_more : forall todo k argp more l,
  length argp = todo ->
  x9_create_node_attach k todo (argp ++ more) l = x9_create_node_attach k todo argp l.
Proof.
  induction todo as [| todo IH]; intros k argp more l Hlen; [reflexivity |].
  destruct argp as [| x argp]; [discriminate |]. injection Hlen as Hlen.
  cbn [app x9_create_node_attach].
  destruct k as [| k].
  - apply IH, Hlen.
  - destruct (x9_create_node_scan x (S k) 0 (S k) l); [| reflexivity].
    apply IH, Hlen.
Qed.

(** X20: [x9_create_node] reads exactly [n_inboxes] of its variadic
    arguments: arguments passed beyond that number change nothing in what
    it returns. *)
Theorem x9_create_node_ignores_extra heap nm n args more :
  length args = Z.to_nat n ->
  x9_create_node heap nm n (args ++ more) = x9_create_node heap nm n args.
Proof.
  intros Hlen. unfold x9_create_node.
  rewrite x9_create_node_attach_more by exact Hlen. reflexivity.
Qed.

Lemma x9_create_node_ignores_extra_witness :
  length [Some 1%nat; Some 2%nat] = Z.to_nat 2 /\
  x9_create_node node_heap_ok "node" 2 ([Some 1%nat; Some 2%nat] ++ [Some 1%nat; None])
    = x9_create_node node_heap_ok "node" 2 [Some 1%nat; Some 2%nat].
Proof.
  split; [reflexivity |].
  apply (x9_create_node_ignores_extra node_heap_ok "node" 2). reflexivity.
Defined.

(** ** What no call changes *)

Lemma same_shape_refl s : same_shape s s.
Proof. repeat split. Qed.

Lemma same_shape_trans s1 s2 s3 :
  same_shape s1 s2 -> same_shape s2 s3 -> same_shape s1 s3.
Proof.
  intros (? & ? & ? & ? & ?) (? & ? & ? & ? & ?). repeat split; congruence.
Qed.

Lemma same_shape_update_slot f p s : same_shape s (update_slot f p s).
Proof.
  unfold same_shape, update_slot. x9_proj. rewrite length_alter. repeat split.
Qed.

Lemma same_shape_set_write_idx v s : same_shape s (set_write_idx v s).
Proof. repeat split. Qed.

Lemma same_shape_set_read_idx v s : same_shape s (set_read_idx v s).
Proof. repeat split. Qed.

Lemma same_shape_iter f n s :
  (forall s', same_shape s' (f s')) -> same_shape s (Nat.iter n f s).
Proof.
  intros Hf. induction n as [| n IH]; [apply same_shape_refl |].
  simpl. eapply same_shape_trans; [exact IH | apply Hf].
Qed.

(** X21: no write and no read, non-blocking or spinning, returning or
    not, changes the capacity, the message size, the constant, the name or
    the number of slots of the inbox; a well-formed inbox stays well
    formed. *)
Theorem x9_calls_keep_shape s n msg out fuel spurious :
  let keeps (s' : x9_inbox) :=
    same_shape s s' /\ (x9_inbox_wf s -> x9_inbox_wf s') in
  keeps (final (x9_write_to_inbox n msg s)) /\
  keeps (final (x9_write_to_inbox_spin fuel spurious n msg s)) /\
  keeps (final (x9_read_from_inbox n out s)) /\
  keeps (final (x9_read_from_inbox_spin fuel n out s)) /\
  keeps (final (x9_read_from_shared_inbox n out s)) /\
  keeps (final (x9_read_from_shared_inbox_spin fuel n out s)).
Proof.
  cbv zeta.
  assert (forall s', same_shape s s' ->
            same_shape s s' /\ (x9_inbox_wf s -> x9_inbox_wf s')) as Hkeeps.
  { intros s' Hsh. split; [exact Hsh |]. destruct Hsh as (Hsz & _ & _ & _ & Hlen).
    intros [H1 H2]. split; congruence. }
  split; [| split; [| split; [| split; [| split]]]]; apply Hkeeps; clear Hkeeps.
  - destruct (x9_write_to_inbox_run n msg s) as (_ & -> & _).
    destruct (slot_has_data _); [apply same_shape_refl |].
    eapply same_shape_trans; [apply same_shape_update_slot |].
    apply same_shape_set_write_idx.
  - pose proof (x9_write_to_inbox_spin_from_run n msg fuel 1 spurious s) as Hrun.
    cbv zeta in Hrun. unfold x9_write_to_inbox_spin.
    destruct (result (x9_write_to_inbox_spin_from 1 fuel spurious n msg s))
      as [k |].
    + destruct Hrun as (j & _ & _ & _ & ->).
      eapply same_shape_trans; [apply same_shape_update_slot |].
      apply same_shape_set_write_idx.
    + rewrite Hrun. apply same_shape_iter. intros s'.
      apply same_shape_set_write_idx.
  - destruct (x9_read_from_inbox_run n out s) as (_ & ->).
    destruct (_ && _); [| apply same_shape_refl].
    eapply same_shape_trans; [apply same_shape_update_slot |].
    apply same_shape_set_read_idx.
  - destruct fuel as [| fuel'].
    + unfold x9_read_from_inbox_spin. rewrite final_bind, x9_increment_idx_run.
      cbv zeta. x9_proj. unfold x9_header_ptr. autorewrite with x9_run.
      cbn [x9_read_from_inbox_spin_loop]. autorewrite with x9_run.
      apply same_shape_set_read_idx.
    + pose proof (x9_read_from_inbox_spin_run fuel' n out s) as Hrun.
      cbv zeta in Hrun. destruct (slot_ready s (slot_of s (read_idx s))).
      * destruct Hrun as (_ & _ & ->).
        destruct (x9_read_from_inbox_run n out s) as (_ & ->).
        destruct (_ && _); [| apply same_shape_refl].
        eapply same_shape_trans; [apply same_shape_update_slot |].
        apply same_shape_set_read_idx.
      * destruct Hrun as (_ & ->). apply same_shape_set_read_idx.
  - destruct (x9_read_from_shared_inbox_run n out s) as (_ & ->).
    destruct (_ && _); [| apply same_shape_refl].
    eapply same_shape_trans; [apply same_shape_update_slot |].
    apply same_shape_set_read_idx.
  - pose proof (x9_read_from_shared_inbox_spin_from_run n out fuel 1 s) as Hrun.
    cbv zeta in Hrun. unfold x9_read_from_shared_inbox_spin.
    destruct (result (x9_read_from_shared_inbox_spin_from 1 fuel n out s)).1
      as [k |].
    + destruct Hrun as (j & _ & _ & _ & _ & _ & ->).
      eapply same_shape_trans; [apply same_shape_update_slot |].
      apply same_shape_set_read_idx.
    + destruct Hrun as (_ & ->). apply same_shape_iter. intros s'.
      apply same_shape_set_read_idx.
Qed.
